(** * Video knowledge extractor: ledger, pipeline, scheduler, fusion, clustering

    A shallow embedding of the orchestration code of the repository
    (src/src/workflow.py, parallel.py, fusion.py, clustering.py) and the
    properties of its specification that were checked against it.

    Conventions of the embedding.
    - Python [str] is a Rocq [string]; one [ascii] stands for one character,
      so the texts of the model are those over the code points below 256.
    - Python [float] similarity scores are exact rationals ([Q]); the
      numbers of a JSON reply are the binary64 numbers the decoder rounds
      them to.
    - An [async] method is a computation in the monad [M]: it threads the
      world and either returns a value or raises.  The world holds the
      ledger, the generative service with the number of calls made so far,
      the files and the directory listings.
    - Where a Python value may be of any type and the record that receives
      it is typed here (a title, an index), a value of another type is
      treated as the [TypeError] its use would raise; the comments of the
      definitions say where.
    - Part I holds the definitions, Part II the lemmas and the theorems. *)

From Stdlib Require Import ZArith QArith Lia String Ascii DecimalString
  DecimalNat.
From stdpp Require Import base option list gmap sorting.

Set Warnings "-clear-no-such-hyp".

Open Scope string_scope.
Open Scope list_scope.
Open Scope nat_scope.

(* ===================================================================== *)
(** * Part I: definitions *)
(* ===================================================================== *)

(** ** Exceptions and results *)

Inductive Exception : Type :=
  | ServiceError (msg : string)      (* raised by the generative service *)
  | OSError (msg : string)           (* unreadable input file *)
  | JSONDecodeError                  (* json.loads on malformed text *)
  | KeyError (key : string)          (* d[key] on a missing key *)
  | TypeError                        (* operation on a value of the wrong type *)
  | AttributeError                   (* .get on a value that is not a dict *)
  | IndexError                       (* xs[i] with i out of range *)
  | ValueError                       (* range() with a zero step; int() beyond the digit limit *)
  | RecursionError.                  (* nesting beyond the recursion limit *)

Inductive Result (A : Type) : Type :=
  | Ok (a : A)
  | Raise (e : Exception).
Arguments Ok {A} a.
Arguments Raise {A} e.

(** ** ProgressTracker: the SQLite ledger (workflow.py, lines 36-112) *)

Module Ledger.

(** One row of table [documents]; [id INTEGER PRIMARY KEY] is the rowid. *)
Record DocumentRow : Type := mkDocumentRow {
  row_id : nat;
  row_path : string;
  row_status : string;
  row_stage : option string;
  row_result : option string
}.

(** One row of table [knowledge_points]. *)
Record PointRow : Type := mkPointRow {
  prow_doc_id : nat;
  prow_title : string;
  prow_content : string;
  prow_video_markers : list (string * string);
  prow_source_file : string
}.

Record t : Type := mk {
  documents : list DocumentRow;
  knowledge_points : list PointRow
}.

Definition empty : t := mk [] [].

Definition has_path (path : string) (rows : list DocumentRow) : bool :=
  existsb (fun r => String.eqb (row_path r) path) rows.

(** SQLite gives a new row the largest rowid in the table plus one,
    and 1 in an empty table. *)
Definition next_rowid (rows : list DocumentRow) : nat :=
  S (foldr Nat.max 0 (map row_id rows)).

(** [INSERT OR IGNORE INTO documents (path, status) VALUES (?, 'pending')]
    on a connection opened for this statement alone.  The second
    component is [cursor.lastrowid]: the rowid of the inserted row, and 0
    (the connection's last insert rowid when it has inserted nothing) when
    the UNIQUE constraint on [path] made the statement a no-op. *)
Definition insert_or_ignore (path : string) (l : t) : t * nat :=
  if has_path path (documents l) then (l, 0)
  else
    let i := next_rowid (documents l) in
    (mk (documents l ++ [mkDocumentRow i path "pending" None None])
        (knowledge_points l), i).

(** [SELECT id FROM documents WHERE path = ?], [fetchone()],
    [row[0] if row else 0]. *)
Definition _get_doc_id (path : string) (l : t) : nat :=
  match find (fun r => String.eqb (row_path r) path) (documents l) with
  | Some r => row_id r
  | None => 0
  end.

(** [doc_id = cursor.lastrowid or self._get_doc_id(path)] *)
Definition add_document (path : string) (l : t) : nat * t :=
  let '(l', lastrowid) := insert_or_ignore path l in
  (if Nat.eqb lastrowid 0 then _get_doc_id path l' else lastrowid, l').

(** [UPDATE documents SET status = ?, stage = ?, result = ? WHERE id = ?] *)
Definition update_status (doc_id : nat) (status : string)
    (stage : option string) (result : option string) (l : t) : t :=
  mk (map (fun r =>
            if Nat.eqb (row_id r) doc_id
            then mkDocumentRow (row_id r) (row_path r) status stage result
            else r) (documents l))
     (knowledge_points l).

(** [INSERT INTO knowledge_points (...) VALUES (...)] *)
Definition save_knowledge_point (row : PointRow) (l : t) : t :=
  mk (documents l) (knowledge_points l ++ [row]).

(** The rows of [documents] stored under a path. *)
Definition rows_of (path : string) (l : t) : list DocumentRow :=
  filter (fun r => row_path r = path) (documents l).

(** What the table's constraints guarantee: [path] is UNIQUE. *)
Definition unique_paths (l : t) : Prop :=
  NoDup (map row_path (documents l)).

End Ledger.

(** ** difflib.SequenceMatcher (Python standard library)

    [_calculate_similarity] delegates to [SequenceMatcher(None, a, b).ratio()].
    The model follows CPython's difflib: [__chain_b], [find_longest_match],
    [get_matching_blocks] and [ratio], with [isjunk = None] and
    [autojunk = True] as the repository constructs it. *)

Module Difflib.

(** [b2j[x]] before purging: the indices [j] with [b[j] == x], increasing. *)
Fixpoint indices_from (x : ascii) (b : list ascii) (j : nat) : list nat :=
  match b with
  | [] => []
  | y :: b' =>
      if Ascii.eqb y x then j :: indices_from x b' (S j)
      else indices_from x b' (S j)
  end.

(** The autojunk heuristic: when [len(b) >= 200], an element occurring
    more than [len(b) // 100 + 1] times is popular and loses its entry. *)
Definition popular (b : list ascii) (x : ascii) : bool :=
  (200 <=? length b) && (length b / 100 + 1 <? length (indices_from x b 0)).

(** [b2j.get(x, [])] after [__chain_b]. *)
Definition b2j (b : list ascii) (x : ascii) : list nat :=
  if popular b x then [] else indices_from x b 0.

(** [isjunk] is [None], so [bjunk] is the empty set. *)
Definition isbjunk (x : ascii) : bool := false.

Record Match : Type := mkMatch { m_a : nat; m_b : nat; m_size : nat }.

(** The inner loop [for j in b2j.get(a[i], nothing)] of
    [find_longest_match], with its [continue] and [break]. *)
Fixpoint scan_row (i blo bhi : nat) (j2len : gmap nat nat) (js : list nat)
    (best : Match) (newj2len : gmap nat nat) : Match * gmap nat nat :=
  match js with
  | [] => (best, newj2len)
  | j :: js' =>
      if j <? blo then scan_row i blo bhi j2len js' best newj2len
      else if bhi <=? j then (best, newj2len)
      else
        let k := S (match j with
                    | 0 => 0
                    | S j' => default 0 (j2len !! j')
                    end) in
        scan_row i blo bhi j2len js'
          (if m_size best <? k then mkMatch (i + 1 - k) (j + 1 - k) k
           else best)
          (<[j := k]> newj2len)
  end.

(** The outer loop [for i in range(alo, ahi)]. *)
Fixpoint scan_rows (a b : list ascii) (blo bhi : nat) (rows : list nat)
    (best : Match) (j2len : gmap nat nat) : Match :=
  match rows with
  | [] => best
  | i :: rows' =>
      match a !! i with
      | Some x =>
          let '(best', newj2len) :=
            scan_row i blo bhi j2len (b2j b x) best ∅ in
          scan_rows a b blo bhi rows' best' newj2len
      | None => best
      end
  end.

(** [while besti > alo and bestj > blo and cond(b[bestj-1]) and
    a[besti-1] == b[bestj-1]: besti, bestj, bestsize = besti-1, bestj-1,
    bestsize+1] *)
Fixpoint extend_left (cond : ascii → bool) (a b : list ascii)
    (alo blo besti bestj bestsize : nat) : Match :=
  match besti, bestj with
  | S i', S j' =>
      if (alo <? besti) && (blo <? bestj) then
        match a !! i', b !! j' with
        | Some x, Some y =>
            if cond y && Ascii.eqb x y
            then extend_left cond a b alo blo i' j' (S bestsize)
            else mkMatch besti bestj bestsize
        | _, _ => mkMatch besti bestj bestsize
        end
      else mkMatch besti bestj bestsize
  | _, _ => mkMatch besti bestj bestsize
  end.

(** [while besti+bestsize < ahi and bestj+bestsize < bhi and
    cond(b[bestj+bestsize]) and a[besti+bestsize] == b[bestj+bestsize]:
    bestsize += 1].  The loop runs at most [ahi - (besti+bestsize)] times,
    which is the value [n] it is called with. *)
Fixpoint extend_right (n : nat) (cond : ascii → bool) (a b : list ascii)
    (ahi bhi besti bestj bestsize : nat) : Match :=
  match n with
  | 0 => mkMatch besti bestj bestsize
  | S n' =>
      if (besti + bestsize <? ahi) && (bestj + bestsize <? bhi) then
        match a !! (besti + bestsize), b !! (bestj + bestsize) with
        | Some x, Some y =>
            if cond y && Ascii.eqb x y
            then extend_right n' cond a b ahi bhi besti bestj (S bestsize)
            else mkMatch besti bestj bestsize
        | _, _ => mkMatch besti bestj bestsize
        end
      else mkMatch besti bestj bestsize
  end.

Definition not_junk (x : ascii) : bool := negb (isbjunk x).

Definition find_longest_match (a b : list ascii) (alo ahi blo bhi : nat)
    : Match :=
  let m0 := scan_rows a b blo bhi (seq alo (ahi - alo)) (mkMatch alo blo 0) ∅ in
  let m1 := extend_left not_junk a b alo blo (m_a m0) (m_b m0) (m_size m0) in
  let m2 := extend_right (ahi - (m_a m1 + m_size m1)) not_junk a b ahi bhi
              (m_a m1) (m_b m1) (m_size m1) in
  let m3 := extend_left isbjunk a b alo blo (m_a m2) (m_b m2) (m_size m2) in
  extend_right (ahi - (m_a m3 + m_size m3)) isbjunk a b ahi bhi
    (m_a m3) (m_b m3) (m_size m3).

(** The work list of [get_matching_blocks]: [queue.pop()] takes the last
    element appended, so the head of the list is the top of the stack. *)
Fixpoint matching_loop (fuel : nat) (a b : list ascii)
    (queue : list (nat * nat * nat * nat)) (blocks : list Match)
    : list Match :=
  match fuel with
  | 0 => blocks
  | S fuel' =>
      match queue with
      | [] => blocks
      | (alo, ahi, blo, bhi) :: rest =>
          let x := find_longest_match a b alo ahi blo bhi in
          if m_size x =? 0 then matching_loop fuel' a b rest blocks
          else
            let left :=
              if (alo <? m_a x) && (blo <? m_b x)
              then [(alo, m_a x, blo, m_b x)] else [] in
            let right :=
              if (m_a x + m_size x <? ahi) && (m_b x + m_size x <? bhi)
              then [(m_a x + m_size x, ahi, m_b x + m_size x, bhi)]
              else [] in
            matching_loop fuel' a b (right ++ left ++ rest) (blocks ++ [x])
      end
  end.

(** Every pass of the loop removes one range from the queue and a range
    over [n] elements of [a] yields fewer than [2n+1] passes, so
    [2 * len(a) + 1] passes empty the queue (lemma
    [matching_loop_enough_fuel]).  The blocks are returned as found: the
    sort, the merge of adjacent blocks and the closing [(la, lb, 0)] block
    do not change the sum of the sizes, which is all [ratio] reads. *)
Definition get_matching_blocks (a b : list ascii) : list Match :=
  matching_loop (2 * length a + 1) a b [(0, length a, 0, length b)] [].

Definition matches (a b : list ascii) : nat :=
  foldr Nat.add 0 (map m_size (get_matching_blocks a b)).

(** [_calculate_ratio]: [2.0 * matches / length if length else 1.0]. *)
Definition _calculate_ratio (matches length : nat) : Q :=
  if length =? 0 then 1%Q
  else (inject_Z (2 * Z.of_nat matches) / inject_Z (Z.of_nat length))%Q.

Definition ratio (a b : string) : Q :=
  let a' := list_ascii_of_string a in
  let b' := list_ascii_of_string b in
  _calculate_ratio (matches a' b') (length a' + length b').

End Difflib.

(** ** Strings *)

(** [c.lower()] for a code point below 256. *)
Definition lower_ascii (c : ascii) : ascii :=
  let n := nat_of_ascii c in
  if ((65 <=? n) && (n <=? 90))
     || ((192 <=? n) && (n <=? 222) && negb (n =? 215))
  then ascii_of_nat (n + 32) else c.

Fixpoint lower (s : string) : string :=
  match s with
  | EmptyString => EmptyString
  | String c s' => String (lower_ascii c) (lower s')
  end.

(** [s[:n]] *)
Definition prefix (n : nat) (s : string) : string := substring 0 n s.

(** ** Knowledge fragments (workflow.py, lines 25-33) *)

Record VideoMarker : Type := mkVideoMarker {
  marker_time : string;
  marker_description : string
}.

Record KnowledgePoint : Type := mkKnowledgePoint {
  title : string;
  content : string;
  video_markers : list VideoMarker;
  source_file : string;
  importance : nat
}.

(** ** KnowledgeFusionSkill: similarity and prefilter (fusion.py, 99-151) *)

Definition default_similarity_threshold : Q := 0.75%Q.

(** [title_sim * 0.6 + content_sim * 0.4] *)
Definition _calculate_similarity (p1 p2 : KnowledgePoint) : Q :=
  let title_sim := Difflib.ratio (lower (title p1)) (lower (title p2)) in
  let content_sim :=
    Difflib.ratio (lower (prefix 200 (content p1)))
                  (lower (prefix 200 (content p2))) in
  (title_sim * 0.6 + content_sim * 0.4)%Q.

(** The matrix after the two nested loops that fill it: entry [i][j] and
    entry [j][i] hold [_calculate_similarity(points[i], points[j])] for
    [i < j]; the diagonal keeps its initial [0.0]. *)
Definition similarity_entry (points : list KnowledgePoint) (i j : nat) : Q :=
  match points !! (Nat.min i j), points !! (Nat.max i j) with
  | Some p, Some q => if i =? j then 0%Q else _calculate_similarity p q
  | _, _ => 0%Q
  end.

Definition similarity_matrix (points : list KnowledgePoint) : list (list Q) :=
  let n := length points in
  map (fun i => map (fun j => similarity_entry points i j) (seq 0 n)) (seq 0 n).

(** [not visited[j] and similarity_matrix[i][j] >= threshold] *)
Definition is_candidate (threshold : Q) (row : list Q) (visited : list bool)
    (j : nat) : bool :=
  negb (default true (visited !! j))
  && Qle_bool threshold (default 0%Q (row !! j)).

(** The inner loop [for j in range(i + 1, n)] of the sweep. *)
Fixpoint collect_group (threshold : Q) (row : list Q) (js : list nat)
    (visited : list bool) (group : list nat) : list nat * list bool :=
  match js with
  | [] => (group, visited)
  | j :: js' =>
      if is_candidate threshold row visited j
      then collect_group threshold row js' (<[j := true]> visited) (group ++ [j])
      else collect_group threshold row js' visited group
  end.

(** The outer loop [for i in range(n)] of the sweep. *)
Fixpoint sweep (threshold : Q) (matrix : list (list Q)) (n : nat)
    (rows : list nat) (visited : list bool) (groups : list (list nat))
    : list (list nat) :=
  match rows with
  | [] => groups
  | i :: rows' =>
      if default true (visited !! i) then
        sweep threshold matrix n rows' visited groups
      else
        let '(group, visited') :=
          collect_group threshold (default [] (matrix !! i))
            (seq (i + 1) (n - (i + 1))) (<[i := true]> visited) [i] in
        sweep threshold matrix n rows' visited'
          (if 1 <? length group then groups ++ [group] else groups)
  end.

Definition _find_similar_candidates (threshold : Q)
    (points : list KnowledgePoint) : list (list nat) :=
  let n := length points in
  sweep threshold (similarity_matrix points) n (seq 0 n) (replicate n false) [].

(** The prefilter in the words of the specification: sweep the indices in
    order; an unvisited index [i] collects every unvisited [j > i] whose
    similarity to [i] reaches the threshold, all collected indices become
    visited, and a group of one index is dropped.  [sim i j] is the
    similarity of fragments [i] and [j], and the visited indices are a set. *)
Fixpoint greedy_sweep (threshold : Q) (sim : nat → nat → Q) (n : nat)
    (rows : list nat) (visited : gset nat) : list (list nat) :=
  match rows with
  | [] => []
  | i :: rows' =>
      if decide (i ∈ visited) then greedy_sweep threshold sim n rows' visited
      else
        let members :=
          filter (fun j => (j ∉ visited) ∧ Qle_bool threshold (sim i j) = true)
                 (seq (i + 1) (n - (i + 1))) in
        let rest :=
          greedy_sweep threshold sim n rows'
            ((visited ∪ {[i]}) ∪ list_to_set members) in
        if decide (members = []) then rest else (i :: members) :: rest
  end.

(** The similarity of fragments [i] and [j] of a list. *)
Definition pair_similarity (points : list KnowledgePoint) (i j : nat) : Q :=
  match points !! i, points !! j with
  | Some p, Some q => _calculate_similarity p q
  | _, _ => 0%Q
  end.

Definition greedy_groups (threshold : Q) (sim : nat → nat → Q) (n : nat)
    : list (list nat) :=
  greedy_sweep threshold sim n (seq 0 n) ∅.


(** ** Characters and strings

    A character is a code point below 256.  The classes below are those of
    Python's [str] methods and of [re] on [str] patterns in that range. *)

(** The double quote. *)
Definition double_quote : ascii := ascii_of_nat 34.

(** A text written with apostrophes where it has double quotes: the way the
    replies of the examples are written down. *)
Fixpoint quoted (s : string) : string :=
  match s with
  | EmptyString => EmptyString
  | String c s' =>
      String (if Ascii.eqb c "'"%char then double_quote else c) (quoted s')
  end.

(** [c.isspace()], which is also the class [\s]. *)
Definition is_space (c : ascii) : bool :=
  let n := nat_of_ascii c in
  ((9 <=? n) && (n <=? 13)) || ((28 <=? n) && (n <=? 32))
  || (n =? 133) || (n =? 160).

(** [s.strip()] *)
Fixpoint lstrip (s : list ascii) : list ascii :=
  match s with
  | c :: s' => if is_space c then lstrip s' else s
  | [] => []
  end.

Definition strip_chars (s : list ascii) : list ascii :=
  rev (lstrip (rev (lstrip s))).

Definition strip (s : string) : string :=
  string_of_list_ascii (strip_chars (list_ascii_of_string s)).

(** [s.startswith(p)] on character lists. *)
Fixpoint starts_with (p s : list ascii) : bool :=
  match p, s with
  | [], _ => true
  | c :: p', d :: s' => Ascii.eqb c d && starts_with p' s'
  | _ :: _, [] => false
  end.

(** ** json.loads (Python standard library)

    The decoder of CPython 3.11's [json] module with the default settings
    of the module and of the interpreter.  A text that is not JSON raises
    [JSONDecodeError]; containers nested deeper than the recursion limit
    allows raise [RecursionError]; an [int] of more than 4300 digits raises
    [ValueError].  Numbers without fraction and exponent are [int],
    the others are [float], rounded to the nearest binary64 number.  An
    escape [\uXXXX] outside the character range of the model decodes to a
    question mark. *)

Module Json.

#[local] Set Warnings "-register-all".

Inductive t : Type :=
  | Null
  | Bool (b : bool)
  | Int (z : Z)
  | Float (significand exponent : Z)   (* significand * 2 ^ exponent *)
  | NaN
  | Infinity (negative : bool)
  | Str (s : string)
  | Arr (items : list t)
  | Obj (pairs : list (string * t)).

(** [WHITESPACE = re.compile(r'[ \t\n\r]*')] *)
Definition is_ws (c : ascii) : bool :=
  let n := nat_of_ascii c in
  (n =? 32) || (n =? 9) || (n =? 10) || (n =? 13).

Fixpoint skip_ws (s : list ascii) : list ascii :=
  match s with
  | c :: s' => if is_ws c then skip_ws s' else s
  | [] => []
  end.

Definition digit_value (c : ascii) : option Z :=
  let n := nat_of_ascii c in
  if (48 <=? n) && (n <=? 57) then Some (Z.of_nat (n - 48)) else None.

Definition hex_value (c : ascii) : option N :=
  let n := N_of_ascii c in
  if ((48 <=? n) && (n <=? 57))%N then Some (n - 48)%N
  else if ((65 <=? n) && (n <=? 70))%N then Some (n - 55)%N
  else if ((97 <=? n) && (n <=? 102))%N then Some (n - 87)%N
  else None.

Definition hex4 (a b c d : ascii) : option N :=
  match hex_value a, hex_value b, hex_value c, hex_value d with
  | Some x, Some y, Some z, Some w => Some (((x * 16 + y) * 16 + z) * 16 + w)%N
  | _, _, _, _ => None
  end.

Definition char_of_code_point (n : N) : ascii :=
  if (n <? 256)%N then ascii_of_N n else "?"%char.

(** [py_scanstring] after the opening quote, in strict mode. *)
Fixpoint scan_string (s : list ascii) (acc : list ascii)
    : option (string * list ascii) :=
  match s with
  | [] => None
  | c :: s1 =>
      if Ascii.eqb c double_quote then
        Some (string_of_list_ascii (rev acc), s1)
      else if Ascii.eqb c "\"%char then
        match s1 with
        | [] => None
        | e :: s2 =>
            if Ascii.eqb e "u"%char then
              match s2 with
              | h1 :: h2 :: h3 :: h4 :: s3 =>
                  match hex4 h1 h2 h3 h4 with
                  | None => None
                  | Some n =>
                      if ((55296 <=? n) && (n <=? 56319))%N then
                        (* a high surrogate joins a following low one *)
                        match s3 with
                        | b :: u :: l1 :: l2 :: l3 :: l4 :: s4 =>
                            if Ascii.eqb b "\"%char && Ascii.eqb u "u"%char
                            then
                              match hex4 l1 l2 l3 l4 with
                              | Some m =>
                                  if ((56320 <=? m) && (m <=? 57343))%N
                                  then scan_string s4 ("?"%char :: acc)
                                  else scan_string s3 ("?"%char :: acc)
                              | None => scan_string s3 ("?"%char :: acc)
                              end
                            else scan_string s3 ("?"%char :: acc)
                        | _ => scan_string s3 ("?"%char :: acc)
                        end
                      else scan_string s3 (char_of_code_point n :: acc)
                  end
              | _ => None
              end
            else
              match
                (if Ascii.eqb e double_quote then Some double_quote
                 else if Ascii.eqb e "\"%char then Some "\"%char
                 else if Ascii.eqb e "/"%char then Some "/"%char
                 else if Ascii.eqb e "b"%char then Some (ascii_of_nat 8)
                 else if Ascii.eqb e "f"%char then Some (ascii_of_nat 12)
                 else if Ascii.eqb e "n"%char then Some (ascii_of_nat 10)
                 else if Ascii.eqb e "r"%char then Some (ascii_of_nat 13)
                 else if Ascii.eqb e "t"%char then Some (ascii_of_nat 9)
                 else None)
              with
              | Some d => scan_string s2 (d :: acc)
              | None => None
              end
        end
      else if nat_of_ascii c <? 32 then None
      else scan_string s1 (c :: acc)
  end.

(** The longest run of digits at the head of the text: its value, the
    number of digits and the rest. *)
Fixpoint scan_digits (s : list ascii) (value : Z) (count : nat)
    : Z * nat * list ascii :=
  match s with
  | c :: s' =>
      match digit_value c with
      | Some d => scan_digits s' (value * 10 + d) (S count)
      | None => (value, count, s)
      end
  | [] => (value, count, s)
  end.

(** The integer part of [NUMBER_RE]: an optional minus sign, then either
    a single 0 or a run of digits that does not start with 0.  The result
    gives the sign, the value and the number of digits. *)
Definition scan_integer (s : list ascii)
    : option (bool * Z * nat * list ascii) :=
  let '(negative, s1) :=
    match s with
    | c :: s' => if Ascii.eqb c "-"%char then (true, s') else (false, s)
    | [] => (false, s)
    end in
  match s1 with
  | c :: s2 =>
      if Ascii.eqb c "0"%char then Some (negative, 0%Z, 1, s2)
      else
        match digit_value c with
        | Some _ =>
            let '(v, n, rest) := scan_digits s1 0 0 in
            Some (negative, v, n, rest)
        | None => None
        end
  | [] => None
  end.

(** [(\.\d+)?]: the digits of the fraction, when there is one. *)
Definition scan_fraction (s : list ascii) : option (Z * nat * list ascii) :=
  match s with
  | c :: s1 =>
      if Ascii.eqb c "."%char then
        let '(v, n, rest) := scan_digits s1 0 0 in
        if n =? 0 then None else Some (v, n, rest)
      else None
  | [] => None
  end.

(** [([eE][-+]?\d+)?]: the exponent, when there is one. *)
Definition scan_exponent (s : list ascii) : option (Z * list ascii) :=
  match s with
  | c :: s1 =>
      if Ascii.eqb c "e"%char || Ascii.eqb c "E"%char then
        let '(negative, s2) :=
          match s1 with
          | d :: s' =>
              if Ascii.eqb d "-"%char then (true, s')
              else if Ascii.eqb d "+"%char then (false, s')
              else (false, s1)
          | [] => (false, s1)
          end in
        let '(v, n, rest) := scan_digits s2 0 0 in
        if n =? 0 then None
        else Some (if negative then (- v)%Z else v, rest)
      else None
  | [] => None
  end.

(** [floor (log2 (n / d))] for positive [n] and [d]: the difference of the
    two logarithms or one less. *)
Definition floor_log2_ratio (n d : Z) : Z :=
  let a := (Z.log2 n - Z.log2 d)%Z in
  if (if (0 <=? a)%Z then (d * 2 ^ a <=? n)%Z else (d <=? n * 2 ^ (- a))%Z)
  then a else (a - 1)%Z.

(** [n / d] rounded to the nearest integer, a tie to the even one. *)
Definition nearest_even (n d : Z) : Z :=
  let q := (n / d)%Z in
  match (2 * (n mod d) ?= d)%Z with
  | Lt => q
  | Gt => (q + 1)%Z
  | Eq => if Z.even q then q else (q + 1)%Z
  end.

(** The binary64 number nearest to [n / d], for positive [n] and [d], as a
    significand below 2^53 and an exponent of at least -1074; the
    significand is at least 2^52 unless the exponent is -1074 (a subnormal
    number), and zero is [(0, 0)].  [None] beyond the largest number. *)
Definition nearest_double (n d : Z) : option (Z * Z) :=
  let q := Z.max (floor_log2_ratio n d - 52) (-1074) in
  let s := if (0 <=? q)%Z then nearest_even n (d * 2 ^ q)
           else nearest_even (n * 2 ^ (- q)) d in
  let '(s, q) := if (s =? 2 ^ 53)%Z then (2 ^ 52, q + 1)%Z else (s, q) in
  if (s =? 0)%Z then Some (0, 0)%Z
  else if (971 <? q)%Z then None
  else Some (s, q).

(** [float(text)] for the decimal [m * 10 ^ e] with [m >= 0].  A decimal
    exponent from 310 on is beyond the largest number, and a value below
    2^-1075 rounds to zero; both are told without the power of ten. *)
Definition round_to_double (m e : Z) : option (Z * Z) :=
  if (m =? 0)%Z then Some (0, 0)%Z
  else if (309 <? e)%Z then None
  else if (Z.log2 m + 1 + 3 * e <? -1075)%Z then Some (0, 0)%Z
  else if (0 <=? e)%Z then nearest_double (m * 10 ^ e) 1
  else nearest_double m (10 ^ (- e)).

Definition to_float (negative : bool) (m e : Z) : t :=
  match round_to_double m e with
  | Some (s, q) => Float (if negative then (- s)%Z else s) q
  | None => Infinity negative
  end.

(** [sys.get_int_max_str_digits()] *)
Definition int_max_str_digits : nat := 4300.

(** A match of [NUMBER_RE] and its conversion: [int] without fraction and
    exponent, which raises [ValueError] beyond the digit limit, [float]
    otherwise. *)
Definition scan_number (s : list ascii) : Result (t * list ascii) :=
  match scan_integer s with
  | None => Raise JSONDecodeError
  | Some (negative, i, digits, s1) =>
      match scan_fraction s1, scan_exponent s1 with
      | None, None =>
          if int_max_str_digits <? digits then Raise ValueError
          else Ok (Int (if negative then (- i)%Z else i), s1)
      | None, Some (e, s2) => Ok (to_float negative i e, s2)
      | Some (f, n, s2), _ =>
          let mantissa := (i * 10 ^ Z.of_nat n + f)%Z in
          match scan_exponent s2 with
          | Some (e, s3) =>
              Ok (to_float negative mantissa (e - Z.of_nat n), s3)
          | None => Ok (to_float negative mantissa (- Z.of_nat n), s2)
          end
      end
  end.

(** [s[idx:idx+len(word)] == word] followed by the rest. *)
Definition scan_word (word : string) (s : list ascii)
    : option (list ascii) :=
  let w := list_ascii_of_string word in
  if starts_with w s then Some (drop (length w) s) else None.

(** [d[key] = value] on a dictionary kept in insertion order: a key that
    is there keeps its place and takes the new value. *)
Fixpoint set_item (d : list (string * t)) (key : string) (value : t)
    : list (string * t) :=
  match d with
  | [] => [(key, value)]
  | (k, v) :: d' =>
      if String.eqb k key then (k, value) :: d'
      else (k, v) :: set_item d' key value
  end.

(** The dictionary of the members of an object, given in their order. *)
Definition dict (members : list (string * t)) : list (string * t) :=
  foldl (fun d kv => set_item d (fst kv) (snd kv)) [] members.

(** [scan_once], [JSONArray] and [JSONObject] of the decoder.  [fuel]
    bounds the number of calls; [loads] gives more than the text can use.
    [depth] is the number of containers that may still be entered: the
    decoder enters a recursive call at every opening brace and bracket
    ([Py_EnterRecursiveCall]) and raises [RecursionError] when none is
    left. *)
Fixpoint scan_once (fuel depth : nat) (s : list ascii)
    : Result (t * list ascii) :=
  match fuel with
  | 0 => Raise JSONDecodeError
  | S fuel' =>
      match s with
      | [] => Raise JSONDecodeError
      | c :: s1 =>
          if Ascii.eqb c double_quote then
            match scan_string s1 [] with
            | Some (str, rest) => Ok (Str str, rest)
            | None => Raise JSONDecodeError
            end
          else if Ascii.eqb c "{"%char then
            match depth with
            | 0 => Raise RecursionError
            | S depth' =>
                match skip_ws s1 with
                | d :: s2 =>
                    if Ascii.eqb d "}"%char then Ok (Obj [], s2)
                    else scan_members fuel' depth' (d :: s2) []
                | [] => Raise JSONDecodeError
                end
            end
          else if Ascii.eqb c "["%char then
            match depth with
            | 0 => Raise RecursionError
            | S depth' =>
                match skip_ws s1 with
                | d :: s2 =>
                    if Ascii.eqb d "]"%char then Ok (Arr [], s2)
                    else scan_items fuel' depth' (d :: s2) []
                | [] => Raise JSONDecodeError
                end
            end
          else
            match scan_word "null" s, scan_word "true" s,
                  scan_word "false" s with
            | Some rest, _, _ => Ok (Null, rest)
            | _, Some rest, _ => Ok (Bool true, rest)
            | _, _, Some rest => Ok (Bool false, rest)
            | None, None, None =>
                match scan_number s with
                | Raise JSONDecodeError =>
                    match scan_word "NaN" s, scan_word "Infinity" s,
                          scan_word "-Infinity" s with
                    | Some rest, _, _ => Ok (NaN, rest)
                    | _, Some rest, _ => Ok (Infinity false, rest)
                    | _, _, Some rest => Ok (Infinity true, rest)
                    | None, None, None => Raise JSONDecodeError
                    end
                | outcome => outcome
                end
            end
      end
  end
(** The values of an array, the text standing at a value. *)
with scan_items (fuel depth : nat) (s : list ascii) (acc : list t)
    : Result (t * list ascii) :=
  match fuel with
  | 0 => Raise JSONDecodeError
  | S fuel' =>
      match scan_once fuel' depth s with
      | Raise e => Raise e
      | Ok (v, rest) =>
          match skip_ws rest with
          | c :: s1 =>
              if Ascii.eqb c "]"%char then Ok (Arr (rev (v :: acc)), s1)
              else if Ascii.eqb c ","%char
              then scan_items fuel' depth (skip_ws s1) (v :: acc)
              else Raise JSONDecodeError
          | [] => Raise JSONDecodeError
          end
      end
  end
(** The members of an object, the text standing at a key. *)
with scan_members (fuel depth : nat) (s : list ascii)
    (acc : list (string * t)) : Result (t * list ascii) :=
  match fuel with
  | 0 => Raise JSONDecodeError
  | S fuel' =>
      match s with
      | q :: s1 =>
          if Ascii.eqb q double_quote then
            match scan_string s1 [] with
            | None => Raise JSONDecodeError
            | Some (key, s2) =>
                match skip_ws s2 with
                | c :: s3 =>
                    if Ascii.eqb c ":"%char then
                      match scan_once fuel' depth (skip_ws s3) with
                      | Raise e => Raise e
                      | Ok (v, rest) =>
                          match skip_ws rest with
                          | d :: s4 =>
                              if Ascii.eqb d "}"%char
                              then Ok (Obj (dict (rev ((key, v) :: acc))), s4)
                              else if Ascii.eqb d ","%char
                              then scan_members fuel' depth (skip_ws s4)
                                     ((key, v) :: acc)
                              else Raise JSONDecodeError
                          | [] => Raise JSONDecodeError
                          end
                      end
                    else Raise JSONDecodeError
                | [] => Raise JSONDecodeError
                end
            end
          else Raise JSONDecodeError
      | [] => Raise JSONDecodeError
      end
  end.

(** [sys.getrecursionlimit()], and the containers the decoder may nest when
    [json.loads] is called from the top level of a script: the frames in use
    count against the limit, and every further frame of a caller takes one
    more. *)
Definition recursion_limit : nat := 1000.

Definition nesting_allowance : nat := recursion_limit - 5.

(** [json.loads(s)]: one value between optional white space. *)
Definition loads (text : string) : Result t :=
  let s := list_ascii_of_string text in
  match scan_once (2 * length s + 2) nesting_allowance (skip_ws s) with
  | Ok (v, rest) =>
      match skip_ws rest with
      | [] => Ok v
      | _ :: _ => Raise JSONDecodeError
      end
  | Raise e => Raise e
  end.

(** The number a [float] stands for. *)
Definition float_value (significand exponent : Z) : Q :=
  if (0 <=? exponent)%Z then inject_Z (significand * 2 ^ exponent)
  else (inject_Z significand / inject_Z (2 ^ (- exponent)))%Q.

(** [d.get(key)] on the pairs of an object: [dict] keeps the last value
    given to a key. *)
Fixpoint lookup (key : string) (pairs : list (string * t)) : option t :=
  match pairs with
  | [] => None
  | (k, v) :: pairs' =>
      match lookup key pairs' with
      | Some w => Some w
      | None => if String.eqb k key then Some v else None
      end
  end.

Definition is_object (v : t) : bool :=
  match v with Obj _ => true | _ => false end.

End Json.


(** ** ResponseExtractor: [_parse_json_response]
    (fusion.py, lines 437-467; clustering.py, lines 388-421: the two
    methods are the same text) *)

Definition newline : ascii := ascii_of_nat 10.

(** The closing fence of the first two patterns: a line feed and three
    backquotes. *)
Definition fence_close : list ascii :=
  newline :: list_ascii_of_string "```".

(** The lazy group followed by the closing fence: the text before the
    first closing fence (under [re.DOTALL] the dot matches every
    character). *)
Fixpoint until_fence_close (s : list ascii) : option (list ascii) :=
  if starts_with fence_close s then Some []
  else
    match s with
    | [] => None
    | c :: s' => cons c <$> until_fence_close s'
    end.

(** What follows the label in the first two patterns: white space, a line
    feed, the group and the closing fence.  The white space is greedy and
    gives characters back until the rest matches. *)
Fixpoint fence_body (s : list ascii) : option (list ascii) :=
  match s with
  | [] => None
  | c :: s' =>
      if is_space c then
        match fence_body s' with
        | Some g => Some g
        | None => if Ascii.eqb c newline then until_fence_close s' else None
        end
      else None
  end.

(** [re.search] of a fence pattern with the given opening label: group 1 of
    the leftmost match. *)
Fixpoint search_fence (label s : list ascii) : option (list ascii) :=
  match (if starts_with label s
         then fence_body (drop (length label) s) else None) with
  | Some g => Some g
  | None =>
      match s with
      | [] => None
      | _ :: s' => search_fence label s'
      end
  end.

(** The longest prefix that ends with a closing brace. *)
Fixpoint to_last_brace (s : list ascii) : option (list ascii) :=
  match s with
  | [] => None
  | c :: s' =>
      match to_last_brace s' with
      | Some g => Some (c :: g)
      | None => if Ascii.eqb c "}"%char then Some [c] else None
      end
  end.

(** [re.search] of the third pattern, an opening brace, any characters
    (greedy) and a closing brace: group 1 of the leftmost match. *)
Fixpoint search_braces (s : list ascii) : option (list ascii) :=
  match s with
  | [] => None
  | c :: s' =>
      if Ascii.eqb c "{"%char then
        match to_last_brace s' with
        | Some g => Some (c :: g)
        | None => search_braces s'
        end
      else search_braces s'
  end.

(** The three patterns of the method, in its order. *)
Definition patterns : list (list ascii → option (list ascii)) :=
  [ search_fence (list_ascii_of_string "```json");
    search_fence (list_ascii_of_string "```");
    search_braces ].

(** [text.find(c)] and [text.rfind(c)], counting from [i]: -1 when the
    character does not occur. *)
Fixpoint find_char (c : ascii) (s : list ascii) (i : Z) : Z :=
  match s with
  | [] => (-1)%Z
  | d :: s' => if Ascii.eqb d c then i else find_char c s' (i + 1)%Z
  end.

Fixpoint rfind_char (c : ascii) (s : list ascii) (i : Z) : Z :=
  match s with
  | [] => (-1)%Z
  | d :: s' =>
      let r := rfind_char c s' (i + 1)%Z in
      if (0 <=? r)%Z then r else if Ascii.eqb d c then i else (-1)%Z
  end.

(** [s[start:stop]] for [0 <= start <= stop]. *)
Definition slice (start stop : Z) (s : list ascii) : list ascii :=
  take (Z.to_nat (stop - start)) (drop (Z.to_nat start) s).

(** The loop over the patterns: the first pattern that matches and whose
    stripped group parses returns; a pattern that does not match, or whose
    group raises [JSONDecodeError], passes to the next one.  Another
    exception of [json.loads] is not caught and ends the loop.  [None] when
    the loop runs to its end. *)
Fixpoint try_patterns (pats : list (list ascii → option (list ascii)))
    (s : list ascii) : option (Result Json.t) :=
  match pats with
  | [] => None
  | pat :: pats' =>
      match pat s with
      | Some g =>
          match Json.loads (strip (string_of_list_ascii g)) with
          | Raise JSONDecodeError => try_patterns pats' s
          | outcome => Some outcome
          end
      | None => try_patterns pats' s
      end
  end.

Definition _parse_json_response (text : string) : Result Json.t :=
  let s := list_ascii_of_string text in
  match try_patterns patterns s with
  | Some outcome => outcome
  | None =>
      match Json.loads (strip text) with
      | Raise JSONDecodeError =>
          let start := find_char "{"%char s 0 in
          let stop := rfind_char "}"%char s 0 in
          if ((0 <=? start) && (start <? stop))%Z then
            match Json.loads
                    (string_of_list_ascii (slice start (stop + 1) s)) with
            | Raise JSONDecodeError => Ok (Json.Obj [])
            | outcome => outcome
            end
          else Ok (Json.Obj [])
      | outcome => outcome
      end
  end.

(** The extractor in the words of the specification: four attempts in a
    fixed order, the first one that parses wins, the empty structure when
    none does.  Each attempt is the text it hands to the parser, when its
    delimiters are found.  An attempt fails when the parser rejects its text
    with [JSONDecodeError]; what else the parser does with the text, a value
    or another exception, is the outcome. *)
Definition json_fenced_block (text : string) : option string :=
  (fun g => strip (string_of_list_ascii g)) <$>
    search_fence (list_ascii_of_string "```json") (list_ascii_of_string text).

Definition any_fenced_block (text : string) : option string :=
  (fun g => strip (string_of_list_ascii g)) <$>
    search_fence (list_ascii_of_string "```") (list_ascii_of_string text).

(** The substring from the first opening brace to the last closing brace. *)
Definition brace_delimited (text : string) : option string :=
  let s := list_ascii_of_string text in
  let start := find_char "{"%char s 0 in
  let stop := rfind_char "}"%char s 0 in
  if ((0 <=? start) && (start <? stop))%Z
  then Some (string_of_list_ascii (slice start (stop + 1) s))
  else None.

Definition whole_trimmed (text : string) : option string :=
  Some (strip text).

Fixpoint first_parsed (attempts : list (option string))
    : option (Result Json.t) :=
  match attempts with
  | [] => None
  | Some candidate :: rest =>
      match Json.loads candidate with
      | Raise JSONDecodeError => first_parsed rest
      | outcome => Some outcome
      end
  | None :: rest => first_parsed rest
  end.

Definition extract_response (text : string) : Result Json.t :=
  default (Ok (Json.Obj []))
    (first_parsed [ json_fenced_block text; any_fenced_block text;
                    brace_delimited text; whole_trimmed text ]).

(** ** Regular expression substitution

    [re.sub(pattern, repl, text)] for a pattern given by its match at a
    position: [match_at prev s] is the length of the match that starts where
    [s] starts, [prev] being the character before it, and [None] when the
    pattern does not match there.  Matches are replaced from left to right;
    an empty match is replaced and the character after it is kept.  [skip]
    counts the characters of the current match still to be dropped. *)
Fixpoint re_sub (match_at : option ascii → list ascii → option nat)
    (repl : list ascii) (s : list ascii) (prev : option ascii) (skip : nat)
    : list ascii :=
  match s with
  | [] =>
      match skip, match_at prev [] with
      | 0, Some _ => repl
      | _, _ => []
      end
  | c :: s' =>
      match skip with
      | S k => re_sub match_at repl s' (Some c) k
      | 0 =>
          match match_at prev s with
          | Some (S n) => repl ++ re_sub match_at repl s' (Some c) n
          | Some 0 => repl ++ c :: re_sub match_at repl s' (Some c) 0
          | None => c :: re_sub match_at repl s' (Some c) 0
          end
      end
  end.

Definition sub (match_at : option ascii → list ascii → option nat)
    (repl : string) (s : list ascii) : list ascii :=
  re_sub match_at (list_ascii_of_string repl) s None 0.

(** The class [\w]: [c.isalnum()] or an underscore. *)
Definition is_word (c : ascii) : bool :=
  let n := nat_of_ascii c in
  ((48 <=? n) && (n <=? 57)) || ((65 <=? n) && (n <=? 90)) || (n =? 95)
  || ((97 <=? n) && (n <=? 122))
  || (n =? 170) || (n =? 178) || (n =? 179) || (n =? 181) || (n =? 185)
  || (n =? 186) || ((188 <=? n) && (n <=? 190))
  || ((192 <=? n) && (n <=? 214)) || ((216 <=? n) && (n <=? 246))
  || ((248 <=? n) && (n <=? 255)).

(** The number of characters at the head of [s] that satisfy [p]. *)
Fixpoint count_while (p : ascii → bool) (s : list ascii) : nat :=
  match s with
  | c :: s' => if p c then S (count_while p s') else 0
  | [] => 0
  end.

(** ** TextCleaner (workflow.py, lines 115-148) *)

Module TextCleaner.

(** The alternatives of the first noise pattern, in its order. *)
Definition fillers : list string :=
  [ "um"; "uh"; "uhh"; "erm"; "like"; "you know"; "right"; "so"; "well";
    "okay"; "ok"; "actually"; "basically"; "literally" ].

(** A lower-case literal against the text under [re.IGNORECASE]. *)
Fixpoint starts_with_ci (p s : list ascii) : bool :=
  match p, s with
  | [], _ => true
  | c :: p', d :: s' => Ascii.eqb c (lower_ascii d) && starts_with_ci p' s'
  | _ :: _, [] => false
  end.

(** [\b] between a word character and what comes before or after it. *)
Definition boundary_before (prev : option ascii) : bool :=
  match prev with
  | None => true
  | Some c => negb (is_word c)
  end.

Definition boundary_after (rest : list ascii) : bool :=
  match rest with
  | [] => true
  | c :: _ => negb (is_word c)
  end.

(** The first alternative that matches here and ends at a boundary. *)
Fixpoint match_alternative (words : list string) (s : list ascii)
    : option nat :=
  match words with
  | [] => None
  | w :: words' =>
      let p := list_ascii_of_string w in
      if starts_with_ci p s && boundary_after (drop (length p) s)
      then Some (length p)
      else match_alternative words' s
  end.

Definition is_comma_or_dot (c : ascii) : bool :=
  Ascii.eqb c ","%char || Ascii.eqb c "."%char.

(** Pattern 1: a filler word between boundaries, an optional comma or
    full stop, white space. *)
Definition match_filler (prev : option ascii) (s : list ascii)
    : option nat :=
  if boundary_before prev then
    match match_alternative fillers s with
    | Some n =>
        let r := drop n s in
        let k := match r with
                 | c :: _ => if is_comma_or_dot c then 1 else 0
                 | [] => 0
                 end in
        Some (n + k + count_while is_space (drop k r))
    | None => None
    end
  else None.

(** The interjections of pattern 2 are six CJK characters, and the commas
    of patterns 2 to 4 are the comma and the full-width comma: among the
    characters of the model there is no interjection and one comma. *)
Definition is_interjection (c : ascii) : bool := false.

Definition is_comma (c : ascii) : bool := Ascii.eqb c ","%char.

(** An optional character of a class: 1 when the text starts with one. *)
Definition optional (class : ascii → bool) (s : list ascii) : nat :=
  match s with
  | c :: _ => if class c then 1 else 0
  | [] => 0
  end.

(** Pattern 2: white space, an optional interjection, an optional comma,
    white space.  Every part may be empty, so the pattern matches at every
    position, possibly the empty string, and each part takes all it can. *)
Definition match_interjection (prev : option ascii) (s : list ascii)
    : option nat :=
  let n := count_while is_space s in
  let r := drop n s in
  let j := optional is_interjection r in
  let r := drop j r in
  let k := optional is_comma r in
  Some (n + j + k + count_while is_space (drop k r)).

(** Patterns 3 and 4: white space, one of the phrases of the pattern, an
    optional comma, white space.  The phrases are CJK words, so in a text of
    the model the patterns match nowhere. *)
Definition match_phrase (prev : option ascii) (s : list ascii)
    : option nat := None.

Definition is_newline (c : ascii) : bool := Ascii.eqb c newline.

(** The index after the last line feed of [s], 0 when there is none. *)
Fixpoint after_last_newline (s : list ascii) : nat :=
  match s with
  | [] => 0
  | c :: s' =>
      match after_last_newline s' with
      | S n => S (S n)
      | 0 => if is_newline c then 1 else 0
      end
  end.

(** Pattern 5: a line feed, white space, a line feed, white space and line
    feeds: a run of white space that begins with a line feed and holds at
    least three, up to its last line feed. *)
Definition match_blank_lines (prev : option ascii) (s : list ascii)
    : option nat :=
  match s with
  | c :: _ =>
      if is_newline c then
        let run := take (count_while is_space s) s in
        if 3 <=? length (filter (fun c => is_newline c = true) run)
        then Some (after_last_newline run) else None
      else None
  | [] => None
  end.

Definition is_blank (c : ascii) : bool :=
  Ascii.eqb c " "%char || Ascii.eqb c (ascii_of_nat 9).

Definition is_space_char (c : ascii) : bool := Ascii.eqb c " "%char.

(** One or more spaces or tabs. *)
Definition match_blanks (prev : option ascii) (s : list ascii)
    : option nat :=
  match count_while is_blank s with
  | 0 => None
  | n => Some n
  end.

(** One or more spaces and a line feed. *)
Definition match_trailing_spaces (prev : option ascii) (s : list ascii)
    : option nat :=
  match count_while is_space_char s with
  | 0 => None
  | n =>
      match drop n s with
      | c :: _ => if is_newline c then Some (S n) else None
      | [] => None
      end
  end.

(** A line feed and one or more spaces. *)
Definition match_leading_spaces (prev : option ascii) (s : list ascii)
    : option nat :=
  match s with
  | c :: s' =>
      if is_newline c then
        match count_while is_space_char s' with
        | 0 => None
        | n => Some (S n)
        end
      else None
  | [] => None
  end.

(** One or more white space characters. *)
Definition match_spaces (prev : option ascii) (s : list ascii)
    : option nat :=
  match count_while is_space s with
  | 0 => None
  | n => Some n
  end.

Definition NOISE_PATTERNS
    : list ((option ascii → list ascii → option nat) * string) :=
  [ (match_filler, "");
    (match_interjection, "");
    (match_phrase, "");
    (match_phrase, "");
    (match_blank_lines, String newline (String newline "")) ].

(** The text after the loop over [NOISE_PATTERNS] and the three white
    space substitutions that follow it. *)
Definition normalize (s : list ascii) : list ascii :=
  let s := foldl (fun s '(pattern, replacement) => sub pattern replacement s)
             s NOISE_PATTERNS in
  let s := sub match_blanks " " s in
  let s := sub match_trailing_spaces (String newline "") s in
  sub match_leading_spaces (String newline "") s.

(** [len(text) < original_length * 0.3].  The product is a float; for
    lengths below 2^50 the comparison holds exactly when
    [10 * len(text) < 3 * original_length]. *)
Definition over_cleaned (cleaned original_length : nat) : bool :=
  10 * cleaned <? 3 * original_length.

Definition clean (text : string) : string :=
  let original_length := String.length text in
  let s := normalize (list_ascii_of_string text) in
  let s := if over_cleaned (length s) original_length
           then sub match_spaces " " s else s in
  string_of_list_ascii (strip_chars s).

(** What the specification asks of the guard: the original text with its
    white space collapsed. *)
Definition collapse_whitespace (text : string) : string :=
  string_of_list_ascii
    (strip_chars (sub match_spaces " " (list_ascii_of_string text))).

End TextCleaner.


(** ** The world of an [async] method

    A prompt is the template of a call site together with the values the
    f-string interpolates into it. *)

Inductive Prompt : Type :=
  | NoiseReductionPrompt (content : string)
  | StructurePrompt (content : string)
  | VideoMarkPrompt (point_title point_content : string)
  | ConfirmDuplicatesPrompt (descriptions : list (nat * string * string))
  | MergeGroupPrompt (count : nat) (versions : list (string * string))
  | IdentifyTopicsPrompt (summaries : list (string * string)).

(** The ledger, the generative service, the files and the directory
    listings ([dir_path.glob(pattern)]).  The reply of the service may depend
    on the prompt, on the temperature and on the number of calls made
    before. *)
Record World : Type := mkWorld {
  ledger : Ledger.t;
  llm_calls : nat;
  service : nat → Prompt → Q → Result string;
  files : string → Result string;
  listing : string → string → list string
}.

Definition M (A : Type) : Type := World → Result A * World.

Definition ret {A} (a : A) : M A := fun w => (Ok a, w).

Definition raise {A} (e : Exception) : M A := fun w => (Raise e, w).

Definition bind {A B} (m : M A) (k : A → M B) : M B :=
  fun w =>
    match m w with
    | (Ok a, w') => k a w'
    | (Raise e, w') => (Raise e, w')
    end.

(** [try: body / except Exception as e: handler]: what the body did to the
    world before it raised stays done. *)
Definition try_except {A} (body : M A) (handler : Exception → M A) : M A :=
  fun w =>
    match body w with
    | (Ok a, w') => (Ok a, w')
    | (Raise e, w') => handler e w'
    end.

Declare Scope py_scope.
Delimit Scope py_scope with py.
Notation "x <- m ;; k" := (bind m (fun x => k))
  (at level 100, m at next level, right associativity) : py_scope.
Notation "m ;; k" := (bind m (fun _ => k))
  (at level 100, right associativity) : py_scope.
Open Scope py_scope.

Definition lift_result {A} (r : Result A) : M A := fun w => (r, w).

(** [await self.llm.generate(prompt, temperature)] *)
Definition generate (prompt : Prompt) (temperature : Q) : M string :=
  fun w =>
    (service w (llm_calls w) prompt temperature,
     mkWorld (ledger w) (S (llm_calls w)) (service w) (files w) (listing w)).

(** [LLMClient.generate]'s default [temperature=0.3]. *)
Definition default_temperature : Q := 0.3%Q.

(** [doc_path.read_text(encoding="utf-8")] *)
Definition read_text (path : string) : M string :=
  fun w => (files w path, w).

Definition with_ledger {A} (f : Ledger.t → A * Ledger.t) : M A :=
  fun w =>
    let '(a, l) := f (ledger w) in
    (Ok a, mkWorld l (llm_calls w) (service w) (files w) (listing w)).

Definition tracker_add_document (path : string) : M nat :=
  with_ledger (Ledger.add_document path).

Definition tracker_update_status (doc_id : nat) (status stage : string)
    : M unit :=
  with_ledger (fun l =>
    (tt, Ledger.update_status doc_id status (Some stage) None l)).

(** [for x in xs: body(x)] *)
Fixpoint for_each {A} (xs : list A) (body : A → M unit) : M unit :=
  match xs with
  | [] => ret tt
  | x :: xs' => body x ;; for_each xs' body
  end.

(** [[await f(x) for x in xs]] evaluated from left to right. *)
Fixpoint map_m {A B} (f : A → M B) (xs : list A) : M (list B) :=
  match xs with
  | [] => ret []
  | x :: xs' => y <- f x ;; ys <- map_m f xs' ;; ret (y :: ys)
  end.

(** ** WorkflowEngine (workflow.py, lines 14-22 and 204-328) *)

Record Document : Type := mkDocument {
  path : string;
  doc_content : string;
  course_name : option string;
  knowledge_points : list KnowledgePoint
}.

Definition set_content (doc : Document) (text : string) : Document :=
  mkDocument (path doc) text (course_name doc) (knowledge_points doc).

Definition set_knowledge_points (doc : Document)
    (points : list KnowledgePoint) : Document :=
  mkDocument (path doc) (doc_content doc) (course_name doc) points.

(** [KnowledgePoint]'s default [importance]. *)
Definition default_importance : nat := 3.

Definition tracker_save_knowledge_point (doc_id : nat)
    (point : KnowledgePoint) : M unit :=
  with_ledger (fun l =>
    (tt, Ledger.save_knowledge_point
           (Ledger.mkPointRow doc_id (title point) (content point)
              (map (fun m => (marker_time m, marker_description m))
                 (video_markers point))
              (source_file point)) l)).

Definition _stage_noise_reduction (doc : Document) : M Document :=
  text <- generate (NoiseReductionPrompt (prefix 4000 (doc_content doc)))
            default_temperature ;;
  ret (set_content doc text).

(** [d[key]] on a value: [KeyError] on a dictionary without the key,
    [TypeError] on a value that cannot be indexed by a string. *)
Definition subscript (v : Json.t) (key : string) : Result Json.t :=
  match v with
  | Json.Obj pairs =>
      match Json.lookup key pairs with
      | Some x => Ok x
      | None => Raise (KeyError key)
      end
  | _ => Raise TypeError
  end.

(** [d.get(key, default)]: [AttributeError] on a value without [get]. *)
Definition get (v : Json.t) (key : string) (default : Json.t)
    : Result Json.t :=
  match v with
  | Json.Obj pairs => Ok (from_option id default (Json.lookup key pairs))
  | _ => Raise AttributeError
  end.

(** The elements a [for] loop draws from a value: the items of a list, the
    keys of a dictionary, the characters of a string; [TypeError] on a value
    that is not iterable. *)
Definition iterate (v : Json.t) : Result (list Json.t) :=
  match v with
  | Json.Arr items => Ok items
  | Json.Obj pairs => Ok (map (fun kv => Json.Str (fst kv)) pairs)
  | Json.Str s =>
      Ok (map (fun c => Json.Str (String c "")) (list_ascii_of_string s))
  | _ => Raise TypeError
  end.

(** The fields of [KnowledgePoint] are typed as strings: a title or a
    content that the reply gives as another kind of value is outside the
    typed record and is treated as a [TypeError]. *)
Definition as_string (v : Json.t) : Result string :=
  match v with
  | Json.Str s => Ok s
  | _ => Raise TypeError
  end.

Definition result_bind {A B} (r : Result A) (k : A → Result B) : Result B :=
  match r with
  | Ok a => k a
  | Raise e => Raise e
  end.

(** [KnowledgePoint(title=p["title"], content=p["content"],
    source_file=str(doc.path))] *)
Definition point_of_json (source : string) (p : Json.t)
    : Result KnowledgePoint :=
  result_bind (subscript p "title") (fun t =>
  result_bind (subscript p "content") (fun c =>
  result_bind (as_string t) (fun title =>
  result_bind (as_string c) (fun content =>
  Ok (mkKnowledgePoint title content [] source default_importance))))).

Fixpoint points_of_json (source : string) (items : list Json.t)
    : Result (list KnowledgePoint) :=
  match items with
  | [] => Ok []
  | p :: items' =>
      result_bind (point_of_json source p) (fun point =>
      result_bind (points_of_json source items') (fun points =>
      Ok (point :: points)))
  end.

(** The title of the fragment a failed extraction degrades to. *)
Definition degraded_title : string := "内容".

(** [re.search] of an opening brace, any characters and a closing brace
    under [re.DOTALL], then the list comprehension over
    [data.get("points", [])]. *)
Definition extract_points (doc : Document) (result : string)
    : Result Document :=
  match search_braces (list_ascii_of_string result) with
  | Some group =>
      result_bind (Json.loads (string_of_list_ascii group)) (fun data =>
      result_bind (get data "points" (Json.Arr [])) (fun value =>
      result_bind (iterate value) (fun items =>
      result_bind (points_of_json (path doc) items) (fun points =>
      Ok (set_knowledge_points doc points)))))
  | None => Ok doc
  end.



Definition _stage_structure (doc : Document) : M Document :=
  try_except
    (result <- generate (StructurePrompt (prefix 3000 (doc_content doc)))
                 default_temperature ;;
     lift_result (extract_points doc result))
    (fun e =>
       ret (set_knowledge_points doc
              [ mkKnowledgePoint degraded_title
                  (prefix 1000 (doc_content doc)) [] (path doc)
                  default_importance ])).

(** The marker pattern of stage 4 opens with a CJK phrase, so [re.findall]
    finds no marker in a reply of the model. *)
Definition find_markers (marked_content : string) : list VideoMarker := [].

Definition mark_point (point : KnowledgePoint) : M KnowledgePoint :=
  try_except
    (marked_content <- generate (VideoMarkPrompt (title point) (content point))
                         default_temperature ;;
     ret (mkKnowledgePoint (title point) marked_content
            (find_markers marked_content) (source_file point)
            (importance point)))
    (fun e => ret point).

Definition _stage_video_mark (doc : Document) : M Document :=
  points <- map_m mark_point (knowledge_points doc) ;;
  ret (set_knowledge_points doc points).

Definition process_document (doc_path : string) : M Document :=
  doc_id <- tracker_add_document doc_path ;;
  text <- read_text doc_path ;;
  let doc := mkDocument doc_path text None [] in
  tracker_update_status doc_id "processing" "cleaning" ;;
  let doc := set_content doc (TextCleaner.clean (doc_content doc)) in
  tracker_update_status doc_id "processing" "noise_reduction" ;;
  doc <- _stage_noise_reduction doc ;;
  tracker_update_status doc_id "processing" "structuring" ;;
  doc <- _stage_structure doc ;;
  tracker_update_status doc_id "processing" "video_marking" ;;
  doc <- _stage_video_mark doc ;;
  tracker_update_status doc_id "done" "completed" ;;
  for_each (knowledge_points doc) (tracker_save_knowledge_point doc_id) ;;
  ret doc.

(** The status and the stage label the ledger holds for a path. *)
Definition status_of (doc_path : string) (w : World)
    : option (string * option string) :=
  match find (fun r => String.eqb (Ledger.row_path r) doc_path)
          (Ledger.documents (ledger w)) with
  | Some r => Some (Ledger.row_status r, Ledger.row_stage r)
  | None => None
  end.


(** ** ParallelProcessor (parallel.py, lines 11-63) *)

(** [async with self.semaphore: return await
    self.engine.process_document(file_path)] *)
Definition _process_with_limit (file_path : string) : M Document :=
  process_document file_path.

(** [asyncio.gather] over the tasks with [return_exceptions=True]: the outcome of
    every task, in the order of the tasks; an exception a task raises is its
    outcome and stops nothing.  The tasks run here one after the other, the
    schedule of the event loop under [max_workers = 1]. *)
Fixpoint gather_return_exceptions {A} (tasks : list (M A))
    : M (list (Result A)) :=
  match tasks with
  | [] => ret []
  | task :: tasks' =>
      fun w =>
        let '(outcome, w1) := task w in
        (outcomes <- gather_return_exceptions tasks' ;;
         ret (outcome :: outcomes)) w1
  end.

(** The loop that filters the exceptions out of the results. *)
Definition keep_documents (results : list (Result Document))
    : list Document :=
  foldl (fun docs result =>
           match result with
           | Raise _ => docs
           | Ok doc => docs ++ [doc]
           end) [] results.

(** The files that match the pattern, followed by the text files. *)
Definition discover (dir_path pattern : string) (w : World) : list string :=
  listing w dir_path pattern ++ listing w dir_path "*.txt".

(** [process_directory] from the discovered files on. *)
Definition process_files (files : list string) : M (list Document) :=
  match files with
  | [] => ret []
  | _ :: _ =>
      results <- gather_return_exceptions (map _process_with_limit files) ;;
      ret (keep_documents results)
  end.

Definition process_directory (dir_path pattern : string)
    : M (list Document) :=
  fun w => process_files (discover dir_path pattern w) w.

(** The scheduler in the words of the specification: every document is run
    through the pipeline whatever happened to the others, and the result is
    the successful records in discovery order. *)
Fixpoint run_each (files : list string) (w : World)
    : list (Result Document) * World :=
  match files with
  | [] => ([], w)
  | file :: files' =>
      let '(outcome, w1) := process_document file w in
      let '(outcomes, w2) := run_each files' w1 in
      (outcome :: outcomes, w2)
  end.

Definition successful {A} (outcomes : list (Result A)) : list A :=
  omap (fun outcome =>
          match outcome with
          | Ok a => Some a
          | Raise _ => None
          end) outcomes.


(** ** KnowledgeFusionSkill: confirmation and merge
    (fusion.py, lines 18-49 and 153-353, 425-435) *)

Record MergedKnowledge : Type := mkMergedKnowledge {
  merged_title : string;
  merged_content : string;
  sources : list string;
  merged_video_markers : list VideoMarker;
  examples : list string;
  confidence : Q;
  merged_from : nat
}.

Record DuplicateGroup : Type := mkDuplicateGroup {
  best_title : string;
  indices : list nat;
  similarity_scores : list Q;
  reason : string
}.

(** [s.split("\n")] *)
Fixpoint split_lines_from (s line : list ascii) : list (list ascii) :=
  match s with
  | [] => [rev line]
  | c :: s' =>
      if Ascii.eqb c newline then rev line :: split_lines_from s' []
      else split_lines_from s' (c :: line)
  end.

Definition split_lines (s : string) : list (list ascii) :=
  split_lines_from (list_ascii_of_string s) [].

(** [kw in line] *)
Fixpoint contains (kw line : list ascii) : bool :=
  starts_with kw line ||
  match line with
  | [] => false
  | _ :: line' => contains kw line'
  end.

(** The keywords of [_extract_examples] that a text of the model can
    contain; the other four are CJK words. *)
Definition example_keywords : list string := ["example"; "Example"].

Definition is_example_line (line : list ascii) : bool :=
  existsb (fun kw => contains (list_ascii_of_string kw) line) example_keywords
  && (20 <? length line) && (length line <? 500).

Definition _extract_examples (points : list KnowledgePoint) : list string :=
  take 3
    (flat_map
       (fun p =>
          map (fun line => string_of_list_ascii (strip_chars line))
            (filter (fun line => is_example_line line = true)
               (split_lines (content p))))
       points).

(** The key of a marker: its time, a dash and the first 30 characters of
    its description. *)
Definition marker_key (m : VideoMarker) : string :=
  (marker_time m ++ "-" ++ prefix 30 (marker_description m))%string.

Fixpoint unique_markers (markers : list VideoMarker) (seen : gset string)
    : list VideoMarker :=
  match markers with
  | [] => []
  | m :: markers' =>
      if decide (marker_key m ∈ seen) then unique_markers markers' seen
      else m :: unique_markers markers' ({[marker_key m]} ∪ seen)
  end.

Definition _deduplicate_markers (markers : list VideoMarker)
    : list VideoMarker :=
  take 5 (unique_markers markers ∅).

Definition _to_merged (point : KnowledgePoint) : MergedKnowledge :=
  mkMergedKnowledge (title point) (content point) [source_file point]
    (video_markers point) (_extract_examples [point]) 1%Q 1.

(** The three prefixes [_clean_merged_content] removes are CJK phrases; on
    a text of the model only [content.strip()] acts. *)
Definition _clean_merged_content (text : string) : string := strip text.

(** ["\n\n".join(parts)] *)
Fixpoint join_paragraphs (parts : list string) : string :=
  match parts with
  | [] => ""
  | [part] => part
  | part :: parts' =>
      (part ++ String newline (String newline "") ++ join_paragraphs parts')%string
  end.

(** [list(set(xs))]: the order a set lists its elements in is not
    specified; the model takes the order of first occurrence. *)
Fixpoint distinct (xs : list string) (seen : gset string) : list string :=
  match xs with
  | [] => []
  | x :: xs' =>
      if decide (x ∈ seen) then distinct xs' seen
      else x :: distinct xs' ({[x]} ∪ seen)
  end.

(** [min(1.0, 0.7 + len(points) * 0.05)] *)
Definition group_confidence (n : nat) : Q :=
  let c := (0.7 + inject_Z (Z.of_nat n) * 0.05)%Q in
  if Qle_bool 1 c then 1%Q else c.

Definition _merge_group (points : list KnowledgePoint) (best : string)
    : M MergedKnowledge :=
  match points with
  | [point] => ret (_to_merged point)
  | _ =>
      text <- try_except
                (reply <- generate
                            (MergeGroupPrompt (length points)
                               (map (fun p => (title p, prefix 1000 (content p)))
                                  (take 5 points)))
                            0.3%Q ;;
                 ret (_clean_merged_content reply))
                (fun e => ret (join_paragraphs (map content (take 3 points)))) ;;
      ret (mkMergedKnowledge best text
             (distinct (map source_file points) ∅)
             (_deduplicate_markers (flat_map video_markers points))
             (_extract_examples points)
             (group_confidence (length points))
             (length points))
  end.

(** The truth value of a reply field in a condition. *)
Definition truthy (v : Json.t) : bool :=
  match v with
  | Json.Null => false
  | Json.Bool b => b
  | Json.Int z => negb (z =? 0)%Z
  | Json.Float m _ => negb (m =? 0)%Z
  | Json.NaN => true
  | Json.Infinity _ => true
  | Json.Str s => negb (String.eqb s "")
  | Json.Arr items => negb (length items =? 0)
  | Json.Obj pairs => negb (length pairs =? 0)
  end.

(** The literal [0.8]: the binary64 number nearest to eight tenths. *)
Definition confidence_threshold : Q :=
  (3602879701896397 # 4503599627370496)%Q.

(** [v > 0.8]: [TypeError] on a value that is not a number. *)
Definition above_confidence (v : Json.t) : Result bool :=
  match v with
  | Json.Bool b => Ok b
  | Json.Int z => Ok (negb (Qle_bool (inject_Z z) confidence_threshold))
  | Json.Float m e =>
      Ok (negb (Qle_bool (Json.float_value m e) confidence_threshold))
  | Json.NaN => Ok false
  | Json.Infinity negative => Ok (negb negative)
  | _ => Raise TypeError
  end.

(** The body of the [try] in [_confirm_duplicates] after the reply: the
    group when the reply confirms it, nothing otherwise.  A best title or a
    reason that is not a string is outside the typed record and is treated
    as a [TypeError]. *)
Definition confirmation (data : Json.t) (first_title : string)
    (group_indices : list nat) : Result (option DuplicateGroup) :=
  result_bind (get data "is_duplicate" (Json.Bool false)) (fun dup =>
  if truthy dup then
    result_bind (get data "confidence" (Json.Int 0)) (fun conf =>
    result_bind (above_confidence conf) (fun above =>
    if above then
      result_bind (get data "best_title" (Json.Str first_title)) (fun t =>
      result_bind (as_string t) (fun best =>
      result_bind (get data "reason" (Json.Str "")) (fun r =>
      result_bind (as_string r) (fun why =>
      Ok (Some (mkDuplicateGroup best group_indices
                  (replicate (length group_indices) 1%Q) why))))))
    else Ok None))
  else Ok None).

(** [[points[i] for i in group_indices]]: [IndexError] out of range. *)
Fixpoint select (points : list KnowledgePoint) (group_indices : list nat)
    : option (list KnowledgePoint) :=
  match group_indices with
  | [] => Some []
  | i :: rest =>
      match points !! i, select points rest with
      | Some p, Some ps => Some (p :: ps)
      | _, _ => None
      end
  end.

(** The reason given to a group confirmed because the call failed. *)
Definition automatic_merge_reason : string := "自动合并（LLM确认失败）".

Definition confirm_group (points : list KnowledgePoint)
    (group_indices : list nat) : M (option DuplicateGroup) :=
  if length group_indices <? 2 then ret None
  else
    match select points group_indices with
    | None => raise IndexError
    | Some group_points =>
        let first_title :=
          match group_points with
          | p :: _ => title p
          | [] => ""
          end in
        try_except
          (reply <- generate
                      (ConfirmDuplicatesPrompt
                         (zip_with (fun i p => (i, title p, prefix 100 (content p)))
                            group_indices group_points))
                      0.2%Q ;;
           lift_result
             (result_bind (_parse_json_response reply) (fun data =>
              confirmation data first_title group_indices)))
          (fun e =>
             ret (Some (mkDuplicateGroup first_title group_indices
                          (replicate (length group_indices) 1%Q)
                          automatic_merge_reason)))
    end.

Definition _confirm_duplicates (points : list KnowledgePoint)
    (candidate_groups : list (list nat)) : M (list DuplicateGroup) :=
  decisions <- map_m (confirm_group points) candidate_groups ;;
  ret (omap id decisions).

(** The loop over the confirmed groups of [_merge_all_groups]. *)
Fixpoint merge_groups (points : list KnowledgePoint)
    (groups : list DuplicateGroup) (merged : list MergedKnowledge)
    (used_indices : gset nat) : M (list MergedKnowledge * gset nat) :=
  match groups with
  | [] => ret (merged, used_indices)
  | group :: groups' =>
      let group_points :=
        omap (fun i => points !! i)
          (filter (fun i => i < length points) (indices group)) in
      if 1 <? length group_points then
        merged_point <- _merge_group group_points (best_title group) ;;
        merge_groups points groups' (merged ++ [merged_point])
          (list_to_set (indices group) ∪ used_indices)
      else if length group_points =? 1 then
        merge_groups points groups'
          (merged ++ map _to_merged group_points)
          (list_to_set (take 1 (indices group)) ∪ used_indices)
      else merge_groups points groups' merged used_indices
  end.

(** The loop that adds the fragments no group used. *)
Definition ungrouped (points : list KnowledgePoint) (used_indices : gset nat)
    : list MergedKnowledge :=
  map (fun ip => _to_merged ip.2)
    (filter (fun ip : nat * KnowledgePoint => ip.1 ∉ used_indices)
       (imap (fun i p => (i, p)) points)).

Definition _merge_all_groups (points : list KnowledgePoint)
    (confirmed_groups : list DuplicateGroup) : M (list MergedKnowledge) :=
  r <- merge_groups points confirmed_groups [] ∅ ;;
  ret (r.1 ++ ungrouped points r.2).

Definition merge_duplicates (threshold : Q) (points : list KnowledgePoint)
    : M (list MergedKnowledge) :=
  match points with
  | [] => ret []
  | [point] => ret [_to_merged point]
  | _ =>
      let candidate_groups := _find_similar_candidates threshold points in
      confirmed_groups <- _confirm_duplicates points candidate_groups ;;
      _merge_all_groups points confirmed_groups
  end.

(** The number of input fragments the output accounts for. *)
Definition total_merged_from (merged : list MergedKnowledge) : nat :=
  foldr Nat.add 0 (map merged_from merged).


(** ** CrossDocumentClusteringSkill: batches and topic indices
    (clustering.py, lines 17-34, 98-192 and 356-364) *)

Record TopicCluster : Type := mkTopicCluster {
  topic_id : string;
  topic_title : string;
  topic_description : string;
  point_indices : list Z;
  keywords : list string
}.


(** [range(0, len(all_points), size)] and the slices
    [all_points[i : i + size]]; [range] raises [ValueError] on a zero
    step. *)
Definition _create_batches {A} (max_points_per_batch : nat)
    (all_points : list A) : Result (list (list A)) :=
  if max_points_per_batch =? 0 then Raise ValueError
  else
    Ok (map (fun b =>
               take max_points_per_batch
                 (drop (b * max_points_per_batch) all_points))
          (seq 0 ((length all_points + max_points_per_batch - 1)
                  / max_points_per_batch))).

(** The indices given to a topic of batch [batch_idx]: for a later batch
    the comprehension [[i + offset for i in ... if i < len(batch_points)]],
    for the first batch the indices of the reply as they are. *)
Definition adjust_point_indices (batch_idx max_points_per_batch : nat)
    (batch_len : nat) (local : list Z) : list Z :=
  if 0 <? batch_idx then
    let offset := Z.of_nat (batch_idx * max_points_per_batch) in
    map (fun i => (i + offset)%Z)
      (filter (fun i => (i < Z.of_nat batch_len)%Z) local)
  else local.

(** An index of the reply: an integer, or a boolean, which is an integer in
    Python.  The indices of [TopicCluster] are typed as a list of integers:
    a reply whose indices are not such a list is outside the typed record
    and is treated as the [TypeError] that the comparison of a later batch
    raises on every value that is not a number. *)
Definition as_index (v : Json.t) : Result Z :=
  match v with
  | Json.Int z => Ok z
  | Json.Bool b => Ok (if b then 1%Z else 0%Z)
  | _ => Raise TypeError
  end.

Fixpoint as_list {A} (f : Json.t → Result A) (items : list Json.t)
    : Result (list A) :=
  match items with
  | [] => Ok []
  | v :: items' =>
      result_bind (f v) (fun a =>
      result_bind (as_list f items') (fun l => Ok (a :: l)))
  end.

Definition string_of_nat (n : nat) : string :=
  NilZero.string_of_uint (Nat.to_uint n).

(** The title of a topic the reply leaves without one. *)
Definition unnamed_topic : string := "未命名主题".

(** One [TopicCluster] of the reply; [count] is [len(all_topics)]. *)
Definition topic_of_json (batch_idx max_points_per_batch batch_len : nat)
    (count : nat) (topic_data : Json.t) : Result TopicCluster :=
  result_bind (get topic_data "point_indices" (Json.Arr [])) (fun raw =>
  result_bind (iterate raw) (fun items =>
  result_bind (as_list as_index items) (fun local =>
  result_bind (get topic_data "id"
                 (Json.Str ("topic_" ++ string_of_nat count))) (fun i =>
  result_bind (as_string i) (fun id =>
  result_bind (get topic_data "title" (Json.Str unnamed_topic)) (fun t =>
  result_bind (as_string t) (fun title =>
  result_bind (get topic_data "description" (Json.Str "")) (fun d =>
  result_bind (as_string d) (fun description =>
  result_bind (get topic_data "keywords" (Json.Arr [])) (fun k =>
  result_bind (iterate k) (fun kitems =>
  result_bind (as_list as_string kitems) (fun kws =>
  Ok (mkTopicCluster id title description
        (adjust_point_indices batch_idx max_points_per_batch batch_len local)
        kws))))))))))))).

(** The loop over the topics of one reply: the topics appended to
    [all_topics] and the exception that stopped the loop, if one did. *)
Fixpoint topics_of_reply (batch_idx max_points_per_batch batch_len : nat)
    (items : list Json.t) (all_topics : list TopicCluster)
    : list TopicCluster * option Exception :=
  match items with
  | [] => (all_topics, None)
  | topic_data :: items' =>
      match topic_of_json batch_idx max_points_per_batch batch_len
              (length all_topics) topic_data with
      | Ok topic =>
          topics_of_reply batch_idx max_points_per_batch batch_len items'
            (all_topics ++ [topic])
      | Raise e => (all_topics, Some e)
      end
  end.

(** The degrade path of a batch: one topic for each of its fragments. *)
Definition singleton_topics (batch_idx max_points_per_batch : nat)
    (batch_points : list KnowledgePoint) : list TopicCluster :=
  imap (fun i p =>
          let offset := batch_idx * max_points_per_batch in
          mkTopicCluster ("topic_" ++ string_of_nat (offset + i)) (title p)
            (prefix 100 (content p)) [Z.of_nat (offset + i)] [])
    batch_points.

(** The body of the loop over the batches. *)
Definition identify_batch (max_points_per_batch : nat) (batch_idx : nat)
    (batch_points : list KnowledgePoint) (all_topics : list TopicCluster)
    : M (list TopicCluster) :=
  fun w =>
    match generate
            (IdentifyTopicsPrompt
               (map (fun p => (title p, prefix 150 (content p))) batch_points))
            0.3%Q w with
    | (Raise e, w') =>
        (Ok (all_topics
             ++ singleton_topics batch_idx max_points_per_batch batch_points),
         w')
    | (Ok reply, w') =>
        match result_bind (_parse_json_response reply) (fun data =>
              result_bind (get data "topics" (Json.Arr [])) iterate) with
        | Raise e =>
            (Ok (all_topics
                 ++ singleton_topics batch_idx max_points_per_batch
                      batch_points), w')
        | Ok items =>
            let '(topics, failure) :=
              topics_of_reply batch_idx max_points_per_batch
                (length batch_points) items all_topics in
            match failure with
            | None => (Ok topics, w')
            | Some e =>
                (Ok (topics
                     ++ singleton_topics batch_idx max_points_per_batch
                          batch_points), w')
            end
        end
    end.

Fixpoint identify_batches (max_points_per_batch : nat) (batch_idx : nat)
    (batches : list (list KnowledgePoint)) (all_topics : list TopicCluster)
    : M (list TopicCluster) :=
  match batches with
  | [] => ret all_topics
  | batch_points :: batches' =>
      topics <- identify_batch max_points_per_batch batch_idx batch_points
                  all_topics ;;
      identify_batches max_points_per_batch (S batch_idx) batches' topics
  end.

(** [_identify_topics] up to the list [all_topics] that it hands to
    [_merge_similar_topics]. *)
Definition _identify_topics (max_points_per_batch : nat)
    (all_points : list KnowledgePoint) : M (list TopicCluster) :=
  batches <- lift_result (_create_batches max_points_per_batch all_points) ;;
  identify_batches max_points_per_batch 0 batches [].


(** ** Notions used in the statements and in the proofs *)

(** Marking a list of indices as visited. *)
Definition mark_all (visited : list bool) (js : list nat) : list bool :=
  foldl (fun v j => <[j := true]> v) visited js.

(** A [visited] array of length [n] represents a set of indices. *)
Definition represents (n : nat) (visited : list bool) (V : gset nat) : Prop :=
  length visited = n ∧
  ∀ j, j < n → visited !! j = Some (bool_decide (j ∈ V)).

(** A block lies inside the ranges searched in [a] and in [b]. *)
Definition within (alo ahi blo bhi : nat) (m : Difflib.Match) : Prop :=
  alo ≤ Difflib.m_a m ∧ Difflib.m_a m + Difflib.m_size m ≤ ahi ∧
  blo ≤ Difflib.m_b m ∧ Difflib.m_b m + Difflib.m_size m ≤ bhi.

(** Row [i] reads the lengths of the matches that end in row [i - 1]. *)
Definition lengths_bounded (alo blo i : nat) (j2len : gmap nat nat) : Prop :=
  ∀ j v, j2len !! j = Some v → v + alo ≤ i ∧ v + blo ≤ j + 1.

(** A range of the work list: its bounds are in order. *)
Definition range_ok (r : nat * nat * nat * nat) : Prop :=
  let '(alo, ahi, blo, bhi) := r in alo ≤ ahi ∧ blo ≤ bhi.

(** The most elements a range can still contribute to the matches. *)
Definition range_capacity (r : nat * nat * nat * nat) : nat :=
  let '(alo, ahi, blo, bhi) := r in Nat.min (ahi - alo) (bhi - blo).

(** The most passes of the loop a range can still cause. *)
Definition range_work (r : nat * nat * nat * nat) : nat :=
  let '(alo, ahi, blo, bhi) := r in 1 + 2 * (ahi - alo).

(** The sum of the sizes of the blocks, which [ratio] calls [matches]. *)
Definition total_size (blocks : list Difflib.Match) : nat :=
  foldr Nat.add 0 (map Difflib.m_size blocks).

(** The sum of a measure over a list. *)
Definition sum_over {A} (f : A → nat) (l : list A) : nat :=
  foldr Nat.add 0 (map f l).

(** A strictly increasing list of indices. *)
Fixpoint increasing (l : list nat) : Prop :=
  match l with
  | [] => True
  | j :: l' => Forall (lt j) l' ∧ increasing l'
  end.

(** The number of consecutive elements of [a] ending at index [i] that
    keep their entry in [b2j]. *)
Fixpoint run (a : list ascii) (i : nat) : nat :=
  match a !! i with
  | Some x =>
      if Difflib.popular a x then 0
      else S (match i with 0 => 0 | S i' => run a i' end)
  | None => 0
  end.

(** What row [i] of the scan of [a] against itself finds in [j2len]: no
    length exceeds the runs that end at its two indices, and the entry of
    the diagonal is the run itself. *)
Definition prev_ok (a : list ascii) (i : nat) (j2len : gmap nat nat) : Prop :=
  (∀ j v, j2len !! j = Some v →
     ∃ i', i = S i' ∧ v ≤ run a i' ∧ v ≤ run a j) ∧
  (∀ i', i = S i' → default 0 (j2len !! i') = run a i').

(** The best match before row [i] lies on the diagonal and is at least as
    long as every run met so far. *)
Definition best_ok (a : list ascii) (i : nat) (best : Difflib.Match) : Prop :=
  Difflib.m_a best = Difflib.m_b best ∧
  ∀ i', i' < i → run a i' ≤ Difflib.m_size best.

(** A text of [n] opening brackets. *)
Definition brackets (n : nat) : string :=
  string_of_list_ascii (repeat "["%char n).

(** All the indices the confirmed groups name, group after group. *)
Definition group_indices_total (groups : list DuplicateGroup) : list nat :=
  concat (map indices groups).

(** A fragment passed through: the output holds what the fragment holds and
    accounts for it alone. *)
Definition passes_through (p : KnowledgePoint) (m : MergedKnowledge) : Prop :=
  merged_title m = title p ∧ merged_content m = content p ∧
  sources m = [source_file p] ∧ merged_video_markers m = video_markers p ∧
  merged_from m = 1.

(** The output of a confirmed group: it accounts for as many fragments as
    the group names, its sources are the source files of these fragments,
    and it bears the title of the group; a group of one fragment passes it
    through. *)
Definition covers (points : list KnowledgePoint) (g : DuplicateGroup)
    (m : MergedKnowledge) : Prop :=
  merged_from m = length (indices g) ∧
  (∀ i, i ∈ indices g →
        ∃ p, points !! i = Some p ∧ source_file p ∈ sources m) ∧
  (∀ s, s ∈ sources m →
        ∃ i p, i ∈ indices g ∧ points !! i = Some p ∧ source_file p = s) ∧
  match indices g with
  | [i] => ∃ p, points !! i = Some p ∧ passes_through p m
  | _ => merged_title m = best_title g
  end.

(** The indices no group names, in increasing order. *)
Definition ungrouped_indices (n : nat) (groups : list DuplicateGroup)
    : list nat :=
  filter (fun i => i ∉ group_indices_total groups) (seq 0 n).

(** The output conserves the input: it is one output for each group that
    names a fragment, in the order of the groups, followed by one output for
    each fragment that no group names, in the order of the fragments; and
    every index of the fragment list is named by the groups once or by no
    group. *)
Definition conserves (points : list KnowledgePoint)
    (groups : list DuplicateGroup) (merged : list MergedKnowledge) : Prop :=
  ∃ grouped passed,
    merged = grouped ++ passed ∧
    Forall2 (covers points) (filter (fun g => indices g ≠ []) groups)
      grouped ∧
    Forall2 (fun i m => ∃ p, points !! i = Some p ∧ passes_through p m)
      (ungrouped_indices (length points) groups) passed ∧
    group_indices_total groups ++ ungrouped_indices (length points) groups
    ≡ₚ seq 0 (length points).

(** Five documents, the fourth of which cannot be read. *)
Definition five_lectures : list string :=
  [ "lecture0.srt"; "lecture1.srt"; "lecture2.srt"; "lecture3.srt";
    "lecture4.srt" ].

(** A world in which the service answers every call and the file
    "lecture3.srt" cannot be read. *)
Definition world_with_unreadable_lecture3 : World :=
  mkWorld Ledger.empty 0
    (fun _ prompt _ =>
       match prompt with
       | StructurePrompt _ =>
           Ok (quoted "{'points': [{'title': 'Limit', 'content': 'Approaching values'}]}")
       | _ => Ok "Approaching values."
       end)
    (fun file =>
       if String.eqb file "lecture3.srt" then Raise (OSError "unreadable")
       else Ok "Today we learn about limits")
    (fun _ _ => []).

(** The fragments of the BDD scenario on duplicate merging. *)
Definition bdd_points : list KnowledgePoint :=
  [ mkKnowledgePoint "Derivative" "Rate of change" [] "file1.srt" 3;
    mkKnowledgePoint "Derivatives" "How function changes" [] "file2.srt" 3;
    mkKnowledgePoint "Limit" "Approaching values" [] "file3.srt" 3 ].

(** The first two fragments confirmed as one group. *)
Definition bdd_groups : list DuplicateGroup :=
  [ mkDuplicateGroup "Derivative" [0; 1] [1%Q; 1%Q] "same concept" ].

(** A world whose service answers every call with the same sentence. *)
Definition bdd_world : World :=
  mkWorld Ledger.empty 0
    (fun _ _ _ => Ok "The derivative is the rate of change of a function.")
    (fun _ => Raise (OSError ""))
    (fun _ _ => []).

(** ** The calls of the tracker (workflow.py, lines 36-112) *)

(** One call of a method of [ProgressTracker] that writes to the database. *)
Inductive TrackerCall : Type :=
  | AddDocument (path : string)
  | UpdateStatus (doc_id : nat) (status : string) (stage result : option string)
  | SaveKnowledgePoint (row : Ledger.PointRow).

Definition tracker_call (l : Ledger.t) (call : TrackerCall) : Ledger.t :=
  match call with
  | AddDocument path => (Ledger.add_document path l).2
  | UpdateStatus doc_id status stage result =>
      Ledger.update_status doc_id status stage result l
  | SaveKnowledgePoint row => Ledger.save_knowledge_point row l
  end.

(** The database after a sequence of calls on the tables [_init_db]
    creates. *)
Definition tracker_history (calls : list TrackerCall) : Ledger.t :=
  foldl tracker_call Ledger.empty calls.


(** What stage 4 makes of the fragment at position [i]: the reply of its
    call, the call being the one numbered [llm_calls w + i], becomes the
    content; a fragment whose call fails stays as it is. *)
Definition marked (w : World) (i : nat) (point : KnowledgePoint)
    : KnowledgePoint :=
  match service w (llm_calls w + i)
          (VideoMarkPrompt (title point) (content point))
          default_temperature with
  | Ok reply =>
      mkKnowledgePoint (title point) reply (find_markers reply)
        (source_file point) (importance point)
  | Raise _ => point
  end.

(** A character the cleaner lets through: no white space and no comma. *)
Definition solid (c : ascii) : Prop :=
  is_space c = false ∧ c ≠ ","%char.

(** ** The other schedulers
    (parallel.py, lines 64-85; workflow.py, lines 331-349) *)

(** [[r for r in results if not isinstance(r, Exception)]] *)
Fixpoint without_exceptions {A} (results : list (Result A)) : list A :=
  match results with
  | [] => []
  | Ok a :: results' => a :: without_exceptions results'
  | Raise _ :: results' => without_exceptions results'
  end.

(** The task of [process_with_progress].  The counter [completed] it
    increments feeds the progress line it prints and nothing else. *)
Definition _process_and_track (f : string) : M Document :=
  process_document f.

Definition process_with_progress (dir_path pattern : string)
    : M (list Document) :=
  fun w =>
    (results <- gather_return_exceptions
                  (map _process_and_track (discover dir_path pattern w)) ;;
     ret (without_exceptions results)) w.

(** The exceptions among the outcomes, in the order of the tasks. *)
Definition failures {A} (outcomes : list (Result A)) : list Exception :=
  omap (fun outcome =>
          match outcome with
          | Raise e => Some e
          | Ok _ => None
          end) outcomes.

(** [asyncio.gather] without [return_exceptions]: the results of the tasks
    in their order when every task returns; otherwise the exception of the
    task that fails first in time.  Which task that is depends on the event
    loop and on the time the calls take: [first] is its position among the
    failing tasks.  The tasks run here one after the other, as for
    [gather_return_exceptions]; the tasks that are still pending when the
    first one fails are left to the event loop, and the properties below
    read the outcome only. *)
Definition gather {A} (first : nat) (tasks : list (M A)) : M (list A) :=
  fun w =>
    match gather_return_exceptions tasks w with
    | (Ok outcomes, w') =>
        match failures outcomes with
        | [] => (Ok (successful outcomes), w')
        | e :: es =>
            (Raise (nth (first mod length (e :: es)) (e :: es) e), w')
        end
    | (Raise e, w') => (Raise e, w')
    end.

Module BatchProcessor.

(** [async with self.semaphore: return await
    self.engine.process_document(file_path)] *)
Definition _process_one (file_path : string) : M Document :=
  process_document file_path.

Definition process_directory (first : nat) (dir_path : string)
    : M (list Document) :=
  fun w =>
    gather first
      (map _process_one
         (listing w dir_path "*.srt" ++ listing w dir_path "*.txt")) w.

End BatchProcessor.

(** ** Notions for the further properties of the fusion *)


(** ** Notions for the further properties of the clustering *)

(** The topic the degrade path of [_identify_topics] gives the fragment at
    global index [i]. *)
Definition fragment_topic (i : nat) (p : KnowledgePoint) : TopicCluster :=
  mkTopicCluster ("topic_" ++ string_of_nat i) (title p)
    (prefix 100 (content p)) [Z.of_nat i] [].

(** ** CrossDocumentClusteringSkill: merged topics, course structure and
    chapters (clustering.py, lines 37-96, 194-354 and 366-386) *)

(** The prompts of the calls of this part and of [generate_transitions],
    with the values their f-strings interpolate. *)
Inductive SkillPrompt : Type :=
  | MergeTopicsPrompt (summaries : list (string * list string * string))
  | CourseStructurePrompt (summaries : list (string * string * nat))
  | TransitionPrompt (prev_title prev_desc curr_title curr_desc : Json.t).

(** [self.llm.generate] of the client the skill is constructed with. *)
Definition Client : Type := SkillPrompt → Q → M string.

Record CourseStructure : Type := mkCourseStructure {
  structure_name : string;
  structure_chapters : Json.t;
  structure_topics : list TopicCluster;
  structure_prerequisites : Json.t
}.

(** The defaults of a merged topic and of a course without a name. *)
Definition merged_topic_title : string := "合并主题".
Definition unnamed_course : string := "未命名课程".

(** [idx < len(topics)]: [TypeError] on a value that is not a number. *)
Definition below (v : Json.t) (n : nat) : Result bool :=
  match v with
  | Json.Int z => Ok (z <? Z.of_nat n)%Z
  | Json.Bool b => Ok ((if b then 1 else 0) <? Z.of_nat n)%Z
  | Json.Float m e =>
      Ok (negb (Qle_bool (inject_Z (Z.of_nat n)) (Json.float_value m e)))
  | Json.NaN => Ok false
  | Json.Infinity negative => Ok negative
  | _ => Raise TypeError
  end.

(** [xs[idx]]: a negative index counts from the end; [IndexError] out of
    range, [TypeError] on an index that is not an integer. *)
Definition item {A} (xs : list A) (v : Json.t) : Result A :=
  result_bind (as_index v) (fun z =>
    let i := if (z <? 0)%Z then (z + Z.of_nat (length xs))%Z else z in
    if (i <? 0)%Z then Raise IndexError
    else
      match xs !! Z.to_nat i with
      | Some x => Ok x
      | None => Raise IndexError
      end).

(** [list(set(xs))] on indices: the order a set lists its elements in is
    not specified; the model takes the order of first occurrence. *)
Fixpoint distinct_indices (xs : list Z) (seen : gset Z) : list Z :=
  match xs with
  | [] => []
  | x :: xs' =>
      if decide (x ∈ seen) then distinct_indices xs' seen
      else x :: distinct_indices xs' ({[x]} ∪ seen)
  end.

(** The loop [for idx in indices] of [_merge_similar_topics]. *)
Fixpoint collect_point_indices (topics : list TopicCluster)
    (indices : list Json.t) (all_point_indices : list Z)
    (used_indices : gset Z) : Result (list Z * gset Z) :=
  match indices with
  | [] => Ok (all_point_indices, used_indices)
  | idx :: indices' =>
      result_bind (below idx (length topics)) (fun inside =>
      if inside then
        result_bind (item topics idx) (fun topic =>
        result_bind (as_index idx) (fun z =>
        collect_point_indices topics indices'
          (all_point_indices ++ point_indices topic)
          ({[z]} ∪ used_indices)))
      else
        collect_point_indices topics indices' all_point_indices used_indices)
  end.

(** One merged topic of the reply; [count] is [len(merged)]. *)
Definition merged_topic_of_json (topics : list TopicCluster) (count : nat)
    (merge_data : Json.t) (used_indices : gset Z)
    : Result (TopicCluster * gset Z) :=
  result_bind (get merge_data "original_indices" (Json.Arr [])) (fun raw =>
  result_bind (iterate raw) (fun indices =>
  result_bind (collect_point_indices topics indices [] used_indices) (fun r =>
  result_bind (get merge_data "id"
                 (Json.Str ("merged_" ++ string_of_nat count))) (fun i =>
  result_bind (as_string i) (fun id =>
  result_bind (get merge_data "title" (Json.Str merged_topic_title)) (fun t =>
  result_bind (as_string t) (fun title =>
  result_bind (get merge_data "description" (Json.Str "")) (fun d =>
  result_bind (as_string d) (fun description =>
  result_bind (get merge_data "keywords" (Json.Arr [])) (fun k =>
  result_bind (iterate k) (fun kitems =>
  result_bind (as_list as_string kitems) (fun kws =>
  Ok (mkTopicCluster id title description (distinct_indices r.1 ∅) kws,
      r.2))))))))))))).

(** The loop over the merged topics of the reply. *)
Fixpoint merged_topics_of_reply (topics : list TopicCluster)
    (items : list Json.t) (merged : list TopicCluster)
    (used_indices : gset Z) : Result (list TopicCluster * gset Z) :=
  match items with
  | [] => Ok (merged, used_indices)
  | merge_data :: items' =>
      result_bind
        (merged_topic_of_json topics (length merged) merge_data used_indices)
        (fun r => merged_topics_of_reply topics items' (merged ++ [r.1]) r.2)
  end.

(** The loop that adds the topics no merged topic has used. *)
Definition unmerged (topics : list TopicCluster) (used_indices : gset Z)
    : list TopicCluster :=
  map snd
    (filter (fun it : nat * TopicCluster => Z.of_nat it.1 ∉ used_indices)
       (imap (fun i t => (i, t)) topics)).

(** The body of the [try] of [_merge_similar_topics] after the reply. *)
Definition merge_reply (topics : list TopicCluster) (reply : string)
    : Result (list TopicCluster) :=
  result_bind (_parse_json_response reply) (fun data =>
  result_bind (get data "merged_topics" (Json.Arr [])) (fun raw =>
  result_bind (iterate raw) (fun items =>
  result_bind (merged_topics_of_reply topics items [] ∅) (fun r =>
  Ok (r.1 ++ unmerged topics r.2))))).

Definition _merge_similar_topics (llm : Client) (topics : list TopicCluster)
    : M (list TopicCluster) :=
  if length topics <=? 5 then ret topics
  else
    try_except
      (reply <- llm (MergeTopicsPrompt
                       (map (fun t => (topic_title t, keywords t,
                                       prefix 100 (topic_description t)))
                          topics))
                  0.2%Q ;;
       lift_result (merge_reply topics reply))
      (fun e => ret topics).

(** One chapter of the degrade path of [_build_course_structure]. *)
Definition fallback_chapter (i : nat) (t : TopicCluster) : Json.t :=
  Json.Obj
    [ ("order", Json.Int (Z.of_nat (i + 1)));
      ("title", Json.Str (topic_title t));
      ("topic_ids", Json.Arr [Json.Str (topic_id t)]);
      ("description", Json.Str (topic_description t));
      ("learning_objectives", Json.Arr []) ].

(** The degrade path: one chapter for each of the first eight topics. *)
Definition fallback_structure (topics : list TopicCluster)
    : CourseStructure :=
  mkCourseStructure unnamed_course
    (Json.Arr (imap fallback_chapter (take 8 topics))) topics (Json.Obj []).

(** The body of the [try] of [_build_course_structure] after the reply.
    The name of a course is typed as a string: a name of another kind is
    treated as a [TypeError]. *)
Definition structure_of_reply (topics : list TopicCluster) (reply : string)
    : Result CourseStructure :=
  result_bind (_parse_json_response reply) (fun data =>
  result_bind (get data "course_name" (Json.Str unnamed_course)) (fun n =>
  result_bind (as_string n) (fun name =>
  result_bind (get data "chapters" (Json.Arr [])) (fun chapters =>
  result_bind (get data "prerequisites" (Json.Obj [])) (fun prerequisites =>
  Ok (mkCourseStructure name chapters topics prerequisites)))))).

Definition _build_course_structure (llm : Client)
    (all_points : list KnowledgePoint) (topics : list TopicCluster)
    : M CourseStructure :=
  try_except
    (reply <- llm (CourseStructurePrompt
                     (map (fun t => (topic_title t,
                                     prefix 80 (topic_description t),
                                     length (point_indices t)))
                        topics))
                0.3%Q ;;
     lift_result (structure_of_reply topics reply))
    (fun e => ret (fallback_structure topics)).

(** [topic.id in topic_ids]: an element of a list, a key of a dictionary, a
    part of a string; [TypeError] on a value that holds nothing. *)
Definition id_in (id : string) (topic_ids : Json.t) : Result bool :=
  match topic_ids with
  | Json.Arr items =>
      Ok (existsb (fun v => match v with
                            | Json.Str s => String.eqb s id
                            | _ => false
                            end) items)
  | Json.Obj pairs => Ok (existsb (fun kv => String.eqb (fst kv) id) pairs)
  | Json.Str s =>
      Ok (contains (list_ascii_of_string id) (list_ascii_of_string s))
  | _ => Raise TypeError
  end.

(** The loop over the topics that fills [chapter_point_indices]. *)
Fixpoint chapter_point_indices (topics : list TopicCluster)
    (topic_ids : Json.t) (found : gset Z) : Result (gset Z) :=
  match topics with
  | [] => Ok found
  | topic :: topics' =>
      result_bind (id_in (topic_id topic) topic_ids) (fun listed =>
      chapter_point_indices topics' topic_ids
        (if listed then list_to_set (point_indices topic) ∪ found
         else found))
  end.

(** [[all_points[i] for i in sorted(found) if 0 <= i < len(all_points)]] *)
Definition points_at {A} (all_points : list A) (found : gset Z) : list A :=
  omap (fun i => all_points !! Z.to_nat i)
    (filter (fun i => (0 ≤ i)%Z ∧ (i < Z.of_nat (length all_points))%Z)
       (merge_sort Z.le (elements found))).

(** A chapter with the two keys [_assign_points_to_chapters] sets in its
    dictionary, kept beside the dictionary. *)
Record AssignedChapter (A : Type) : Type := mkAssignedChapter {
  chapter_data : Json.t;
  chapter_points : list A;
  point_count : nat
}.
Arguments mkAssignedChapter {A} _ _ _.
Arguments chapter_data {A} _.
Arguments chapter_points {A} _.
Arguments point_count {A} _.

Fixpoint assign_chapters {A} (topics : list TopicCluster)
    (all_points : list A) (chapters : list Json.t)
    : Result (list (AssignedChapter A)) :=
  match chapters with
  | [] => Ok []
  | chapter :: chapters' =>
      result_bind (get chapter "topic_ids" (Json.Arr [])) (fun topic_ids =>
      result_bind (chapter_point_indices topics topic_ids ∅) (fun found =>
      let points := points_at all_points found in
      result_bind (assign_chapters topics all_points chapters') (fun rest =>
      Ok (mkAssignedChapter chapter points (length points) :: rest))))
  end.

Definition _assign_points_to_chapters {A} (structure : CourseStructure)
    (all_points : list A) : Result (list (AssignedChapter A)) :=
  result_bind (iterate (structure_chapters structure))
    (assign_chapters (structure_topics structure) all_points).

(** [cluster]: the structure and its chapters with their fragments.  The
    source merges the topics in the last line of [_identify_topics]; here
    [_identify_topics] stops at the list it hands over, and the merge is the
    next step. *)
Definition cluster (llm : Client) (max_points_per_batch : nat)
    (all_points : list KnowledgePoint)
    : M (CourseStructure * list (AssignedChapter KnowledgePoint)) :=
  match all_points with
  | [] => ret (mkCourseStructure unnamed_course (Json.Arr []) [] (Json.Obj []),
               [])
  | _ :: _ =>
      all_topics <- _identify_topics max_points_per_batch all_points ;;
      topics <- _merge_similar_topics llm all_topics ;;
      structure <- _build_course_structure llm all_points topics ;;
      chapters <- lift_result (_assign_points_to_chapters structure all_points) ;;
      ret (structure, chapters)
  end.

(** Whether a topic of the chapter lists the fragment at index [i]. *)
Definition selects (topics : list TopicCluster) (topic_ids : Json.t)
    (i : nat) : bool :=
  existsb (fun topic =>
             match id_in (topic_id topic) topic_ids with
             | Ok true => bool_decide (Z.of_nat i ∈ point_indices topic)
             | _ => false
             end) topics.



(** ** KnowledgeFusionSkill: the transitions between chapters
    (fusion.py, lines 355-423) *)

(** [s.strip(c)] for one character [c]. *)
Fixpoint lstrip_char (c : ascii) (s : list ascii) : list ascii :=
  match s with
  | d :: s' => if Ascii.eqb d c then lstrip_char c s' else s
  | [] => []
  end.

Definition strip_char (c : ascii) (s : list ascii) : list ascii :=
  rev (lstrip_char c (rev (lstrip_char c s))).

(** The three prefixes [_clean_transition] removes are CJK phrases; on a
    text of the model the strips alone act. *)
Definition _clean_transition (text : string) : string :=
  let text := strip_chars (list_ascii_of_string text) in
  let text := strip_char "'"%char (strip_char double_quote text) in
  string_of_list_ascii (strip_chars text).

(** An entry of the dictionary of transitions: the cleaned reply, or the
    sentence of the handler with the title it interpolates. *)
Inductive Transition : Type :=
  | Written (text : string)
  | Announced (title : Json.t).

Definition next_chapter : string := "下一章内容".

(** [value[:200]]: the start of a string or of a list; [TypeError] on a
    value that cannot be sliced (from Python 3.12 on a dictionary raises
    [KeyError] instead). *)
Definition slice_200 (v : Json.t) : Result Json.t :=
  match v with
  | Json.Str s => Ok (Json.Str (prefix 200 s))
  | Json.Arr items => Ok (Json.Arr (take 200 items))
  | _ => Raise TypeError
  end.

(** The sentence of the handler:
    [f"... {curr_ch.get('title', '下一章内容')}。"] *)
Definition announcement (curr_ch : Json.t) : Result Transition :=
  result_bind (get curr_ch "title" (Json.Str next_chapter)) (fun title =>
  Ok (Announced title)).

(** The body of the loop of [generate_transitions] up to the assignment:
    the descriptions and the prompt are built before the [try]. *)
Definition transition_between (llm : Client) (prev_ch curr_ch : Json.t)
    : M Transition :=
  prev_title <- lift_result (get prev_ch "title" (Json.Str "")) ;;
  prev_desc <- lift_result (get prev_ch "description" prev_title) ;;
  curr_title <- lift_result (get curr_ch "title" (Json.Str "")) ;;
  curr_desc <- lift_result (get curr_ch "description" curr_title) ;;
  prev_shown <- lift_result (slice_200 prev_desc) ;;
  curr_shown <- lift_result (slice_200 curr_desc) ;;
  try_except
    (reply <- llm (TransitionPrompt prev_title prev_shown
                     curr_title curr_shown) 0.4%Q ;;
     ret (Written (_clean_transition reply)))
    (fun _ => lift_result (announcement curr_ch)).

(** [transitions[i] = transition] on a dictionary kept in insertion
    order. *)
Fixpoint dict_set {V} (d : list (nat * V)) (k : nat) (v : V)
    : list (nat * V) :=
  match d with
  | [] => [(k, v)]
  | (k', v') :: d' =>
      if k' =? k then (k, v) :: d' else (k', v') :: dict_set d' k v
  end.

(** [for i in range(1, len(chapters)): ...] *)
Fixpoint transitions_loop (llm : Client) (chapters : list Json.t)
    (indices : list nat) (transitions : list (nat * Transition))
    : M (list (nat * Transition)) :=
  match indices with
  | [] => ret transitions
  | i :: indices' =>
      match chapters !! (i - 1), chapters !! i with
      | Some prev_ch, Some curr_ch =>
          transition <- transition_between llm prev_ch curr_ch ;;
          transitions_loop llm chapters indices'
            (dict_set transitions i transition)
      | _, _ => raise IndexError
      end
  end.

Definition generate_transitions (llm : Client) (chapters : list Json.t)
    : M (list (nat * Transition)) :=
  if length chapters <? 2 then ret []
  else transitions_loop llm chapters (seq 1 (length chapters - 1)) [].

(** The description the prompt shows for a chapter: its description, or its
    title when it has none, cut to 200 characters. *)
Definition shown_description (ch : Json.t) : Result Json.t :=
  result_bind (get ch "title" (Json.Str "")) (fun title =>
  result_bind (get ch "description" title) slice_200).

(** A chapter the prompt can be built for. *)
Definition describable (ch : Json.t) : bool :=
  match shown_description ch with
  | Ok _ => true
  | Raise _ => false
  end.

(** The value of a result that is there. *)
Definition value_or {A} (default : A) (r : Result A) : A :=
  match r with
  | Ok a => a
  | Raise _ => default
  end.

(** The prompt for the boundary between two chapters that can be
    described. *)
Definition boundary_prompt (prev_ch curr_ch : Json.t) : SkillPrompt :=
  TransitionPrompt
    (value_or Json.Null (get prev_ch "title" (Json.Str "")))
    (value_or Json.Null (shown_description prev_ch))
    (value_or Json.Null (get curr_ch "title" (Json.Str "")))
    (value_or Json.Null (shown_description curr_ch)).

(** The entry of a boundary: the cleaned reply of its call, or the
    announcement of the chapter it leads to when the call fails. *)
Definition boundary_entry (curr_ch : Json.t) (outcome : Result string)
    : Transition :=
  match outcome with
  | Ok reply => Written (_clean_transition reply)
  | Raise _ =>
      Announced
        (value_or Json.Null (get curr_ch "title" (Json.Str next_chapter)))
  end.

(** The transitions in the words of the docstring: one call for each
    boundary between two chapters, in the order of the chapters, and under
    the number of the boundary the entry made from the outcome of that
    call. *)
Fixpoint boundary_transitions (llm : Client) (i : nat) (prev_ch : Json.t)
    (rest : list Json.t) (w : World) : list (nat * Transition) * World :=
  match rest with
  | [] => ([], w)
  | curr_ch :: rest' =>
      let '(outcome, w1) := llm (boundary_prompt prev_ch curr_ch) 0.4%Q w in
      let '(entries, w2) := boundary_transitions llm (S i) curr_ch rest' w1 in
      ((i, boundary_entry curr_ch outcome) :: entries, w2)
  end.

(* ===================================================================== *)
(** * Part II: properties *)
(* ===================================================================== *)

(** ** ProgressTracker *)

Lemma has_path_true_iff path rows :
  Ledger.has_path path rows = true ↔ path ∈ map Ledger.row_path rows.
Proof.
  unfold Ledger.has_path. rewrite existsb_exists, list_elem_of_fmap.
  split.
  - intros (r & Hin & Heq). apply String.eqb_eq in Heq.
    exists r. split; [done | by apply list_elem_of_In].
  - intros (r & -> & Hin). exists r.
    split; [by apply list_elem_of_In | apply String.eqb_refl].
Qed.

Lemma find_path_app_new path rows r :
  Ledger.has_path path rows = false →
  Ledger.row_path r = path →
  find (fun r => String.eqb (Ledger.row_path r) path) (rows ++ [r]) = Some r.
Proof.
  intros Hno Hr. induction rows as [|x rows IH]; simpl in *.
  - rewrite Hr, String.eqb_refl. done.
  - apply orb_false_iff in Hno as [Hx Hrest]. rewrite Hx. by apply IH.
Qed.

Lemma rows_of_absent path rows :
  Ledger.has_path path rows = false →
  filter (fun r => Ledger.row_path r = path) rows = [].
Proof.
  induction rows as [|x rows IH]; simpl; [done|].
  intros [Hx Hrest]%orb_false_iff.
  rewrite filter_cons. destruct (decide (Ledger.row_path x = path)) as [Heq|_].
  - apply String.eqb_neq in Hx. done.
  - by apply IH.
Qed.

Lemma rows_of_unique path rows :
  NoDup (map Ledger.row_path rows) →
  Ledger.has_path path rows = true →
  length (filter (fun r => Ledger.row_path r = path) rows) = 1.
Proof.
  induction rows as [|x rows IH]; simpl; [done|].
  intros Hnd Hhas. apply NoDup_cons in Hnd as [Hx Hnd].
  rewrite filter_cons. destruct (decide (Ledger.row_path x = path)) as [Heq|Hne].
  - subst path. simpl. f_equal.
    rewrite rows_of_absent; [done|].
    destruct (Ledger.has_path (Ledger.row_path x) rows) eqn:E; [|done].
    apply has_path_true_iff in E. done.
  - apply IH; [done|].
    apply orb_true_iff in Hhas as [Hhas|Hhas]; [|done].
    apply String.eqb_eq in Hhas. done.
Qed.

(** C9.  [add_document] is idempotent: a second call with the same path
    inserts nothing (the ledger is unchanged), returns the id the first call
    returned, and the table holds exactly one row for the path. *)
Theorem add_document_idempotent (path : string) (l : Ledger.t) :
  Ledger.unique_paths l →
  let '(id1, l1) := Ledger.add_document path l in
  let '(id2, l2) := Ledger.add_document path l1 in
  id2 = id1 ∧ l2 = l1 ∧ length (Ledger.rows_of path l2) = 1.
Proof.
  intros Huniq. unfold Ledger.add_document, Ledger.insert_or_ignore.
  destruct (Ledger.has_path path (Ledger.documents l)) eqn:Hhas.
  - simpl. rewrite Hhas. simpl. split; [done|]. split; [done|].
    by apply rows_of_unique.
  - simpl.
    assert (Hnew : Ledger.has_path path
              (Ledger.documents l ++
               [Ledger.mkDocumentRow (Ledger.next_rowid (Ledger.documents l))
                  path "pending" None None]) = true).
    { unfold Ledger.has_path. rewrite existsb_app. simpl.
      rewrite String.eqb_refl. apply orb_true_iff. right. done. }
    rewrite Hnew. simpl. unfold Ledger._get_doc_id. simpl.
    rewrite find_path_app_new by done. simpl.
    split; [done|]. split; [done|].
    unfold Ledger.rows_of. simpl. rewrite filter_app.
    rewrite rows_of_absent by done. simpl.
    rewrite filter_cons. simpl. destruct (decide (path = path)); done.
Qed.

Lemma add_document_idempotent_witness :
  Ledger.unique_paths Ledger.empty ∧
  let '(id1, l1) := Ledger.add_document "lecture1.srt" Ledger.empty in
  let '(id2, l2) := Ledger.add_document "lecture1.srt" l1 in
  id2 = id1 ∧ l2 = l1 ∧ length (Ledger.rows_of "lecture1.srt" l2) = 1.
Proof.
  split.
  - apply NoDup_nil_2.
  - apply (add_document_idempotent "lecture1.srt" Ledger.empty).
    apply NoDup_nil_2.
Defined.

(** ** Prefilter *)

Lemma filter_ext_elem {A} (P Q : A → Prop) `{!∀ x, Decision (P x)}
    `{!∀ x, Decision (Q x)} (l : list A) :
  (∀ x, x ∈ l → (P x ↔ Q x)) → filter P l = filter Q l.
Proof.
  induction l as [|x l IH]; intros Hext; [done|].
  rewrite !filter_cons.
  assert (Hx : P x ↔ Q x) by (apply Hext; left).
  assert (Hl : filter P l = filter Q l).
  { apply IH. intros y Hy. apply Hext. by right. }
  destruct (decide (P x)), (decide (Q x)); try tauto; by rewrite Hl.
Qed.

Lemma mark_all_length js : ∀ visited, length (mark_all visited js) = length visited.
Proof.
  induction js as [|j js IH]; intros visited; simpl; [done|].
  unfold mark_all in *. simpl. rewrite IH. apply length_insert.
Qed.

Lemma mark_all_lookup js : ∀ visited k,
  k < length visited →
  mark_all visited js !! k =
    if decide (k ∈ js) then Some true else visited !! k.
Proof.
  induction js as [|j js IH]; intros visited k Hk.
  - simpl. destruct (decide (k ∈ [])) as [Hin|_]; [|done]. by inversion Hin.
  - unfold mark_all in *. simpl. rewrite IH by (by rewrite length_insert).
    destruct (decide (k ∈ js)) as [Hin|Hnin].
    + rewrite decide_True; [done | by right].
    + destruct (decide (k = j)) as [->|Hne].
      * rewrite decide_True by left. by apply list_lookup_insert_eq.
      * rewrite decide_False.
        -- by apply list_lookup_insert_ne.
        -- intros Hin. apply elem_of_cons in Hin. tauto.
Qed.

Lemma collect_group_filter threshold row js : ∀ visited group,
  NoDup js →
  collect_group threshold row js visited group =
    (group ++ filter (fun j => is_candidate threshold row visited j = true) js,
     mark_all visited
       (filter (fun j => is_candidate threshold row visited j = true) js)).
Proof.
  induction js as [|j js IH]; intros visited group Hnd.
  - simpl. by rewrite app_nil_r.
  - apply NoDup_cons in Hnd as [Hj Hnd]. simpl. rewrite filter_cons.
    assert (Hsame : ∀ x, x ∈ js →
      is_candidate threshold row (<[j:=true]> visited) x = true ↔
      is_candidate threshold row visited x = true).
    { intros x Hx. unfold is_candidate.
      rewrite list_lookup_insert_ne; [done|]. intros ->. done. }
    destruct (is_candidate threshold row visited j) eqn:Hc.
    + rewrite decide_True by done. rewrite IH by done.
      rewrite (filter_ext_elem _ _ js Hsame).
      by rewrite <- app_assoc.
    + rewrite decide_False by done. by apply IH.
Qed.

Lemma similarity_matrix_row points i :
  i < length points →
  similarity_matrix points !! i =
    Some (map (fun j => similarity_entry points i j) (seq 0 (length points))).
Proof.
  intros Hi. unfold similarity_matrix.
  change (map ?f ?l !! i) with ((f <$> l) !! i).
  rewrite list_lookup_fmap, lookup_seq_lt by done. done.
Qed.

Lemma similarity_entry_above points i j :
  i < j → j < length points →
  similarity_entry points i j = pair_similarity points i j.
Proof.
  intros Hij Hj. unfold similarity_entry, pair_similarity.
  rewrite Nat.min_l, Nat.max_r by lia.
  destruct (points !! i); [|done]. destruct (points !! j); [|done].
  destruct (i =? j) eqn:E; [|done]. apply Nat.eqb_eq in E. lia.
Qed.

Lemma sweep_greedy threshold points rows : ∀ visited V groups,
  represents (length points) visited V →
  (∀ i, i ∈ rows → i < length points) →
  sweep threshold (similarity_matrix points) (length points) rows visited groups
  = groups ++ greedy_sweep threshold (pair_similarity points)
                (length points) rows V.
Proof.
  set (n := length points).
  induction rows as [|i rows IH]; intros visited V groups [Hlen Hrep] Hrows.
  - simpl. by rewrite app_nil_r.
  - assert (Hi : i < n) by (apply Hrows; left).
    assert (Hrows' : ∀ k, k ∈ rows → k < n) by (intros k Hk; apply Hrows; by right).
    simpl. rewrite (Hrep i Hi). simpl.
    destruct (decide (i ∈ V)) as [HiV|HiV].
    + rewrite bool_decide_eq_true_2 by done. by apply IH.
    + rewrite bool_decide_eq_false_2 by done.
      rewrite similarity_matrix_row by done. simpl.
      rewrite collect_group_filter by apply NoDup_seq.
      set (members := filter _ (seq (i + 1) (n - (i + 1)))).
      set (members' := filter _ (seq (i + 1) (n - (i + 1)))).
      assert (Hmem : members = members').
      { apply filter_ext_elem. intros j Hj. apply elem_of_seq in Hj.
        unfold is_candidate. rewrite list_lookup_insert_ne by lia.
        rewrite (Hrep j) by lia. simpl.
        change (map ?f ?l !! j) with ((f <$> l) !! j).
        rewrite list_lookup_fmap, lookup_seq_lt by lia. simpl.
        rewrite similarity_entry_above by (unfold n in *; lia).
        rewrite andb_true_iff, negb_true_iff, bool_decide_eq_false. done. }
      rewrite <- Hmem.
      rewrite (IH _ ((V ∪ {[i]}) ∪ list_to_set members)); [| |done].
      * simpl. destruct (decide (members = [])) as [->|Hne]; simpl; [done|].
        destruct members as [|m ms]; [done|]. simpl.
        by rewrite <- app_assoc.
      * split.
        -- by rewrite mark_all_length, length_insert.
        -- intros j Hj. rewrite mark_all_lookup by (rewrite length_insert; lia).
           destruct (decide (j ∈ members)) as [Hin|Hnin].
           ++ rewrite bool_decide_eq_true_2; [done|]. set_solver.
           ++ destruct (decide (j = i)) as [->|Hne].
              ** rewrite list_lookup_insert_eq by lia.
                 rewrite bool_decide_eq_true_2; [done|]. set_solver.
              ** rewrite list_lookup_insert_ne by done. rewrite (Hrep j Hj).
                 f_equal. apply bool_decide_ext. set_solver.
Qed.


Lemma greedy_sweep_sizes threshold sim n rows : ∀ V,
  Forall (fun g : list nat => 2 ≤ length g) (greedy_sweep threshold sim n rows V).
Proof.
  induction rows as [|i rows IH]; intros V; simpl; [constructor|].
  destruct (decide (i ∈ V)); [apply IH|].
  destruct (decide (filter _ _ = [])) as [|Hne]; [apply IH|].
  constructor; [|apply IH].
  destruct (filter _ _); [done|]. simpl. lia.
Qed.

(** The greedy sweep never reads the similarity of a pair [(i, j)] with
    [j <= i]: the groups depend on the threshold, on the number of fragments
    and on the similarities of the pairs [i < j] in input order only. *)
Lemma greedy_sweep_upper threshold sim n rows : ∀ V,
  greedy_sweep threshold sim n rows V =
  greedy_sweep threshold (fun i j => if i <? j then sim i j else 0%Q) n rows V.
Proof.
  induction rows as [|i rows IH]; intros V; simpl; [done|].
  destruct (decide (i ∈ V)); [apply IH|].
  assert (Hf : filter (fun j => (j ∉ V) ∧ Qle_bool threshold (sim i j) = true)
                 (seq (i + 1) (n - (i + 1))) =
               filter (fun j => (j ∉ V) ∧
                   Qle_bool threshold (if i <? j then sim i j else 0%Q) = true)
                 (seq (i + 1) (n - (i + 1)))).
  { apply filter_ext_elem. intros j Hj. apply elem_of_seq in Hj.
    assert (E : (i <? j) = true) by (apply Nat.ltb_lt; lia).
    by rewrite E. }
  rewrite <- Hf. by rewrite IH.
Qed.

(** C6.  The prefilter is the single greedy sweep of the specification:
    in increasing order every unvisited index [i] collects all unvisited
    [j > i] with [similarity(i,j) >= threshold] (default 0.75) into one group
    and marks them visited; groups of one index are discarded; the result is
    a function of the threshold and of the similarities of the pairs [i < j]
    in input order, so two runs on the same list give the same groups. *)
Theorem find_similar_candidates_greedy (threshold : Q)
    (points : list KnowledgePoint) :
  _find_similar_candidates threshold points
    = greedy_groups threshold (pair_similarity points) (length points)
  ∧ _find_similar_candidates threshold points
    = greedy_groups threshold
        (fun i j => if i <? j then pair_similarity points i j else 0%Q)
        (length points)
  ∧ Forall (fun g : list nat => 2 ≤ length g)
      (_find_similar_candidates threshold points)
  ∧ (default_similarity_threshold == 3 # 4)%Q.
Proof.
  assert (E : _find_similar_candidates threshold points
    = greedy_groups threshold (pair_similarity points) (length points)).
  { unfold _find_similar_candidates, greedy_groups.
    rewrite (sweep_greedy threshold points _ _ ∅); [done| |].
    - split; [by rewrite length_replicate|].
      intros j Hj. rewrite lookup_replicate_2 by done.
      by rewrite bool_decide_eq_false_2 by set_solver.
    - intros i Hi. apply elem_of_seq in Hi. lia. }
  split; [done|]. split; [|split].
  - rewrite E. apply greedy_sweep_upper.
  - rewrite E. apply greedy_sweep_sizes.
  - reflexivity.
Qed.

Example prefilter_bdd_points :
  _find_similar_candidates default_similarity_threshold
    [ mkKnowledgePoint "Derivative" "Rate of change" [] "file1.srt" 3;
      mkKnowledgePoint "Derivatives" "Rate of changes" [] "file2.srt" 3;
      mkKnowledgePoint "Limit" "Approaching values" [] "file3.srt" 3 ]
  = [[0; 1]].
Proof. vm_compute. reflexivity. Qed.


(** ** SequenceMatcher: every block lies inside the searched ranges *)

Lemma scan_row_within alo ahi blo bhi i j2len js : ∀ best newj2len,
  alo ≤ i → i < ahi →
  lengths_bounded alo blo i j2len →
  within alo ahi blo bhi best →
  lengths_bounded alo blo (S i) newj2len →
  within alo ahi blo bhi
    (Difflib.scan_row i blo bhi j2len js best newj2len).1 ∧
  lengths_bounded alo blo (S i)
    (Difflib.scan_row i blo bhi j2len js best newj2len).2.
Proof.
  induction js as [|j js IH]; intros best newj2len Hlo Hhi Hprev Hbest Hnew;
    simpl; [done|].
  destruct (j <? blo) eqn:Eblo; [by apply IH|].
  destruct (bhi <=? j) eqn:Ebhi; [done|].
  apply Nat.ltb_ge in Eblo. apply Nat.leb_gt in Ebhi.
  set (k := S (match j with 0 => 0 | S j' => default 0 (j2len !! j') end)).
  assert (Hk : k + alo ≤ S i ∧ k + blo ≤ j + 1).
  { unfold k. destruct j as [|j']; [lia|].
    destruct (j2len !! j') as [v|] eqn:Ev; simpl; [|lia].
    destruct (Hprev _ _ Ev). lia. }
  apply IH; try done.
  - destruct (Difflib.m_size best <? k); [|done].
    unfold within. simpl. lia.
  - intros j0 v. rewrite lookup_insert.
    destruct (decide (j = j0)) as [->|_]; [|by apply Hnew].
    intros [= <-]. lia.
Qed.

Lemma scan_rows_within a b alo ahi blo bhi cnt : ∀ i best j2len,
  alo ≤ i → i + cnt ≤ ahi →
  lengths_bounded alo blo i j2len →
  within alo ahi blo bhi best →
  within alo ahi blo bhi
    (Difflib.scan_rows a b blo bhi (seq i cnt) best j2len).
Proof.
  induction cnt as [|cnt IH]; intros i best j2len Hlo Hhi Hprev Hbest;
    simpl; [done|].
  destruct (a !! i) as [x|]; [|done].
  destruct (Difflib.scan_row i blo bhi j2len (Difflib.b2j b x) best ∅)
    as [best' new] eqn:E.
  assert (Hempty : lengths_bounded alo blo (S i) ∅).
  { intros j v. by rewrite lookup_empty. }
  assert (Hi : i < ahi) by lia.
  pose proof (scan_row_within alo ahi blo bhi i j2len (Difflib.b2j b x)
                best ∅ Hlo Hi Hprev Hbest Hempty) as [Hb Hn].
  rewrite E in Hb, Hn. simpl in Hb, Hn.
  apply IH; try done; lia.
Qed.

Lemma extend_left_within cond a b alo ahi blo bhi : ∀ besti bestj bestsize,
  within alo ahi blo bhi (Difflib.mkMatch besti bestj bestsize) →
  within alo ahi blo bhi
    (Difflib.extend_left cond a b alo blo besti bestj bestsize).
Proof.
  induction besti as [|i' IH]; intros bestj bestsize Hw; simpl; [done|].
  destruct bestj as [|j']; [done|].
  destruct ((alo <? S i') && (blo <? S j')) eqn:E; [|done].
  apply andb_true_iff in E as [E1 E2].
  apply Nat.ltb_lt in E1. apply Nat.ltb_lt in E2.
  destruct (a !! i'); [|done]. destruct (b !! j'); [|done].
  destruct (cond _ && _); [|done].
  apply IH. unfold within in *. simpl in *. lia.
Qed.

Lemma extend_right_within cond a b alo ahi blo bhi n : ∀ besti bestj bestsize,
  within alo ahi blo bhi (Difflib.mkMatch besti bestj bestsize) →
  within alo ahi blo bhi
    (Difflib.extend_right n cond a b ahi bhi besti bestj bestsize).
Proof.
  induction n as [|n IH]; intros besti bestj bestsize Hw; simpl; [done|].
  destruct ((besti + bestsize <? ahi) && (bestj + bestsize <? bhi)) eqn:E;
    [|done].
  apply andb_true_iff in E as [E1 E2].
  apply Nat.ltb_lt in E1. apply Nat.ltb_lt in E2.
  destruct (a !! _); [|done]. destruct (b !! _); [|done].
  destruct (cond _ && _); [|done].
  apply IH. unfold within in *. simpl in *. lia.
Qed.

Lemma match_eta (m : Difflib.Match) :
  Difflib.mkMatch (Difflib.m_a m) (Difflib.m_b m) (Difflib.m_size m) = m.
Proof. by destruct m. Qed.

Lemma find_longest_match_within a b alo ahi blo bhi :
  alo ≤ ahi → blo ≤ bhi →
  within alo ahi blo bhi (Difflib.find_longest_match a b alo ahi blo bhi).
Proof.
  intros Ha Hb. unfold Difflib.find_longest_match.
  apply extend_right_within. rewrite match_eta.
  apply extend_left_within. rewrite match_eta.
  apply extend_right_within. rewrite match_eta.
  apply extend_left_within. rewrite match_eta.
  apply scan_rows_within; try lia.
  - intros j v. by rewrite lookup_empty.
  - unfold within. simpl. lia.
Qed.


Lemma total_size_snoc blocks x :
  total_size (blocks ++ [x]) = total_size blocks + Difflib.m_size x.
Proof.
  unfold total_size. induction blocks as [|y blocks IH]; simpl; [lia|].
  rewrite IH. lia.
Qed.

Lemma matching_loop_step_queue a b alo ahi blo bhi rest :
  range_ok (alo, ahi, blo, bhi) → Forall range_ok rest →
  let x := Difflib.find_longest_match a b alo ahi blo bhi in
  let left := if (alo <? Difflib.m_a x) && (blo <? Difflib.m_b x)
              then [(alo, Difflib.m_a x, blo, Difflib.m_b x)] else [] in
  let right :=
    if (Difflib.m_a x + Difflib.m_size x <? ahi)
       && (Difflib.m_b x + Difflib.m_size x <? bhi)
    then [(Difflib.m_a x + Difflib.m_size x, ahi,
           Difflib.m_b x + Difflib.m_size x, bhi)] else [] in
  Forall range_ok (right ++ left ++ rest) ∧
  Difflib.m_size x + sum_over range_capacity (right ++ left ++ rest)
    ≤ sum_over range_capacity ((alo, ahi, blo, bhi) :: rest) ∧
  (Difflib.m_size x ≠ 0 →
   sum_over range_work (right ++ left ++ rest)
    < sum_over range_work ((alo, ahi, blo, bhi) :: rest)).
Proof.
  intros [Ha Hb] Hrest x left right.
  pose proof (find_longest_match_within a b alo ahi blo bhi Ha Hb) as Hw.
  fold x in Hw. destruct Hw as (H1 & H2 & H3 & H4).
  unfold left, right.
  destruct ((alo <? Difflib.m_a x) && (blo <? Difflib.m_b x)) eqn:El;
  destruct ((Difflib.m_a x + Difflib.m_size x <? ahi)
            && (Difflib.m_b x + Difflib.m_size x <? bhi)) eqn:Er;
  rewrite ?andb_true_iff, ?Nat.ltb_lt in El, Er;
  unfold sum_over; simpl;
  (split; [repeat (constructor; [simpl; lia|]); done | split; [lia|intros; lia]]).
Qed.

Lemma matching_loop_nil fuel a b blocks :
  Difflib.matching_loop fuel a b [] blocks = blocks.
Proof. by destruct fuel. Qed.

(** The matched elements never outnumber what the ranges can hold. *)
Lemma matching_loop_total a b fuel : ∀ queue blocks,
  Forall range_ok queue →
  total_size (Difflib.matching_loop fuel a b queue blocks)
    ≤ total_size blocks + sum_over range_capacity queue.
Proof.
  induction fuel as [|fuel IH]; intros queue blocks Hok; simpl; [lia|].
  destruct queue as [|[[[alo ahi] blo] bhi] rest]; [lia|].
  apply Forall_cons in Hok as [Hr Hrest].
  pose proof (matching_loop_step_queue a b alo ahi blo bhi rest Hr Hrest)
    as (Hok' & Hcap & _).
  destruct (Difflib.m_size _ =? 0) eqn:Ek.
  - etrans; [apply IH; done|]. unfold sum_over. simpl. lia.
  - etrans; [apply IH; done|]. rewrite total_size_snoc.
    unfold sum_over in *. simpl in *. lia.
Qed.

(** [2 * len(a) + 1] passes are enough: more fuel changes nothing. *)
Lemma matching_loop_enough_fuel a b f1 : ∀ f2 queue blocks,
  Forall range_ok queue →
  sum_over range_work queue ≤ f1 → sum_over range_work queue ≤ f2 →
  Difflib.matching_loop f1 a b queue blocks
  = Difflib.matching_loop f2 a b queue blocks.
Proof.
  induction f1 as [|f1 IH]; intros f2 queue blocks Hok H1 H2.
  - destruct queue as [|[[[alo ahi] blo] bhi] rest].
    + by destruct f2.
    + unfold sum_over in H1. simpl in H1. lia.
  - destruct f2 as [|f2].
    + destruct queue as [|[[[alo ahi] blo] bhi] rest]; [done|].
      unfold sum_over in H2. simpl in H2. lia.
    + simpl. destruct queue as [|[[[alo ahi] blo] bhi] rest]; [done|].
      apply Forall_cons in Hok as [Hr Hrest].
      pose proof (matching_loop_step_queue a b alo ahi blo bhi rest Hr Hrest)
        as (Hok' & _ & Hwork).
      destruct (Difflib.m_size _ =? 0) eqn:Ek.
      * apply IH; [done| |]; unfold sum_over in *; simpl in *; lia.
      * apply Nat.eqb_neq in Ek. specialize (Hwork Ek).
        apply IH; [done| |]; unfold sum_over in *; simpl in *; lia.
Qed.

Lemma matches_le a b :
  Difflib.matches a b ≤ Nat.min (length a) (length b).
Proof.
  unfold Difflib.matches, Difflib.get_matching_blocks.
  etrans; [apply (matching_loop_total a b)|].
  - constructor; [simpl; lia | constructor].
  - unfold total_size, sum_over. simpl. lia.
Qed.

Lemma ratio_bounds a b : (0 <= Difflib.ratio a b <= 1)%Q.
Proof.
  unfold Difflib.ratio, Difflib._calculate_ratio.
  set (a' := list_ascii_of_string a). set (b' := list_ascii_of_string b).
  pose proof (matches_le a' b') as Hm.
  destruct (length a' + length b' =? 0) eqn:E; [split; discriminate|].
  apply Nat.eqb_neq in E.
  assert (Hpos : (0 < inject_Z (Z.of_nat (length a' + length b')))%Q).
  { change 0%Q with (inject_Z 0). rewrite <- Zlt_Qlt. lia. }
  split.
  - apply Qle_shift_div_l; [done|]. rewrite Qmult_0_l.
    change 0%Q with (inject_Z 0). rewrite <- Zle_Qle. lia.
  - apply Qle_shift_div_r; [done|]. rewrite Qmult_1_l.
    rewrite <- Zle_Qle. lia.
Qed.


(** ** SequenceMatcher: a sequence matches itself completely *)

Lemma elem_of_indices_from x b : ∀ s j,
  j ∈ Difflib.indices_from x b s ↔ s ≤ j ∧ b !! (j - s) = Some x.
Proof.
  induction b as [|y b IH]; intros s j; simpl.
  - split; [by intros H%elem_of_nil | by intros [_ H]].
  - assert (Htail : j ∈ Difflib.indices_from x b (S s) ↔
                    s < j ∧ b !! (j - S s) = Some x).
    { rewrite IH. done. }
    assert (Hcases : s ≤ j ∧ (y :: b) !! (j - s) = Some x ↔
              (j = s ∧ y = x) ∨ (s < j ∧ b !! (j - S s) = Some x)).
    { split.
      - intros [Hle Hl]. destruct (decide (j = s)) as [->|Hne].
        + left. rewrite Nat.sub_diag in Hl. simpl in Hl. by inversion Hl.
        + right. split; [lia|].
          replace (j - s) with (S (j - S s)) in Hl by lia. done.
      - intros [[-> ->]|[Hlt Hl]].
        + split; [done|]. by rewrite Nat.sub_diag.
        + split; [lia|]. replace (j - s) with (S (j - S s)) by lia. done. }
    rewrite Hcases. destruct (Ascii.eqb y x) eqn:E.
    + apply Ascii.eqb_eq in E. rewrite elem_of_cons, Htail. tauto.
    + apply Ascii.eqb_neq in E. rewrite Htail. tauto.
Qed.

Lemma indices_from_increasing x b : ∀ s,
  increasing (Difflib.indices_from x b s).
Proof.
  induction b as [|y b IH]; intros s; simpl; [done|].
  destruct (Ascii.eqb y x); [|apply IH].
  split; [|apply IH]. apply Forall_forall. intros j Hj.
  apply elem_of_indices_from in Hj. lia.
Qed.

Section Reflexive.
Variable a : list ascii.

Lemma run_unfold i x :
  a !! i = Some x → Difflib.popular a x = false →
  run a i = S (match i with 0 => 0 | S i' => run a i' end).
Proof. intros Hx Hp. destruct i; simpl; by rewrite Hx, Hp. Qed.

Lemma scan_row_diagonal i x j2len js : ∀ best new,
  a !! i = Some x → Difflib.popular a x = false →
  prev_ok a i j2len →
  increasing js →
  (∀ j, j ∈ js → a !! j = Some x) →
  best_ok a i best →
  (∀ j v, new !! j = Some v → v ≤ run a i ∧ v ≤ run a j) →
  (i ∈ js ∨ (run a i ≤ Difflib.m_size best ∧ new !! i = Some (run a i))) →
  best_ok a (S i) (Difflib.scan_row i 0 (length a) j2len js best new).1 ∧
  prev_ok a (S i) (Difflib.scan_row i 0 (length a) j2len js best new).2.
Proof.
  intros best new Hx Hp [Hprev Hdiag].
  revert best new.
  induction js as [|j js IH]; intros best new Hinc Hjs [Hbd Hbs] Hnew Hdone.
  - simpl. destruct Hdone as [Hin|[Hsz Hi]]; [by apply elem_of_nil in Hin|].
    split; [split; [done|] | split].
    + intros i' Hi'. destruct (decide (i' = i)) as [->|]; [done|].
      apply Hbs. lia.
    + intros j v Hv. exists i. destruct (Hnew j v Hv). done.
    + intros i' [= <-]. by rewrite Hi.
  - simpl. destruct Hinc as [Hlt Hinc].
    assert (Hj : a !! j = Some x) by (apply Hjs; left).
    assert (Hjlt : j < length a) by (by eapply lookup_lt_Some).
    destruct (length a <=? j) eqn:E; [apply Nat.leb_le in E; lia|].
    set (k := S (match j with 0 => 0 | S j' => default 0 (j2len !! j') end)).
    assert (Hk : k ≤ run a i ∧ k ≤ run a j ∧ (j = i → k = run a i)).
    { rewrite (run_unfold i x), (run_unfold j x) by done. unfold k.
      destruct j as [|j'].
      - simpl. split; [lia|]. split; [lia|]. by intros <-.
      - destruct (j2len !! j') as [v|] eqn:Ev; simpl.
        + destruct (Hprev _ _ Ev) as (i' & -> & Hv1 & Hv2).
          split; [lia|]. split; [lia|]. intros [= ->].
          specialize (Hdiag i' eq_refl). rewrite Ev in Hdiag.
          simpl in Hdiag. lia.
        + split; [lia|]. split; [lia|]. intros <-.
          specialize (Hdiag j' eq_refl). rewrite Ev in Hdiag.
          simpl in Hdiag. lia. }
    destruct Hk as (Hki & Hkj & Hkd).
    assert (Hoff : j ≠ i → k ≤ Difflib.m_size best).
    { intros Hne. destruct (decide (j < i)) as [Hlo|Hhi].
      - etrans; [apply Hkj|]. by apply Hbs.
      - destruct Hdone as [Hin|[Hsz _]]; [|lia].
        apply elem_of_cons in Hin as [->|Hin]; [done|].
        rewrite Forall_forall in Hlt. specialize (Hlt _ Hin). lia. }
    apply IH; try done.
    + intros j0 Hj0. apply Hjs. by right.
    + destruct (Difflib.m_size best <? k) eqn:Ek; [|done].
      apply Nat.ltb_lt in Ek.
      destruct (decide (j = i)) as [->|Hne]; [|specialize (Hoff Hne); lia].
      split; [done|]. simpl. intros i' Hi'. specialize (Hbs i' Hi'). lia.
    + intros j0 v. rewrite lookup_insert.
      destruct (decide (j = j0)) as [<-|_]; [|by apply Hnew].
      intros [= <-]. done.
    + destruct (decide (j = i)) as [->|Hne].
      * right. rewrite lookup_insert_eq. rewrite (Hkd eq_refl).
        split; [|done].
        destruct (Difflib.m_size best <? run a i) eqn:Ek; simpl; [done|].
        by apply Nat.ltb_ge in Ek.
      * destruct Hdone as [Hin|[Hsz Hi]].
        -- apply elem_of_cons in Hin as [->|Hin]; [done|]. by left.
        -- right. rewrite lookup_insert_ne by done. split; [|done].
           destruct (Difflib.m_size best <? k) eqn:Ek; [|done].
           apply Nat.ltb_lt in Ek. simpl. lia.
Qed.

Lemma scan_rows_diagonal cnt : ∀ i best j2len,
  i + cnt ≤ length a →
  prev_ok a i j2len → best_ok a i best →
  Difflib.m_a (Difflib.scan_rows a a 0 (length a) (seq i cnt) best j2len)
  = Difflib.m_b (Difflib.scan_rows a a 0 (length a) (seq i cnt) best j2len).
Proof.
  induction cnt as [|cnt IH]; intros i best j2len Hlen Hprev Hbest; simpl.
  - by destruct Hbest.
  - destruct (a !! i) as [x|] eqn:Hx; [|by destruct Hbest].
    destruct (Difflib.scan_row i 0 (length a) j2len (Difflib.b2j a x) best ∅)
      as [best' new] eqn:E.
    assert (Hnext : best_ok a (S i) best' ∧ prev_ok a (S i) new).
    { unfold Difflib.b2j in E.
      destruct (Difflib.popular a x) eqn:Hp.
      - simpl in E. inversion E; subst best' new.
        assert (Hrun : run a i = 0) by (destruct i; simpl; by rewrite Hx, Hp).
        destruct Hbest as [Hd Hs]. split; [split; [done|] | split].
        + intros i' Hi'. destruct (decide (i' = i)) as [->|]; [lia|].
          apply Hs. lia.
        + intros j v. by rewrite lookup_empty.
        + intros i' [= <-]. by rewrite lookup_empty, Hrun.
      - replace best' with
          (Difflib.scan_row i 0 (length a) j2len
             (Difflib.indices_from x a 0) best ∅).1 by (by rewrite E).
        replace new with
          (Difflib.scan_row i 0 (length a) j2len
             (Difflib.indices_from x a 0) best ∅).2 by (by rewrite E).
        assert (Hinc : increasing (Difflib.indices_from x a 0))
          by apply indices_from_increasing.
        assert (Hjs : ∀ j, j ∈ Difflib.indices_from x a 0 → a !! j = Some x).
        { intros j Hj. apply elem_of_indices_from in Hj as [_ Hj].
          by rewrite Nat.sub_0_r in Hj. }
        assert (Hnew : ∀ j v, (∅ : gmap nat nat) !! j = Some v →
                         v ≤ run a i ∧ v ≤ run a j).
        { intros j v. by rewrite lookup_empty. }
        assert (Hdone : i ∈ Difflib.indices_from x a 0 ∨
                  (run a i ≤ Difflib.m_size best ∧
                   (∅ : gmap nat nat) !! i = Some (run a i))).
        { left. apply elem_of_indices_from.
          split; [lia | by rewrite Nat.sub_0_r]. }
        exact (scan_row_diagonal i x j2len _ best ∅ Hx Hp Hprev Hinc Hjs
                 Hbest Hnew Hdone). }
    destruct Hnext as [Hb Hn].
    apply (IH (S i) best' new); [lia|done|done].
Qed.

Lemma extend_left_diagonal : ∀ d s,
  d ≤ length a →
  Difflib.extend_left Difflib.not_junk a a 0 0 d d s
  = Difflib.mkMatch 0 0 (s + d).
Proof.
  induction d as [|d IH]; intros s Hd; simpl; [by rewrite Nat.add_0_r|].
  destruct (a !! d) as [x|] eqn:Hx.
  - unfold Difflib.not_junk at 1. simpl. rewrite Ascii.eqb_refl.
    rewrite IH by lia. f_equal. lia.
  - apply lookup_ge_None in Hx. lia.
Qed.

Lemma extend_right_diagonal n : ∀ s,
  s + n = length a →
  Difflib.extend_right n Difflib.not_junk a a (length a) (length a) 0 0 s
  = Difflib.mkMatch 0 0 (length a).
Proof.
  induction n as [|n IH]; intros s Hs; simpl.
  - f_equal. lia.
  - assert (E : (s <? length a) = true) by (apply Nat.ltb_lt; lia).
    rewrite E. simpl.
    destruct (a !! s) as [x|] eqn:Hx.
    + unfold Difflib.not_junk at 1. simpl. rewrite Ascii.eqb_refl.
      apply IH. lia.
    + apply lookup_ge_None in Hx. lia.
Qed.

Lemma find_longest_match_self :
  Difflib.find_longest_match a a 0 (length a) 0 (length a)
  = Difflib.mkMatch 0 0 (length a).
Proof.
  unfold Difflib.find_longest_match. rewrite Nat.sub_0_r.
  set (m0 := Difflib.scan_rows _ _ _ _ _ _ _).
  assert (Hd : Difflib.m_a m0 = Difflib.m_b m0).
  { apply scan_rows_diagonal; [lia| |].
    - split; [intros j v; by rewrite lookup_empty | intros i' [=]].
    - split; [done | intros i' Hi'; lia]. }
  assert (Hw : within 0 (length a) 0 (length a) m0).
  { unfold m0. apply scan_rows_within; try lia.
    - intros j v. by rewrite lookup_empty.
    - unfold within. simpl. lia. }
  destruct Hw as (_ & Hw & _). rewrite <- Hd.
  rewrite extend_left_diagonal by lia. simpl.
  rewrite extend_right_diagonal by lia. simpl.
  rewrite Nat.sub_diag. simpl. done.
Qed.

Lemma matches_self : Difflib.matches a a = length a.
Proof.
  unfold Difflib.matches, Difflib.get_matching_blocks.
  replace (2 * length a + 1) with (S (2 * length a)) by lia.
  cbn [Difflib.matching_loop]. rewrite find_longest_match_self.
  cbn [Difflib.m_size Difflib.m_a Difflib.m_b].
  destruct (length a =? 0) eqn:E.
  - apply Nat.eqb_eq in E. rewrite matching_loop_nil. by rewrite E.
  - rewrite Nat.add_0_l, !Nat.ltb_irrefl. simpl.
    rewrite matching_loop_nil. simpl. lia.
Qed.

End Reflexive.

Lemma ratio_self (s : string) : (Difflib.ratio s s == 1)%Q.
Proof.
  unfold Difflib.ratio, Difflib._calculate_ratio. rewrite matches_self.
  set (n := length (list_ascii_of_string s)).
  destruct (n + n =? 0) eqn:E; [reflexivity|].
  apply Nat.eqb_neq in E.
  replace (2 * Z.of_nat n)%Z with (Z.of_nat (n + n)) by lia.
  apply Qmult_inv_r. change 0%Q with (inject_Z 0). rewrite inject_Z_injective.
  lia.
Qed.


(** ** SimilarityScorer *)

(** The similarity of "tide" to "diet" is not that of "diet" to "tide":
    [SequenceMatcher.ratio] depends on the order of its arguments
    (0.25 against 0.5 on these titles), so the scorer is not symmetric. *)
Lemma calculate_similarity_not_symmetric :
  ¬ (_calculate_similarity
       (mkKnowledgePoint "tide" "" [] "file1.srt" 3)
       (mkKnowledgePoint "diet" "" [] "file2.srt" 3)
     == _calculate_similarity
       (mkKnowledgePoint "diet" "" [] "file2.srt" 3)
       (mkKnowledgePoint "tide" "" [] "file1.srt" 3))%Q.
Proof. vm_compute. discriminate. Qed.

(** C7 (amended).  The scorer is reflexive, [sim(a,a) == 1.0], and is the
    weighted combination of the title ratio (weight 0.6) and the ratio of
    the 200-character content prefixes (weight 0.4), both taken on
    lower-cased text and both in [0,1], so that the score is in [0,1].
    Symmetry is not claimed. *)
Theorem calculate_similarity_reflexive_weighted (p q : KnowledgePoint) :
  (_calculate_similarity p p == 1)%Q ∧
  (_calculate_similarity p q ==
     (6 # 10) * Difflib.ratio (lower (title p)) (lower (title q))
     + (4 # 10) * Difflib.ratio (lower (prefix 200 (content p)))
                                (lower (prefix 200 (content q))))%Q ∧
  (0 <= Difflib.ratio (lower (title p)) (lower (title q)) <= 1)%Q ∧
  (0 <= Difflib.ratio (lower (prefix 200 (content p)))
                      (lower (prefix 200 (content q))) <= 1)%Q ∧
  (0 <= _calculate_similarity p q <= 1)%Q.
Proof.
  pose proof (ratio_bounds (lower (title p)) (lower (title q))) as [Ht0 Ht1].
  pose proof (ratio_bounds (lower (prefix 200 (content p)))
                (lower (prefix 200 (content q)))) as [Hc0 Hc1].
  unfold _calculate_similarity.
  set (t := Difflib.ratio (lower (title p)) (lower (title q))) in *.
  set (c := Difflib.ratio (lower (prefix 200 (content p)))
              (lower (prefix 200 (content q)))) in *.
  split; [|split; [|split; [|split]]]; try done.
  - rewrite !ratio_self. reflexivity.
  - change 0.6%Q with (6 # 10)%Q. change 0.4%Q with (4 # 10)%Q. ring.
  - change 0.6%Q with (6 # 10)%Q. change 0.4%Q with (4 # 10)%Q. split.
    + apply Qle_trans with (0 * (6 # 10) + 0 * (4 # 10))%Q; [discriminate|].
      apply Qplus_le_compat; apply Qmult_le_compat_r; done.
    + apply Qle_trans with (1 * (6 # 10) + 1 * (4 # 10))%Q; [|discriminate].
      apply Qplus_le_compat; apply Qmult_le_compat_r; done.
Qed.


(** ** ResponseExtractor *)

Lemma find_char_range c s : ∀ i,
  find_char c s i = (-1)%Z ∨
  (i ≤ find_char c s i < i + Z.of_nat (length s))%Z.
Proof.
  induction s as [|d s IH]; intros i; simpl; [by left|].
  destruct (Ascii.eqb d c); [right; lia|].
  destruct (IH (i + 1)%Z) as [->|H]; [by left | right; lia].
Qed.

Lemma rfind_char_range c s : ∀ i,
  rfind_char c s i = (-1)%Z ∨
  (i ≤ rfind_char c s i < i + Z.of_nat (length s))%Z.
Proof.
  induction s as [|d s IH]; intros i; simpl; [by left|].
  destruct (IH (i + 1)%Z) as [->|H].
  - simpl. destruct (Ascii.eqb d c); [right; lia | by left].
  - destruct (0 <=? rfind_char c s (i + 1))%Z eqn:E.
    + right. lia.
    + destruct (Ascii.eqb d c); [right; lia | by left].
Qed.

Lemma to_last_brace_rfind s : ∀ i, (0 ≤ i)%Z →
  to_last_brace s =
    let r := rfind_char "}"%char s i in
    if (0 <=? r)%Z then Some (take (Z.to_nat (r - i + 1)) s) else None.
Proof.
  induction s as [|c s IH]; intros i Hi; simpl; [done|].
  rewrite (IH (i + 1)%Z) by lia. simpl.
  destruct (rfind_char_range "}"%char s (i + 1)) as [E|H].
  - rewrite E. simpl. destruct (Ascii.eqb c "}"%char); [|done].
    assert (Hle : (0 <=? i)%Z = true) by (apply Z.leb_le; lia).
    rewrite Hle. replace (i - i + 1)%Z with 1%Z by lia. done.
  - assert (Hle : (0 <=? rfind_char "}"%char s (i + 1))%Z = true)
      by (apply Z.leb_le; lia).
    rewrite Hle.
    replace (Z.to_nat (rfind_char "}"%char s (i + 1) - i + 1))
      with (S (Z.to_nat (rfind_char "}"%char s (i + 1) - (i + 1) + 1)))
      by lia.
    by rewrite Hle.
Qed.

(** The third pattern finds the text from the first opening brace to the
    last closing brace, which is what [find] and [rfind] delimit. *)
Lemma search_braces_find s : ∀ i, (0 ≤ i)%Z →
  search_braces s =
    let start := find_char "{"%char s i in
    let stop := rfind_char "}"%char s i in
    if ((0 <=? start) && (start <? stop))%Z
    then Some (slice (start - i) (stop - i + 1) s) else None.
Proof.
  induction s as [|c s IH]; intros i Hi; simpl; [done|].
  destruct (Ascii.eqb c "{"%char) eqn:Ec.
  - assert (Hc : Ascii.eqb c "}"%char = false).
    { apply Ascii.eqb_eq in Ec. by subst c. }
    rewrite Hc. rewrite (to_last_brace_rfind s (i + 1)) by lia. simpl.
    assert (Hle : (0 <=? i)%Z = true) by (apply Z.leb_le; lia).
    rewrite Hle. simpl.
    destruct (rfind_char_range "}"%char s (i + 1)) as [E|H].
    + rewrite E. simpl.
      assert (Hlt : (i <? -1)%Z = false) by (apply Z.ltb_ge; lia).
      rewrite Hlt. rewrite (IH (i + 1)%Z) by lia. simpl. rewrite E.
      destruct (find_char_range "{"%char s (i + 1)) as [->|H']; [done|].
      assert (Hlt' : (find_char "{"%char s (i + 1) <? -1)%Z = false)
        by (apply Z.ltb_ge; lia).
      by rewrite Hlt', andb_false_r.
    + assert (Hle' : (0 <=? rfind_char "}"%char s (i + 1))%Z = true)
        by (apply Z.leb_le; lia).
      rewrite Hle'.
      assert (Hlt : (i <? rfind_char "}"%char s (i + 1))%Z = true)
        by (apply Z.ltb_lt; lia).
      rewrite Hlt. unfold slice.
      replace (Z.to_nat (i - i)) with 0 by lia. simpl.
      replace (Z.to_nat (rfind_char "}"%char s (i + 1) - i + 1 - (i - i)))
        with (S (Z.to_nat (rfind_char "}"%char s (i + 1) - (i + 1) + 1)))
        by lia.
      done.
  - rewrite (IH (i + 1)%Z) by lia. simpl.
    destruct (find_char_range "{"%char s (i + 1)) as [->|Hf]; [done|].
    assert (Hf0 : (0 <=? find_char "{"%char s (i + 1))%Z = true)
      by (apply Z.leb_le; lia).
    rewrite Hf0. simpl.
    destruct (rfind_char_range "}"%char s (i + 1)) as [E|Hr].
    + rewrite E. simpl.
      assert (Hlt : (find_char "{"%char s (i + 1) <? -1)%Z = false)
        by (apply Z.ltb_ge; lia).
      rewrite Hlt.
      destruct (Ascii.eqb c "}"%char); [|by rewrite Hlt].
      assert (Hlt' : (find_char "{"%char s (i + 1) <? i)%Z = false)
        by (apply Z.ltb_ge; lia).
      by rewrite Hlt'.
    + assert (Hr0 : (0 <=? rfind_char "}"%char s (i + 1))%Z = true)
        by (apply Z.leb_le; lia).
      rewrite Hr0.
      destruct (find_char "{"%char s (i + 1) <? rfind_char "}"%char s (i + 1))%Z
        eqn:Elt; [|done].
      apply Z.ltb_lt in Elt. unfold slice. f_equal.
      replace (Z.to_nat (find_char "{"%char s (i + 1) - i))
        with (S (Z.to_nat (find_char "{"%char s (i + 1) - (i + 1)))) by lia.
      simpl. f_equal. lia.
Qed.


Lemma to_last_brace_shape s g :
  to_last_brace s = Some g → ∃ g', g = g' ++ ["}"%char].
Proof.
  revert g. induction s as [|c s IH]; intros g; simpl; [done|].
  destruct (to_last_brace s) as [h|].
  - intros [= <-]. destruct (IH h eq_refl) as [g' ->]. by exists (c :: g').
  - destruct (Ascii.eqb c "}"%char) eqn:E; [|done].
    apply Ascii.eqb_eq in E. subst c. intros [= <-]. by exists [].
Qed.

Lemma search_braces_shape s g :
  search_braces s = Some g → ∃ g', g = "{"%char :: g' ++ ["}"%char].
Proof.
  revert g. induction s as [|c s IH]; intros g; simpl; [done|].
  destruct (Ascii.eqb c "{"%char) eqn:E; [|apply IH].
  apply Ascii.eqb_eq in E. subst c.
  destruct (to_last_brace s) as [h|] eqn:Eh; [|apply IH].
  intros [= <-]. destruct (to_last_brace_shape s h Eh) as [g' ->].
  by exists g'.
Qed.

(** A text in braces has no white space to strip. *)
Lemma strip_braces g :
  strip (string_of_list_ascii ("{"%char :: g ++ ["}"%char]))
  = string_of_list_ascii ("{"%char :: g ++ ["}"%char]).
Proof.
  unfold strip, strip_chars. rewrite list_ascii_of_string_of_list_ascii.
  f_equal. cbn [lstrip]. change (is_space "{"%char) with false. cbn iota.
  change ("{"%char :: g ++ ["}"%char]) with (["{"%char] ++ g ++ ["}"%char]).
  rewrite !rev_app_distr. simpl.
  change (is_space "}"%char) with false. cbn iota.
  by rewrite rev_app_distr, rev_involutive.
Qed.

(** The third pattern and the last attempt of the method hand the same
    text to the parser; what remains is the whole trimmed text. *)
Ltac third_attempt s text Hb :=
  destruct ((0 <=? find_char "{"%char s 0)
            && (find_char "{"%char s 0 <? rfind_char "}"%char s 0))%Z;
  rewrite Hb;
  [ let g := fresh "g" in
    let Hg := fresh "Hg" in
    pose proof (search_braces_shape s _ Hb) as [g Hg];
    rewrite Hg, strip_braces; cbn [first_parsed];
    destruct (Json.loads _) as [?|[]]; try done;
    destruct (Json.loads (strip text)) as [?|[]]; done
  | cbn [first_parsed]; destruct (Json.loads (strip text)) as [?|[]]; done ].

(** The method and the four attempts of the specification agree on every
    text: its last attempt ([find] and [rfind]) repeats the third. *)
Lemma parse_json_response_extract (text : string) :
  _parse_json_response text = extract_response text.
Proof.
  unfold _parse_json_response, extract_response, patterns.
  unfold json_fenced_block, any_fenced_block, brace_delimited, whole_trimmed.
  set (s := list_ascii_of_string text).
  cbn [try_patterns first_parsed].
  pose proof (search_braces_find s 0 (Z.le_refl 0)) as Hb.
  cbn zeta in Hb. rewrite !Z.sub_0_r in Hb.
  destruct (search_fence (list_ascii_of_string "```json") s) as [g1|];
    cbn [fmap option_fmap option_map first_parsed];
    [destruct (Json.loads (strip (string_of_list_ascii g1))) as [v|[]];
       try done |];
    (destruct (search_fence (list_ascii_of_string "```") s) as [g2|];
       cbn [fmap option_fmap option_map first_parsed];
       [destruct (Json.loads (strip (string_of_list_ascii g2))) as [v|[]];
          try done |]);
    third_attempt s text Hb.
Qed.

(** What [first_parsed] gives is the outcome of one of its attempts, and
    never the exception that makes an attempt fail. *)
Lemma first_parsed_outcome attempts outcome :
  first_parsed attempts = Some outcome →
  outcome ≠ Raise JSONDecodeError ∧
  ∃ candidate, Some candidate ∈ attempts ∧ Json.loads candidate = outcome.
Proof.
  induction attempts as [|[candidate|] attempts IH]; simpl; [done| |].
  - destruct (Json.loads candidate) as [v|e] eqn:E.
    + intros [= <-]. split; [done|]. exists candidate. split; [left|done].
    + assert (Hlater : first_parsed attempts = Some outcome →
                outcome ≠ Raise JSONDecodeError ∧
                ∃ c, Some c ∈ Some candidate :: attempts ∧
                     Json.loads c = outcome).
      { intros H. destruct (IH H) as (Hne & c & Hin & Hc).
        split; [done|]. exists c. split; [by right|done]. }
      assert (Hhere : Some (Raise e) = Some outcome → e ≠ JSONDecodeError →
                outcome ≠ Raise JSONDecodeError ∧
                ∃ c, Some c ∈ Some candidate :: attempts ∧
                     Json.loads c = outcome).
      { intros [= <-] Hne. split; [congruence|]. exists candidate.
        split; [left|done]. }
      destruct e; first [exact Hlater | intros H; by apply Hhere].
  - intros H. destruct (IH H) as (Hne & c & Hin & Hc).
    split; [done|]. exists c. split; [by right|done].
Qed.

(** The exceptions of the decoder. *)
Lemma scan_number_raises s e :
  Json.scan_number s = Raise e → e = JSONDecodeError ∨ e = ValueError.
Proof.
  unfold Json.scan_number.
  destruct (Json.scan_integer s) as [[[[negative i] digits] s1]|];
    [|intros [= <-]; by left].
  destruct (Json.scan_fraction s1) as [[[f n] s2]|].
  - by destruct (Json.scan_exponent s2) as [[e' s3]|].
  - destruct (Json.scan_exponent s1) as [[e' s2]|]; [done|].
    destruct (Json.int_max_str_digits <? digits); [|done].
    intros [= <-]. by right.
Qed.

Lemma scan_raises fuel :
  (∀ depth s e, Json.scan_once fuel depth s = Raise e →
     e = JSONDecodeError ∨ e = RecursionError ∨ e = ValueError) ∧
  (∀ depth s acc e, Json.scan_items fuel depth s acc = Raise e →
     e = JSONDecodeError ∨ e = RecursionError ∨ e = ValueError) ∧
  (∀ depth s acc e, Json.scan_members fuel depth s acc = Raise e →
     e = JSONDecodeError ∨ e = RecursionError ∨ e = ValueError).
Proof.
  induction fuel as [|fuel (IHonce & IHitems & IHmembers)].
  - repeat split; intros; simpl in *; left; congruence.
  - split; [|split].
    + intros depth s e. cbn [Json.scan_once].
      destruct s as [|c s1]; [intros [= <-]; by left|].
      destruct (Ascii.eqb c double_quote).
      { destruct (Json.scan_string s1 []) as [[str rest]|];
          [done | intros [= <-]; by left]. }
      destruct (Ascii.eqb c "{"%char).
      { destruct depth as [|depth]; [intros [= <-]; right; by left|].
        destruct (Json.skip_ws s1) as [|d s2]; [intros [= <-]; by left|].
        destruct (Ascii.eqb d "}"%char); [done|]. apply IHmembers. }
      destruct (Ascii.eqb c "["%char).
      { destruct depth as [|depth]; [intros [= <-]; right; by left|].
        destruct (Json.skip_ws s1) as [|d s2]; [intros [= <-]; by left|].
        destruct (Ascii.eqb d "]"%char); [done|]. apply IHitems. }
      destruct (Json.scan_word "null" _); [done|].
      destruct (Json.scan_word "true" _); [done|].
      destruct (Json.scan_word "false" _); [done|].
      destruct (Json.scan_number (c :: s1)) as [r|e'] eqn:En; [done|].
      destruct (scan_number_raises _ _ En) as [->| ->].
      * destruct (Json.scan_word "NaN" _); [done|].
        destruct (Json.scan_word "Infinity" _); [done|].
        destruct (Json.scan_word "-Infinity" _); [done|].
        intros [= <-]. by left.
      * intros [= <-]. right. by right.
    + intros depth s acc e. cbn [Json.scan_items].
      destruct (Json.scan_once fuel depth s) as [[v rest]|e'] eqn:E.
      * destruct (Json.skip_ws rest) as [|c s1]; [intros [= <-]; by left|].
        destruct (Ascii.eqb c "]"%char); [done|].
        destruct (Ascii.eqb c ","%char); [apply IHitems|].
        intros [= <-]. by left.
      * intros [= <-]. by eapply IHonce.
    + intros depth s acc e. cbn [Json.scan_members].
      destruct s as [|q s1]; [intros [= <-]; by left|].
      destruct (Ascii.eqb q double_quote); [|intros [= <-]; by left].
      destruct (Json.scan_string s1 []) as [[key s2]|];
        [|intros [= <-]; by left].
      destruct (Json.skip_ws s2) as [|c s3]; [intros [= <-]; by left|].
      destruct (Ascii.eqb c ":"%char); [|intros [= <-]; by left].
      destruct (Json.scan_once fuel depth _) as [[v rest]|e'] eqn:E.
      * destruct (Json.skip_ws rest) as [|d s4]; [intros [= <-]; by left|].
        destruct (Ascii.eqb d "}"%char); [done|].
        destruct (Ascii.eqb d ","%char); [apply IHmembers|].
        intros [= <-]. by left.
      * intros [= <-]. by eapply IHonce.
Qed.

Lemma loads_raises text e :
  Json.loads text = Raise e →
  e = JSONDecodeError ∨ e = RecursionError ∨ e = ValueError.
Proof.
  unfold Json.loads.
  destruct (Json.scan_once _ _ _) as [[v rest]|e'] eqn:E.
  - destruct (Json.skip_ws rest); [done|]. intros [= <-]. by left.
  - intros [= <-]. by eapply (proj1 (scan_raises _)).
Qed.

(** The reply "[1, 2]" has no fence and no brace, and the extractor
    returns the list it parses to: neither a dictionary nor the empty
    structure.  On a reply of 1500 opening brackets the decoder raises
    [RecursionError], which the extractor does not catch. *)
Lemma parse_json_response_list_or_exception :
  _parse_json_response "[1, 2]" = Ok (Json.Arr [Json.Int 1; Json.Int 2]) ∧
  Json.is_object (Json.Arr [Json.Int 1; Json.Int 2]) = false ∧
  _parse_json_response (brackets 1500) = Raise RecursionError.
Proof. repeat split; vm_compute; reflexivity. Qed.

(** C8 (amended).  On every text the outcome of the extractor is that of
    the first of four attempts, in this order, that the decoder does not
    reject as malformed (a json-labelled fenced block, any fenced block, the
    text from the first opening brace to the last closing brace, the whole
    trimmed text): the value it parses to, of any JSON type, or the exception
    the decoder raises on it, which is [RecursionError] or [ValueError].
    When every attempt is rejected the extractor returns the empty
    dictionary. *)
Theorem parse_json_response_priority (text : string) :
  let attempts := [ json_fenced_block text; any_fenced_block text;
                    brace_delimited text; whole_trimmed text ] in
  _parse_json_response text
  = default (Ok (Json.Obj [])) (first_parsed attempts) ∧
  (∀ e, _parse_json_response text = Raise e →
        (e = RecursionError ∨ e = ValueError) ∧
        ∃ candidate, Some candidate ∈ attempts ∧
                     Json.loads candidate = Raise e) ∧
  (first_parsed attempts = None →
   _parse_json_response text = Ok (Json.Obj [])).
Proof.
  intros attempts.
  assert (H : _parse_json_response text
              = default (Ok (Json.Obj [])) (first_parsed attempts))
    by apply parse_json_response_extract.
  split; [exact H|]. rewrite H. split.
  - intros e. destruct (first_parsed attempts) as [outcome|] eqn:E; [|done].
    simpl. intros ->.
    destruct (first_parsed_outcome _ _ E) as (Hne & candidate & Hin & Hc).
    split; [|by eauto].
    destruct (loads_raises _ _ Hc) as [->|H']; [done|exact H'].
  - by intros ->.
Qed.

Example parse_json_response_plain_text :
  _parse_json_response "no braces and no fences" = Ok (Json.Obj []).
Proof. vm_compute. reflexivity. Qed.

Example parse_json_response_brace_scan :
  _parse_json_response (quoted "prefix text {'a':1} suffix")
  = Ok (Json.Obj [("a", Json.Int 1)]).
Proof. vm_compute. reflexivity. Qed.

Example parse_json_response_long_integer :
  _parse_json_response (string_of_list_ascii (repeat "7"%char 4301))
  = Raise ValueError.
Proof. vm_compute. reflexivity. Qed.


(** ** TextCleaner *)

(** C3 (the code departs from the claim).  On a text made of filler words
    and one content word the patterns remove more than 70% of the
    characters and the guard fires, but [clean] then collapses the white
    space of the normalised text: the original text, which the claim says
    is returned with its white space collapsed, was overwritten by the
    substitutions. *)
Theorem clean_guard_returns_normalized_text :
  let text :=
    "Um, uh, well, okay, right, so, basically, actually, like, you know, calculus" in
  TextCleaner.over_cleaned
    (length (TextCleaner.normalize (list_ascii_of_string text)))
    (String.length text) = true ∧
  TextCleaner.clean text = "calculus" ∧
  TextCleaner.collapse_whitespace text = text ∧
  TextCleaner.clean text ≠ TextCleaner.collapse_whitespace text.
Proof.
  cbv zeta. split; [|split; [|split]].
  - vm_compute. reflexivity.
  - vm_compute. reflexivity.
  - vm_compute. reflexivity.
  - vm_compute. discriminate.
Qed.

(** ** WorkflowEngine *)

Lemma find_path_update doc_path doc_id status stage result rows r :
  find (fun r => String.eqb (Ledger.row_path r) doc_path) rows = Some r →
  Ledger.row_id r = doc_id →
  find (fun r => String.eqb (Ledger.row_path r) doc_path)
    (map (fun r =>
            if Nat.eqb (Ledger.row_id r) doc_id
            then Ledger.mkDocumentRow (Ledger.row_id r) (Ledger.row_path r)
                   status stage result
            else r) rows)
  = Some (Ledger.mkDocumentRow doc_id (Ledger.row_path r) status stage result).
Proof.
  intros Hfind Hid. induction rows as [|x rows IH]; simpl in *; [done|].
  destruct (String.eqb (Ledger.row_path x) doc_path) eqn:Ex.
  - injection Hfind as ->. rewrite Hid, Nat.eqb_refl. simpl. by rewrite Ex.
  - destruct (Nat.eqb (Ledger.row_id x) doc_id); simpl; rewrite Ex;
      by apply IH.
Qed.

(** The id [add_document] returns is that of the row stored under the
    path. *)
Lemma add_document_row doc_path l :
  ∃ r, find (fun r => String.eqb (Ledger.row_path r) doc_path)
         (Ledger.documents (Ledger.add_document doc_path l).2) = Some r ∧
       Ledger.row_id r = (Ledger.add_document doc_path l).1 ∧
       Ledger.row_path r = doc_path.
Proof.
  unfold Ledger.add_document, Ledger.insert_or_ignore.
  destruct (Ledger.has_path doc_path (Ledger.documents l)) eqn:Hhas; simpl.
  - unfold Ledger._get_doc_id.
    destruct (find _ (Ledger.documents l)) as [r|] eqn:Hf.
    + exists r. split; [done|]. split; [done|].
      apply find_some in Hf as [_ Hr]. by apply String.eqb_eq in Hr.
    + unfold Ledger.has_path in Hhas. apply existsb_exists in Hhas
        as (r & Hin & Hr).
      by rewrite (find_none _ _ Hf r Hin) in Hr.
  - eexists. split; [by apply find_path_app_new|]. done.
Qed.

Lemma bind_ok {A B} (m : M A) (k : A → M B) w a w' :
  m w = (Ok a, w') → bind m k w = k a w'.
Proof. intros H. unfold bind. by rewrite H. Qed.

Lemma bind_raise {A B} (m : M A) (k : A → M B) w e w' :
  m w = (Raise e, w') → bind m k w = (Raise e, w').
Proof. intros H. unfold bind. by rewrite H. Qed.

Lemma stage_structure_returns doc w :
  ∃ doc' w', _stage_structure doc w = (Ok doc', w').
Proof.
  unfold _stage_structure, try_except, bind, generate, lift_result, ret.
  destruct (service w (llm_calls w) _ _) as [reply|e]; [|by eauto].
  destruct (extract_points doc reply); by eauto.
Qed.

Lemma mark_point_returns point w :
  ∃ point' w', mark_point point w = (Ok point', w').
Proof.
  unfold mark_point, try_except, bind, generate, ret.
  destruct (service w (llm_calls w) _ _); by eauto.
Qed.

Lemma stage_video_mark_returns doc w :
  ∃ doc' w', _stage_video_mark doc w = (Ok doc', w').
Proof.
  unfold _stage_video_mark, bind.
  assert (H : ∀ points w, ∃ points' w',
            map_m mark_point points w = (Ok points', w')).
  { clear. induction points as [|p points IH]; intros w; simpl.
    - unfold ret. by eauto.
    - unfold bind. destruct (mark_point_returns p w) as (p' & w1 & ->).
      destruct (IH w1) as (ps & w2 & ->). unfold ret. by eauto. }
  destruct (H (knowledge_points doc) w) as (ps & w' & ->).
  unfold ret. by eauto.
Qed.

(** The record of "lecture1.srt" when the service fails at stage 2: the
    exception leaves [process_document] and the record stays "processing";
    no "failed" status is written. *)
Lemma process_document_failure_propagates :
  let w := mkWorld Ledger.empty 0
             (fun _ _ _ => Raise (ServiceError "timeout"))
             (fun _ => Ok "Today we learn about derivatives")
             (fun _ _ => []) in
  (process_document "lecture1.srt" w).1 = Raise (ServiceError "timeout") ∧
  Ledger.documents (ledger (process_document "lecture1.srt" w).2)
  = [ Ledger.mkDocumentRow 1 "lecture1.srt" "processing"
        (Some "noise_reduction") None ].
Proof. split; vm_compute; reflexivity. Qed.

(** C1 (amended).  [process_document] has no handler of its own: when the
    generative call of stage 2 fails, the exception propagates to the caller
    and the document's record stays at status "processing" with the stage
    label "noise_reduction".  Stages 3 and 4 handle the failures of their
    own calls and always return. *)
Theorem process_document_stage2_failure (w : World) (doc_path text : string)
    (e : Exception) :
  files w doc_path = Ok text →
  service w (llm_calls w)
    (NoiseReductionPrompt (prefix 4000 (TextCleaner.clean text)))
    default_temperature = Raise e →
  (∃ w', process_document doc_path w = (Raise e, w') ∧
         status_of doc_path w'
         = Some ("processing", Some "noise_reduction")) ∧
  (∀ doc w0, ∃ doc' w', _stage_structure doc w0 = (Ok doc', w')) ∧
  (∀ doc w0, ∃ doc' w', _stage_video_mark doc w0 = (Ok doc', w')).
Proof.
  intros Hfile Hservice.
  split; [|split; [apply stage_structure_returns
                  | apply stage_video_mark_returns]].
  destruct (add_document_row doc_path (ledger w)) as (r & Hfind & Hid & Hpath).
  destruct (Ledger.add_document doc_path (ledger w)) as [doc_id l1] eqn:Eadd.
  simpl in Hfind, Hid.
  unfold process_document.
  erewrite bind_ok;
    [|unfold tracker_add_document, with_ledger; rewrite Eadd; reflexivity].
  erewrite bind_ok; [|unfold read_text; cbn; rewrite Hfile; reflexivity].
  cbv zeta.
  erewrite bind_ok; [|reflexivity].
  erewrite bind_ok; [|reflexivity].
  erewrite bind_raise;
    [|unfold _stage_noise_reduction; erewrite bind_raise;
      [reflexivity
      | unfold generate, tracker_update_status, with_ledger;
        cbn [llm_calls service files listing ledger doc_content set_content];
        rewrite Hservice; reflexivity]].
  eexists. split; [reflexivity|].
  unfold status_of, Ledger.update_status, tracker_update_status, with_ledger.
  cbn [llm_calls service files listing ledger Ledger.documents].
  rewrite (find_path_update doc_path doc_id "processing"
             (Some "noise_reduction") None _
             (Ledger.mkDocumentRow doc_id (Ledger.row_path r) "processing"
                (Some "cleaning") None)).
  - done.
  - by apply find_path_update.
  - done.
Qed.

Lemma process_document_stage2_failure_witness :
  let w := mkWorld Ledger.empty 0
             (fun _ _ _ => Raise (ServiceError "timeout"))
             (fun _ => Ok "Today we learn about derivatives")
             (fun _ _ => []) in
  (∃ w', process_document "lecture1.srt" w = (Raise (ServiceError "timeout"), w') ∧
         status_of "lecture1.srt" w'
         = Some ("processing", Some "noise_reduction")) ∧
  (∀ doc w0, ∃ doc' w', _stage_structure doc w0 = (Ok doc', w')) ∧
  (∀ doc w0, ∃ doc' w', _stage_video_mark doc w0 = (Ok doc', w')).
Proof.
  intros w.
  apply (process_document_stage2_failure w "lecture1.srt"
           "Today we learn about derivatives" (ServiceError "timeout")).
  - reflexivity.
  - reflexivity.
Defined.

(** C5 (the code departs from the claim).  A reply without braces gives
    the regular expression nothing to match: no exception is raised, the
    degrade branch is not taken and the document keeps the empty fragment
    list it came with.  A reply whose braces hold malformed text does take
    the degrade branch and yields one fragment with the truncated text. *)
Theorem stage_structure_reply_without_braces :
  let doc := mkDocument "lecture1.srt"
               "A derivative measures the rate of change." None [] in
  let plain := mkWorld Ledger.empty 0
                 (fun _ _ _ => Ok "I could not find any knowledge points.")
                 (fun _ => Raise (OSError ""))
                 (fun _ _ => []) in
  let malformed := mkWorld Ledger.empty 0
                     (fun _ _ _ => Ok "{points: none}")
                     (fun _ => Raise (OSError ""))
                 (fun _ _ => []) in
  (_stage_structure doc plain).1 = Ok doc ∧
  knowledge_points doc = [] ∧
  (_stage_structure doc malformed).1
  = Ok (set_knowledge_points doc
          [ mkKnowledgePoint degraded_title
              "A derivative measures the rate of change." []
              "lecture1.srt" default_importance ]).
Proof. cbv zeta. split; [|split]; vm_compute; reflexivity. Qed.


(** ** ParallelProcessor *)

Lemma gather_run_each files : ∀ w,
  gather_return_exceptions (map _process_with_limit files) w
  = (Ok (run_each files w).1, (run_each files w).2).
Proof.
  induction files as [|file files IH]; intros w; simpl; [done|].
  unfold _process_with_limit at 1.
  destruct (process_document file w) as [outcome w1].
  unfold bind. rewrite IH. destruct (run_each files w1). done.
Qed.

Lemma run_each_length files : ∀ w,
  length (run_each files w).1 = length files.
Proof.
  induction files as [|file files IH]; intros w; simpl; [done|].
  destruct (process_document file w) as [outcome w1].
  specialize (IH w1). destruct (run_each files w1). simpl in *. by rewrite IH.
Qed.

Lemma keep_documents_successful results :
  keep_documents results = successful results.
Proof.
  unfold keep_documents.
  assert (H : ∀ docs,
    foldl (fun docs result =>
             match result with
             | Raise _ => docs
             | Ok doc => docs ++ [doc]
             end) docs results = docs ++ successful results).
  { induction results as [|r results IH]; intros docs; simpl.
    - by rewrite app_nil_r.
    - rewrite IH. destruct r; simpl; [by rewrite <- app_assoc | done]. }
  by rewrite H.
Qed.

(** C2.  The scheduler returns the successfully processed records in
    discovery order and never raises: every document is run whatever the
    outcome of the others, a document whose task raised is left out, and no
    document gives the empty list.  With five documents of which the one at
    index 3 raises, the result is the four others in their order. *)
Theorem process_files_isolates_failures (files : list string) (w : World) :
  process_files files w
    = (Ok (successful (run_each files w).1), (run_each files w).2) ∧
  length (run_each files w).1 = length files ∧
  process_files [] w = (Ok [], w) ∧
  (∀ dir_path pattern,
     process_directory dir_path pattern w
     = process_files (discover dir_path pattern w) w) ∧
  match (process_files five_lectures world_with_unreadable_lecture3).1 with
  | Ok docs =>
      map path docs
      = [ "lecture0.srt"; "lecture1.srt"; "lecture2.srt"; "lecture4.srt" ]
  | Raise _ => False
  end.
Proof.
  split; [|split; [|split; [|split]]].
  - destruct files as [|file files]; [done|].
    unfold process_files, bind. rewrite gather_run_each.
    unfold ret. by rewrite keep_documents_successful.
  - apply run_each_length.
  - done.
  - done.
  - vm_compute. reflexivity.
Qed.


(** ** Merge phase *)

Lemma total_merged_from_app xs ys :
  total_merged_from (xs ++ ys) = total_merged_from xs + total_merged_from ys.
Proof.
  unfold total_merged_from. induction xs as [|x xs IH]; simpl; [done|].
  rewrite IH. lia.
Qed.

Lemma total_merged_from_to_merged (ps : list KnowledgePoint) :
  total_merged_from (map _to_merged ps) = length ps.
Proof.
  unfold total_merged_from. induction ps as [|p ps IH]; simpl; [done|].
  by rewrite IH.
Qed.

Lemma total_merged_from_ones {A} (f : A → MergedKnowledge) (xs : list A) :
  (∀ x, merged_from (f x) = 1) →
  total_merged_from (map f xs) = length xs.
Proof.
  intros Hone. unfold total_merged_from.
  induction xs as [|x xs IH]; simpl; [done|]. by rewrite Hone, IH.
Qed.

Lemma merge_group_returns ps best w :
  ∃ m w', _merge_group ps best w = (Ok m, w') ∧ merged_from m = length ps.
Proof.
  unfold _merge_group.
  assert (Hgen : ∃ m w',
    (text <- try_except
               (reply <- generate
                           (MergeGroupPrompt (length ps)
                              (map (fun p => (title p, prefix 1000 (content p)))
                                 (take 5 ps))) 0.3%Q ;;
                ret (_clean_merged_content reply))
               (fun e => ret (join_paragraphs (map content (take 3 ps)))) ;;
     ret (mkMergedKnowledge best text
            (distinct (map source_file ps) ∅)
            (_deduplicate_markers (flat_map video_markers ps))
            (_extract_examples ps)
            (group_confidence (length ps))
            (length ps))) w = (Ok m, w') ∧ merged_from m = length ps).
  { unfold bind, try_except, generate, ret.
    destruct (service w (llm_calls w) _ _); by eauto. }
  destruct ps as [|p [|q ps]]; [exact Hgen | | exact Hgen].
  unfold ret. by eauto.
Qed.

(** The fragments of a group whose indices are in range. *)
Lemma group_points_length (points : list KnowledgePoint) (idx : list nat) :
  Forall (fun i => i < length points) idx →
  length (omap (fun i => points !! i)
            (filter (fun i => i < length points) idx)) = length idx.
Proof.
  induction 1 as [|i idx Hi _ IH]; simpl; [done|].
  rewrite filter_cons, decide_True by done. simpl.
  destruct (lookup_lt_is_Some_2 points i Hi) as [p ->]. simpl.
  f_equal. exact IH.
Qed.

Lemma used_union (xs ys : list nat) (used : gset nat) :
  list_to_set ys ∪ (list_to_set xs ∪ used)
  = list_to_set (xs ++ ys) ∪ used.
Proof. rewrite list_to_set_app_L. set_solver. Qed.

Lemma merge_groups_conserves points groups : ∀ merged used w,
  Forall (fun i => i < length points) (group_indices_total groups) →
  ∃ merged' w',
    merge_groups points groups merged used w
      = (Ok (merged', list_to_set (group_indices_total groups) ∪ used), w') ∧
    total_merged_from merged'
      = total_merged_from merged + length (group_indices_total groups).
Proof.
  induction groups as [|g groups IH]; intros merged used w Hrange.
  - simpl. unfold ret. exists merged, w. split; [|lia].
    by rewrite union_empty_l_L.
  - unfold group_indices_total in *. simpl in Hrange.
    apply Forall_app in Hrange as [Hg Hrest].
    cbn [merge_groups map concat].
    pose proof (group_points_length points (indices g) Hg) as Hlen.
    set (gp := omap _ _) in *.
    destruct (1 <? length gp) eqn:E1.
    + destruct (merge_group_returns gp (best_title g) w) as (m & w1 & Hm & Hfrom).
      erewrite bind_ok by exact Hm.
      destruct (IH (merged ++ [m]) (list_to_set (indices g) ∪ used) w1 Hrest)
        as (merged' & w' & Hrun & Htot).
      exists merged', w'. split.
      * rewrite Hrun. by rewrite (used_union (indices g)).
      * rewrite Htot, total_merged_from_app, length_app.
        unfold total_merged_from at 2. simpl. lia.
    + apply Nat.ltb_ge in E1.
      destruct (length gp =? 1) eqn:E2.
      * apply Nat.eqb_eq in E2.
        assert (Hone : take 1 (indices g) = indices g).
        { apply take_ge. lia. }
        rewrite Hone.
        destruct (IH (merged ++ map _to_merged gp)
                    (list_to_set (indices g) ∪ used) w Hrest)
          as (merged' & w' & Hrun & Htot).
        exists merged', w'. split.
        -- rewrite Hrun. by rewrite (used_union (indices g)).
        -- rewrite Htot, total_merged_from_app, total_merged_from_to_merged,
             length_app. lia.
      * apply Nat.eqb_neq in E2.
        assert (Hnil : indices g = []).
        { destruct (indices g); [done | simpl in *; lia]. }
        destruct (IH merged used w Hrest) as (merged' & w' & Hrun & Htot).
        exists merged', w'. rewrite Hnil. simpl. split; [|lia].
        by rewrite Hrun.
Qed.

Lemma ungrouped_length_from (points : list KnowledgePoint) (used : gset nat) :
  ∀ k,
  length (filter (fun ip : nat * KnowledgePoint => ip.1 ∉ used)
            (imap (fun i p => (k + i, p)) points))
  = length (filter (fun i => i ∉ used) (seq k (length points))).
Proof.
  induction points as [|p points IH]; intros k; [done|].
  rewrite imap_cons. cbn [length seq]. rewrite !filter_cons.
  cbn [fst]. rewrite Nat.add_0_r.
  assert (Hshift : imap ((fun i p0 => (k + i, p0)) ∘ S) points
                   = imap (fun i p0 => (S k + i, p0)) points).
  { apply imap_ext. intros i x _. simpl. f_equal. lia. }
  rewrite Hshift.
  destruct (decide (k ∉ used)); cbn [length]; by rewrite (IH (S k)).
Qed.

Lemma unused_count (n : nat) (l : list nat) :
  NoDup l → Forall (fun i => i < n) l →
  length (filter (fun i => i ∉ (list_to_set l : gset nat)) (seq 0 n))
  + length l = n.
Proof.
  intros Hnd Hrange.
  pose proof (filter_app_complement
                (fun i => i ∈ (list_to_set l : gset nat)) (seq 0 n)) as Hp.
  apply Permutation_length in Hp. rewrite length_app, length_seq in Hp.
  assert (Hl : filter (fun i => i ∈ (list_to_set l : gset nat)) (seq 0 n) ≡ₚ l).
  { apply NoDup_Permutation; [apply NoDup_filter, NoDup_seq | done |].
    intros x. rewrite list_elem_of_filter, elem_of_list_to_set, elem_of_seq.
    rewrite Forall_forall in Hrange. split; [tauto|].
    intros Hx. specialize (Hrange x Hx). split; [done | lia]. }
  apply Permutation_length in Hl. lia.
Qed.

Lemma merge_all_groups_conserves points groups w :
  NoDup (group_indices_total groups) →
  Forall (fun i => i < length points) (group_indices_total groups) →
  ∃ merged w',
    _merge_all_groups points groups w = (Ok merged, w') ∧
    total_merged_from merged = length points.
Proof.
  intros Hnd Hrange. unfold _merge_all_groups.
  destruct (merge_groups_conserves points groups [] ∅ w Hrange)
    as (merged & w' & Hrun & Htot).
  erewrite bind_ok by exact Hrun. unfold ret. cbn [fst snd].
  eexists _, w'. split; [done|].
  rewrite total_merged_from_app, Htot. unfold ungrouped.
  rewrite total_merged_from_ones by done.
  rewrite (ungrouped_length_from points _ 0).
  rewrite union_empty_r_L.
  pose proof (unused_count (length points) _ Hnd Hrange). simpl. lia.
Qed.


(** The candidate groups of the prefilter are pairwise disjoint sets of
    indices of the fragment list. *)
Lemma greedy_sweep_valid threshold sim n rows : ∀ V,
  (∀ i, i ∈ rows → i < n) →
  NoDup (concat (greedy_sweep threshold sim n rows V)) ∧
  ∀ x, x ∈ concat (greedy_sweep threshold sim n rows V) → (x ∉ V) ∧ x < n.
Proof.
  induction rows as [|i rows IH]; intros V Hrows.
  - simpl. split; [constructor | by intros x Hx%elem_of_nil].
  - assert (Hi : i < n) by (apply Hrows; left).
    assert (Hrows' : ∀ k, k ∈ rows → k < n) by (intros k Hk; apply Hrows; by right).
    cbn [greedy_sweep].
    destruct (decide (i ∈ V)) as [HiV|HiV]; [by apply IH|].
    set (members := filter _ (seq (i + 1) (n - (i + 1)))).
    destruct (IH ((V ∪ {[i]}) ∪ list_to_set members) Hrows') as [Hnd Hel].
    assert (Hmem : ∀ x, x ∈ members → (x ∉ V) ∧ i < x ∧ x < n).
    { intros x Hx. apply list_elem_of_filter in Hx as [[Hx _] Hs].
      apply elem_of_seq in Hs. split; [done | lia]. }
    assert (Hrest : ∀ x, x ∈ concat (greedy_sweep threshold sim n rows
                                       ((V ∪ {[i]}) ∪ list_to_set members)) →
                         (x ∉ V) ∧ x ≠ i ∧ (x ∉ members) ∧ x < n).
    { intros x Hx. destruct (Hel x Hx) as [Hnot Hlt].
      repeat split; [set_solver | set_solver | set_solver | done]. }
    destruct (decide (members = [])) as [_|_].
    + split; [done|]. intros x Hx. destruct (Hrest x Hx) as (? & _ & _ & ?).
      done.
    + cbn [concat]. split.
      * change (i :: members) with ([i] ++ members). rewrite <- app_assoc.
        apply NoDup_app. split; [apply NoDup_singleton|]. split.
        -- intros x ->%list_elem_of_singleton Hx.
           apply elem_of_app in Hx as [Hx|Hx].
           ++ destruct (Hmem _ Hx) as (_ & Hlt & _). lia.
           ++ destruct (Hrest _ Hx) as (_ & Hne & _). done.
        -- apply NoDup_app. split; [apply NoDup_filter, NoDup_seq|].
           split; [|done]. intros x Hx Hx'.
           destruct (Hrest _ Hx') as (_ & _ & Hnm & _). done.
      * intros x Hx. change (i :: members) with ([i] ++ members) in Hx.
        rewrite <- app_assoc in Hx.
        apply elem_of_app in Hx as [->%list_elem_of_singleton|Hx]; [done|].
        apply elem_of_app in Hx as [Hx|Hx].
        -- destruct (Hmem _ Hx) as (? & _ & ?). done.
        -- destruct (Hrest _ Hx) as (? & _ & _ & ?). done.
Qed.

Lemma find_similar_candidates_spec threshold points :
  _find_similar_candidates threshold points
  = greedy_groups threshold (pair_similarity points) (length points).
Proof.
  unfold _find_similar_candidates, greedy_groups.
  rewrite (sweep_greedy threshold points _ _ ∅); [done| |].
  - split; [by rewrite length_replicate|].
    intros j Hj. rewrite lookup_replicate_2 by done.
    by rewrite bool_decide_eq_false_2 by set_solver.
  - intros i Hi. apply elem_of_seq in Hi. lia.
Qed.

Lemma find_similar_candidates_valid threshold points :
  NoDup (concat (_find_similar_candidates threshold points)) ∧
  Forall (fun i => i < length points)
    (concat (_find_similar_candidates threshold points)).
Proof.
  rewrite find_similar_candidates_spec. unfold greedy_groups.
  destruct (greedy_sweep_valid threshold (pair_similarity points)
              (length points) (seq 0 (length points)) ∅) as [Hnd Hel].
  { intros i Hi. apply elem_of_seq in Hi. lia. }
  split; [done|]. apply Forall_forall. intros x Hx. by apply Hel.
Qed.

Lemma concat_sublist {A} (l1 l2 : list (list A)) :
  l1 `sublist_of` l2 → concat l1 `sublist_of` concat l2.
Proof.
  induction 1 as [|x l1 l2 _ IH|x l1 l2 _ IH]; simpl.
  - constructor.
  - by apply sublist_app.
  - by apply sublist_inserts_l.
Qed.

(** ** Confirmation phase *)

Lemma select_in_range (points : list KnowledgePoint) (g : list nat) :
  Forall (fun i => i < length points) g → is_Some (select points g).
Proof.
  induction 1 as [|i g Hi _ IH]; simpl; [by eexists|].
  destruct (lookup_lt_is_Some_2 points i Hi) as [p ->].
  destruct IH as [ps ->]. by eexists.
Qed.

Lemma confirmation_indices data first g d :
  confirmation data first g = Ok (Some d) → indices d = g.
Proof.
  unfold confirmation, result_bind.
  repeat (match goal with
          | |- context [match ?x with _ => _ end] => destruct x
          end; try done).
  by intros [= <-].
Qed.

Lemma confirm_group_returns points g w :
  Forall (fun i => i < length points) g →
  ∃ d w', confirm_group points g w = (Ok d, w') ∧
          (∀ dg, d = Some dg → indices dg = g).
Proof.
  intros Hrange. unfold confirm_group.
  destruct (length g <? 2);
    [unfold ret; eexists _, _; split; [done | by intros dg [=]]|].
  destruct (select_in_range points g Hrange) as [gp ->].
  unfold try_except, bind, generate, lift_result, ret.
  destruct (service w (llm_calls w) _ _) as [reply|e].
  - destruct (_parse_json_response reply) as [data|e]; simpl;
      [|eexists _, _; split; [done|]; by intros dg [= <-]].
    destruct (confirmation _ _ g) as [d|e] eqn:E.
    + eexists _, _. split; [done|]. intros dg ->.
      by eapply confirmation_indices.
    + eexists _, _. split; [done|]. by intros dg [= <-].
  - eexists _, _. split; [done|]. by intros dg [= <-].
Qed.

Lemma confirm_duplicates_returns points candidates : ∀ w,
  Forall (fun i => i < length points) (concat candidates) →
  ∃ confirmed w',
    _confirm_duplicates points candidates w = (Ok confirmed, w') ∧
    map indices confirmed `sublist_of` candidates.
Proof.
  unfold _confirm_duplicates.
  assert (H : ∀ w, Forall (fun i => i < length points) (concat candidates) →
    ∃ decisions w',
      map_m (confirm_group points) candidates w = (Ok decisions, w') ∧
      map indices (omap id decisions) `sublist_of` candidates).
  { induction candidates as [|g candidates IH]; intros w Hrange.
    - simpl. unfold ret. eexists _, _. split; [done|]. constructor.
    - simpl in Hrange. apply Forall_app in Hrange as [Hg Hrest].
      cbn [map_m].
      destruct (confirm_group_returns points g w Hg) as (d & w1 & Hd & Hidx).
      erewrite bind_ok by exact Hd.
      destruct (IH w1 Hrest) as (ds & w2 & Hds & Hsub).
      erewrite bind_ok by exact Hds. unfold ret.
      eexists _, _. split; [done|].
      destruct d as [dg|]; simpl.
      + rewrite (Hidx dg eq_refl). by constructor.
      + by constructor. }
  intros w Hrange. destruct (H w Hrange) as (ds & w' & Hds & Hsub).
  erewrite bind_ok by exact Hds. unfold ret. by eauto.
Qed.

(** The whole reconciliation accounts for every input fragment once. *)
Lemma merge_duplicates_conserves threshold points w :
  ∃ merged w',
    merge_duplicates threshold points w = (Ok merged, w') ∧
    total_merged_from merged = length points.
Proof.
  assert (Hgen : ∃ merged w',
    (confirmed_groups <- _confirm_duplicates points
                           (_find_similar_candidates threshold points) ;;
     _merge_all_groups points confirmed_groups) w = (Ok merged, w') ∧
    total_merged_from merged = length points).
  { destruct (find_similar_candidates_valid threshold points) as [Hnd Hrange].
    destruct (confirm_duplicates_returns points _ w Hrange)
      as (confirmed & w1 & Hc & Hsub).
    erewrite bind_ok by exact Hc.
    apply concat_sublist in Hsub.
    apply merge_all_groups_conserves.
    - by eapply sublist_NoDup.
    - apply Forall_forall. intros x Hx.
      rewrite Forall_forall in Hrange. apply Hrange.
      by eapply elem_of_sublist. }
  unfold merge_duplicates. destruct points as [|p [|q points]]; [| |exact Hgen].
  - unfold ret. by eauto.
  - unfold ret. by eauto.
Qed.


Lemma distinct_spec (xs : list string) : ∀ seen,
  NoDup (distinct xs seen) ∧
  ∀ x, x ∈ distinct xs seen ↔ x ∈ xs ∧ x ∉ seen.
Proof.
  induction xs as [|y xs IH]; intros seen; simpl.
  - split; [apply NoDup_nil_2|]. intros x. split; [by intros ?%elem_of_nil|].
    by intros [?%elem_of_nil _].
  - destruct (decide (y ∈ seen)) as [Hy|Hy].
    + destruct (IH seen) as [Hnd Hin]. split; [done|]. intros x.
      rewrite Hin, elem_of_cons. split; [tauto|].
      intros [[->|Hx] Hn]; [done|tauto].
    + destruct (IH ({[y]} ∪ seen)) as [Hnd Hin]. split.
      * apply NoDup_cons. split; [|done]. rewrite Hin. set_solver.
      * intros x. rewrite !elem_of_cons, Hin.
        destruct (decide (x = y)) as [->|Hne]; [tauto|]. set_solver.
Qed.

Lemma to_merged_passes p : passes_through p (_to_merged p).
Proof. by repeat split. Qed.

Lemma distinct_elem_of (xs : list string) x :
  x ∈ distinct xs ∅ ↔ x ∈ xs.
Proof. destruct (distinct_spec xs ∅) as [_ H]. rewrite H. set_solver. Qed.

(** The fragments of a group whose indices are in range, one by one. *)
Lemma group_points_lookup (points : list KnowledgePoint) (idx : list nat) :
  Forall (fun i => i < length points) idx →
  Forall2 (fun i p => points !! i = Some p) idx
    (omap (fun i => points !! i) (filter (fun i => i < length points) idx)).
Proof.
  induction 1 as [|i idx Hi _ IH]; simpl; [constructor|].
  rewrite filter_cons, decide_True by done. simpl.
  destruct (lookup_lt_is_Some_2 points i Hi) as [p Hp]. rewrite Hp. simpl.
  by constructor.
Qed.

Lemma merge_group_fields ps best w :
  ∃ m w',
    _merge_group ps best w = (Ok m, w') ∧
    merged_from m = length ps ∧
    (∀ p, ps = [p] → m = _to_merged p) ∧
    (length ps ≠ 1 →
     merged_title m = best ∧ sources m = distinct (map source_file ps) ∅).
Proof.
  unfold _merge_group.
  assert (Hgen : ∃ m w',
    (text <- try_except
               (reply <- generate
                           (MergeGroupPrompt (length ps)
                              (map (fun p => (title p, prefix 1000 (content p)))
                                 (take 5 ps))) 0.3%Q ;;
                ret (_clean_merged_content reply))
               (fun e => ret (join_paragraphs (map content (take 3 ps)))) ;;
     ret (mkMergedKnowledge best text
            (distinct (map source_file ps) ∅)
            (_deduplicate_markers (flat_map video_markers ps))
            (_extract_examples ps)
            (group_confidence (length ps))
            (length ps))) w = (Ok m, w') ∧
    merged_from m = length ps ∧
    merged_title m = best ∧ sources m = distinct (map source_file ps) ∅).
  { unfold bind, try_except, generate, ret.
    destruct (service w (llm_calls w) _ _); by eauto 10. }
  destruct ps as [|p [|q ps]].
  - destruct Hgen as (m & w' & Hrun & Hfrom & Htitle & Hsources).
    exists m, w'. by repeat split.
  - exists (_to_merged p), w. unfold ret. split; [done|]. split; [done|].
    split; [by intros ? [= <-]|]. simpl. lia.
  - destruct Hgen as (m & w' & Hrun & Hfrom & Htitle & Hsources).
    exists m, w'. by repeat split.
Qed.

Lemma covers_merged points g gp m :
  Forall2 (fun i p => points !! i = Some p) (indices g) gp →
  1 < length gp →
  merged_from m = length gp → merged_title m = best_title g →
  sources m = distinct (map source_file gp) ∅ →
  covers points g m.
Proof.
  intros Hgp Hlen Hfrom Htitle Hsources.
  pose proof (Forall2_length _ _ _ Hgp) as Hl.
  split; [lia|]. split; [|split].
  - intros i Hi. apply list_elem_of_lookup in Hi as [k Hk].
    destruct (Forall2_lookup_l _ _ _ _ _ Hgp Hk) as (p & Hp & Hlook).
    exists p. split; [done|]. rewrite Hsources. apply distinct_elem_of.
    apply list_elem_of_fmap. exists p. split; [done|].
    by eapply list_elem_of_lookup_2.
  - intros s. rewrite Hsources, distinct_elem_of.
    intros Hs. apply list_elem_of_fmap in Hs as (p & -> & Hp).
    apply list_elem_of_lookup in Hp as [k Hk].
    destruct (Forall2_lookup_r _ _ _ _ _ Hgp Hk) as (i & Hi & Hlook).
    exists i, p. split; [by eapply list_elem_of_lookup_2|done].
  - destruct (indices g) as [|i [|j rest]]; [done| simpl in *; lia | done].
Qed.

Lemma covers_single points g i p :
  indices g = [i] → points !! i = Some p → covers points g (_to_merged p).
Proof.
  intros Hg Hp. unfold covers. rewrite Hg. split; [done|]. split; [|split].
  - intros j ->%list_elem_of_singleton. exists p. split; [done|].
    simpl. by apply list_elem_of_singleton.
  - intros s Hs. simpl in Hs. apply list_elem_of_singleton in Hs as ->.
    exists i, p. split; [by apply list_elem_of_singleton|done].
  - exists p. split; [done|apply to_merged_passes].
Qed.

Lemma merge_groups_covers points groups : ∀ merged used w,
  Forall (fun i => i < length points) (group_indices_total groups) →
  ∃ grouped w',
    merge_groups points groups merged used w
      = (Ok (merged ++ grouped,
             list_to_set (group_indices_total groups) ∪ used), w') ∧
    Forall2 (covers points) (filter (fun g => indices g ≠ []) groups)
      grouped.
Proof.
  induction groups as [|g groups IH]; intros merged used w Hrange.
  - simpl. unfold ret. exists [], w. rewrite app_nil_r, union_empty_l_L.
    split; [done|constructor].
  - unfold group_indices_total in *. simpl in Hrange.
    apply Forall_app in Hrange as [Hg Hrest].
    cbn [merge_groups map concat]. rewrite filter_cons.
    pose proof (group_points_lookup points (indices g) Hg) as Hgp.
    pose proof (Forall2_length _ _ _ Hgp) as Hlen.
    set (gp := omap _ _) in *.
    destruct (1 <? length gp) eqn:E1.
    + apply Nat.ltb_lt in E1.
      destruct (merge_group_fields gp (best_title g) w)
        as (m & w1 & Hm & Hfrom & _ & Hmany).
      destruct Hmany as [Htitle Hsources]; [lia|].
      erewrite bind_ok by exact Hm.
      destruct (IH (merged ++ [m]) (list_to_set (indices g) ∪ used) w1 Hrest)
        as (grouped & w' & Hrun & Hcovers).
      exists (m :: grouped), w'. split.
      * rewrite Hrun, <- app_assoc. by rewrite (used_union (indices g)).
      * rewrite decide_True by (intros E; rewrite E in Hlen; simpl in *; lia).
        constructor; [|done]. by eapply covers_merged.
    + apply Nat.ltb_ge in E1.
      destruct (length gp =? 1) eqn:E2.
      * apply Nat.eqb_eq in E2.
        destruct (indices g) as [|i [|j rest]] eqn:Eg;
          [simpl in *; lia | | simpl in *; lia].
        apply Forall2_cons_inv_l in Hgp as (p & gp' & Hp & Hnil & Egp).
        apply Forall2_nil_inv_l in Hnil as ->. rewrite Egp.
        destruct (IH (merged ++ map _to_merged [p])
                    (list_to_set [i] ∪ used) w Hrest)
          as (grouped & w' & Hrun & Hcovers).
        exists (_to_merged p :: grouped), w'. split.
        -- change (take 1 [i]) with [i]. rewrite Hrun, <- app_assoc.
           by rewrite (used_union [i]).
        -- rewrite decide_True by done. constructor; [|done].
           by apply covers_single with i.
      * apply Nat.eqb_neq in E2.
        assert (Hnil : indices g = []).
        { destruct (indices g); [done | simpl in *; lia]. }
        destruct (IH merged used w Hrest) as (grouped & w' & Hrun & Hcovers).
        exists grouped, w'. rewrite Hnil. simpl. split; [by rewrite Hrun|].
        exact Hcovers.
Qed.

Lemma ungrouped_passes (points ps : list KnowledgePoint) (used : gset nat) :
  ∀ k,
    (∀ j p, ps !! j = Some p → points !! (k + j) = Some p) →
    Forall2 (fun i m => ∃ p, points !! i = Some p ∧ passes_through p m)
      (filter (fun i => i ∉ used) (seq k (length ps)))
      (map (fun ip : nat * KnowledgePoint => _to_merged ip.2)
         (filter (fun ip : nat * KnowledgePoint => ip.1 ∉ used)
            (imap (fun i p => (k + i, p)) ps))).
Proof.
  induction ps as [|p ps IH]; intros k Hps; [constructor|].
  rewrite imap_cons. cbn [length seq]. rewrite !filter_cons.
  cbn [fst]. rewrite Nat.add_0_r.
  assert (Hshift : imap ((fun i p0 => (k + i, p0)) ∘ S) ps
                   = imap (fun i p0 => (S k + i, p0)) ps).
  { apply imap_ext. intros i x _. simpl. f_equal. lia. }
  rewrite Hshift.
  assert (Hrest : ∀ j q, ps !! j = Some q → points !! (S k + j) = Some q).
  { intros j q Hq. replace (S k + j) with (k + S j) by lia.
    by apply (Hps (S j)). }
  destruct (decide (k ∉ used)); [|by apply IH].
  cbn [map snd]. constructor; [|by apply IH].
  exists p. split; [|apply to_merged_passes].
  rewrite <- (Nat.add_0_r k). by apply (Hps 0).
Qed.

Lemma grouped_or_not (n : nat) (l : list nat) :
  NoDup l → Forall (fun i => i < n) l →
  l ++ filter (fun i => i ∉ l) (seq 0 n) ≡ₚ seq 0 n.
Proof.
  intros Hnd Hrange.
  rewrite <- (filter_app_complement (fun i => i ∈ l) (seq 0 n)) at 2.
  apply Permutation_app; [|done].
  apply NoDup_Permutation; [done | apply NoDup_filter, NoDup_seq |].
  intros x. rewrite list_elem_of_filter, elem_of_seq.
  rewrite Forall_forall in Hrange. split; [|tauto].
  intros Hx. specialize (Hrange x Hx). split; [done|lia].
Qed.

Lemma merge_all_groups_parts points groups w :
  NoDup (group_indices_total groups) →
  Forall (fun i => i < length points) (group_indices_total groups) →
  ∃ merged w',
    _merge_all_groups points groups w = (Ok merged, w') ∧
    conserves points groups merged ∧
    total_merged_from merged = length points.
Proof.
  intros Hnd Hrange.
  destruct (merge_all_groups_conserves points groups w Hnd Hrange)
    as (merged & w' & Hrun & Htotal).
  exists merged, w'. split; [done|]. split; [|done].
  revert Hrun. unfold _merge_all_groups.
  destruct (merge_groups_covers points groups [] ∅ w Hrange)
    as (grouped & w1 & Hloop & Hcovers).
  erewrite bind_ok by exact Hloop. unfold ret. cbn [fst snd].
  intros [= <- <-]. exists grouped, (ungrouped points
    (list_to_set (group_indices_total groups) ∪ ∅)).
  split; [done|]. split; [done|]. split; [|by apply grouped_or_not].
  unfold ungrouped_indices, ungrouped.
  rewrite (list_filter_iff (fun i => i ∉ group_indices_total groups)
             (fun i => i ∉ (list_to_set (group_indices_total groups) ∪ ∅
                            : gset nat))) by set_solver.
  by apply (ungrouped_passes points points _ 0).
Qed.

Lemma find_similar_candidates_few threshold (points : list KnowledgePoint) :
  length points ≤ 1 → _find_similar_candidates threshold points = [].
Proof.
  intros Hfew. rewrite find_similar_candidates_spec. unfold greedy_groups.
  destruct points as [|p [|q points]]; [done| |simpl in Hfew; lia].
  simpl. destruct (decide (0 ∈ (∅ : gset nat))); done.
Qed.

Lemma merge_duplicates_parts threshold points w :
  ∃ confirmed w1 merged w',
    _confirm_duplicates points (_find_similar_candidates threshold points) w
    = (Ok confirmed, w1) ∧
    merge_duplicates threshold points w = (Ok merged, w') ∧
    map indices confirmed
      `sublist_of` _find_similar_candidates threshold points ∧
    conserves points confirmed merged ∧
    total_merged_from merged = length points.
Proof.
  assert (Hgen : ∃ confirmed w1 merged w',
    _confirm_duplicates points (_find_similar_candidates threshold points) w
    = (Ok confirmed, w1) ∧
    (confirmed_groups <- _confirm_duplicates points
                           (_find_similar_candidates threshold points) ;;
     _merge_all_groups points confirmed_groups) w = (Ok merged, w') ∧
    map indices confirmed
      `sublist_of` _find_similar_candidates threshold points ∧
    conserves points confirmed merged ∧
    total_merged_from merged = length points).
  { destruct (find_similar_candidates_valid threshold points) as [Hnd Hrange].
    destruct (confirm_duplicates_returns points _ w Hrange)
      as (confirmed & w1 & Hc & Hsub).
    pose proof (concat_sublist _ _ Hsub) as Hall.
    destruct (merge_all_groups_parts points confirmed w1)
      as (merged & w' & Hrun & Hparts & Htotal).
    - by eapply sublist_NoDup.
    - apply Forall_forall. intros x Hx.
      rewrite Forall_forall in Hrange. apply Hrange.
      by eapply elem_of_sublist.
    - exists confirmed, w1, merged, w'. split; [done|].
      erewrite bind_ok by exact Hc. done. }
  assert (Hfew : ∀ ps : list KnowledgePoint, length ps ≤ 1 →
            _confirm_duplicates ps (_find_similar_candidates threshold ps) w
            = (Ok [], w) ∧
            conserves ps [] (map _to_merged ps)).
  { intros ps Hps. split.
    { by rewrite find_similar_candidates_few. }
    exists [], (map _to_merged ps).
    split; [done|]. split; [constructor|].
    unfold ungrouped_indices, group_indices_total. simpl. split.
    - destruct ps as [|p [|q ps]]; [constructor| |simpl in Hps; lia].
      simpl. rewrite filter_cons, decide_True by set_solver.
      repeat constructor. exists p. split; [done|apply to_merged_passes].
    - apply (grouped_or_not (length ps) []); constructor. }
  unfold merge_duplicates. destruct points as [|p [|q points]]; [| |exact Hgen].
  - destruct (Hfew []) as [Hconfirm Hparts]; [simpl; lia|].
    exists [], w, [], w. unfold ret. split; [done|]. split; [done|].
    split; [apply sublist_nil_l|]. by split.
  - destruct (Hfew [p]) as [Hconfirm Hparts]; [simpl; lia|].
    exists [], w, [_to_merged p], w. unfold ret. split; [done|].
    split; [done|]. split; [apply sublist_nil_l|]. by split.
Qed.

(** C10.  The merge conserves its input.  For confirmed groups whose
    indices are pairwise disjoint, without repetition and inside the range
    of the fragment list (as are the groups confirmed among the candidates
    of the prefilter), [_merge_all_groups] returns one output for each group,
    which accounts for the fragments of the group and for no other, followed
    by one pass-through output with [merged_from = 1] for each fragment that
    no group names; every fragment index is in exactly one of these parts,
    and the sum of [merged_from] over the output is the number of input
    fragments.  The same holds of [merge_duplicates] on every fragment list,
    for the groups [_confirm_duplicates] confirms among the candidates of
    the prefilter. *)
Theorem merge_all_groups_conserves_input (points : list KnowledgePoint)
    (groups : list DuplicateGroup) (w : World) :
  NoDup (group_indices_total groups) →
  Forall (fun i => i < length points) (group_indices_total groups) →
  (∃ merged w',
     _merge_all_groups points groups w = (Ok merged, w') ∧
     conserves points groups merged ∧
     total_merged_from merged = length points) ∧
  (∀ threshold w0, ∃ confirmed w1 merged w',
     _confirm_duplicates points (_find_similar_candidates threshold points) w0
     = (Ok confirmed, w1) ∧
     merge_duplicates threshold points w0 = (Ok merged, w') ∧
     map indices confirmed
       `sublist_of` _find_similar_candidates threshold points ∧
     conserves points confirmed merged ∧
     total_merged_from merged = length points).
Proof.
  intros Hnd Hrange. split.
  - by apply merge_all_groups_parts.
  - intros threshold w0. apply merge_duplicates_parts.
Qed.

Lemma merge_all_groups_conserves_input_witness :
  NoDup (group_indices_total bdd_groups) ∧
  Forall (fun i => i < length bdd_points) (group_indices_total bdd_groups) ∧
  (∃ merged w',
     _merge_all_groups bdd_points bdd_groups bdd_world = (Ok merged, w') ∧
     conserves bdd_points bdd_groups merged ∧
     total_merged_from merged = length bdd_points) ∧
  (∀ threshold w0, ∃ confirmed w1 merged w',
     _confirm_duplicates bdd_points
       (_find_similar_candidates threshold bdd_points) w0
     = (Ok confirmed, w1) ∧
     merge_duplicates threshold bdd_points w0 = (Ok merged, w') ∧
     map indices confirmed
       `sublist_of` _find_similar_candidates threshold bdd_points ∧
     conserves bdd_points confirmed merged ∧
     total_merged_from merged = length bdd_points).
Proof.
  assert (Hnd : NoDup (group_indices_total bdd_groups)).
  { apply (bool_decide_unpack _). vm_compute. exact I. }
  assert (Hrange : Forall (fun i => i < length bdd_points)
                     (group_indices_total bdd_groups)).
  { apply (bool_decide_unpack _). vm_compute. exact I. }
  split; [exact Hnd|]. split; [exact Hrange|].
  exact (merge_all_groups_conserves_input bdd_points bdd_groups bdd_world
           Hnd Hrange).
Defined.

Example merge_bdd_points :
  (fun r => map merged_from <$> (match r with Ok l => Some l | Raise _ => None end))
    (_merge_all_groups bdd_points bdd_groups bdd_world).1
  = Some [2; 1].
Proof. vm_compute. reflexivity. Qed.


(** ** TopicClusterer: batches and index translation *)

Lemma create_batches_lookup {A} (size b : nat) (all_points : list A)
    batches batch :
  _create_batches size all_points = Ok batches →
  batches !! b = Some batch →
  batch = take size (drop (b * size) all_points) ∧
  0 < size ∧
  b * size < length all_points ∧
  b * size + length batch ≤ length all_points.
Proof.
  unfold _create_batches. destruct (size =? 0) eqn:E; [done|].
  apply Nat.eqb_neq in E. intros [= <-] Hb.
  change (map ?f ?l !! b) with ((f <$> l) !! b) in Hb.
  rewrite list_lookup_fmap in Hb.
  destruct (seq _ _ !! b) as [b'|] eqn:Hs; [|done].
  apply lookup_seq in Hs as [-> Hlt]. simpl in Hb. injection Hb as <-.
  assert (Hb : b * size < length all_points).
  { pose proof (Nat.Div0.mul_div_le (length all_points + size - 1) size).
    nia. }
  split; [done|]. split; [lia|]. split; [done|].
  rewrite length_take, length_drop. lia.
Qed.




(** ** Further properties of the tracker *)

Lemma next_rowid_above rows r :
  r ∈ rows → Ledger.row_id r < Ledger.next_rowid rows.
Proof.
  unfold Ledger.next_rowid. induction rows as [|x rows IH]; intros Hin.
  - by apply elem_of_nil in Hin.
  - apply elem_of_cons in Hin as [->|Hin]; simpl; [lia|].
    specialize (IH Hin). lia.
Qed.

Lemma update_status_ids doc_id status stage result l :
  map Ledger.row_id
    (Ledger.documents (Ledger.update_status doc_id status stage result l))
  = map Ledger.row_id (Ledger.documents l).
Proof.
  unfold Ledger.update_status. simpl.
  induction (Ledger.documents l) as [|x rows IH]; simpl; [done|].
  rewrite IH. by destruct (Nat.eqb (Ledger.row_id x) doc_id).
Qed.

Lemma update_status_paths doc_id status stage result l :
  map Ledger.row_path
    (Ledger.documents (Ledger.update_status doc_id status stage result l))
  = map Ledger.row_path (Ledger.documents l).
Proof.
  unfold Ledger.update_status. simpl.
  induction (Ledger.documents l) as [|x rows IH]; simpl; [done|].
  rewrite IH. by destruct (Nat.eqb (Ledger.row_id x) doc_id).
Qed.

(** What every call of the tracker preserves. *)
Lemma tracker_call_keeps l call :
  NoDup (map Ledger.row_path (Ledger.documents l)) →
  NoDup (map Ledger.row_id (Ledger.documents l)) →
  Forall (fun r => 0 < Ledger.row_id r) (Ledger.documents l) →
  NoDup (map Ledger.row_path (Ledger.documents (tracker_call l call))) ∧
  NoDup (map Ledger.row_id (Ledger.documents (tracker_call l call))) ∧
  Forall (fun r => 0 < Ledger.row_id r)
    (Ledger.documents (tracker_call l call)).
Proof.
  intros Hp Hi Hpos. destruct call as [path|doc_id status stage result|row];
    cbn [tracker_call].
  - unfold Ledger.add_document, Ledger.insert_or_ignore.
    destruct (Ledger.has_path path (Ledger.documents l)) eqn:Hhas; simpl;
      [done|].
    rewrite !map_app. simpl. split; [|split].
    + apply NoDup_app. split; [done|]. split; [|apply NoDup_singleton].
      intros x Hx Hx'. apply list_elem_of_singleton in Hx' as ->.
      apply has_path_true_iff in Hx. congruence.
    + apply NoDup_app. split; [done|]. split; [|apply NoDup_singleton].
      intros x Hx Hx'. apply list_elem_of_singleton in Hx' as ->.
      apply list_elem_of_fmap in Hx as (r & Hr & Hin).
      pose proof (next_rowid_above _ _ Hin). lia.
    + apply Forall_app. split; [done|]. apply Forall_singleton. simpl.
      unfold Ledger.next_rowid. lia.
  - rewrite update_status_ids, update_status_paths. split; [done|].
    split; [done|]. unfold Ledger.update_status. simpl.
    apply Forall_fmap. eapply Forall_impl; [exact Hpos|].
    intros r Hr. simpl. by destruct (Nat.eqb (Ledger.row_id r) doc_id).
  - done.
Qed.

Lemma tracker_history_keeps calls :
  NoDup (map Ledger.row_path (Ledger.documents (tracker_history calls))) ∧
  NoDup (map Ledger.row_id (Ledger.documents (tracker_history calls))) ∧
  Forall (fun r => 0 < Ledger.row_id r)
    (Ledger.documents (tracker_history calls)).
Proof.
  unfold tracker_history.
  induction calls as [|call calls IH] using rev_ind.
  - simpl. split; [apply NoDup_nil_2|]. split; [apply NoDup_nil_2|done].
  - rewrite foldl_app. simpl. destruct IH as (Hp & Hi & Hpos).
    by apply tracker_call_keeps.
Qed.

(** X1.  Whatever calls the tracker has served since the tables were
    created, no two rows of [documents] share a path, no two share an id,
    and every id is positive. *)
Theorem tracker_rows_stay_distinct (calls : list TrackerCall) :
  Ledger.unique_paths (tracker_history calls) ∧
  NoDup (map Ledger.row_id (Ledger.documents (tracker_history calls))) ∧
  Forall (fun r => 0 < Ledger.row_id r)
    (Ledger.documents (tracker_history calls)).
Proof. apply tracker_history_keeps. Qed.

(** X2.  After any history of calls, [add_document] returns an id that is
    not 0, [_get_doc_id] finds that id under the path, and the path has
    exactly one row, which carries the id. *)
Theorem add_document_then_get_doc_id (calls : list TrackerCall)
    (path : string) :
  let l := tracker_history calls in
  (Ledger.add_document path l).1 ≠ 0 ∧
  Ledger._get_doc_id path (Ledger.add_document path l).2
  = (Ledger.add_document path l).1 ∧
  ∃ r, Ledger.rows_of path (Ledger.add_document path l).2 = [r] ∧
       Ledger.row_id r = (Ledger.add_document path l).1.
Proof.
  intros l.
  destruct (tracker_call_keeps l (AddDocument path)) as (Hp & Hi & Hpos);
    try apply tracker_history_keeps.
  simpl in Hp, Hi, Hpos.
  destruct (add_document_row path l) as (r & Hfind & Hid & Hpath).
  pose proof (find_some _ _ Hfind) as [Hin _].
  apply list_elem_of_In in Hin.
  split; [|split].
  - rewrite <- Hid. rewrite Forall_forall in Hpos.
    specialize (Hpos r Hin). lia.
  - unfold Ledger._get_doc_id. by rewrite Hfind.
  - exists r. split; [|done]. unfold Ledger.rows_of.
    assert (Hlen : length (filter (fun r => Ledger.row_path r = path)
                     (Ledger.documents (Ledger.add_document path l).2)) = 1).
    { apply rows_of_unique; [done|]. apply has_path_true_iff.
      apply list_elem_of_fmap. by exists r. }
    assert (Hr : r ∈ filter (fun r => Ledger.row_path r = path)
                     (Ledger.documents (Ledger.add_document path l).2)).
    { apply list_elem_of_filter. by split. }
    destruct (filter _ _) as [|x [|y rest]]; simpl in Hlen; try lia.
    by apply list_elem_of_singleton in Hr as ->.
Qed.

(** X3.  [update_status] keeps the ids, the paths and the order of the
    rows and the saved fragments; a row with another id is left as it is,
    and an id that no row has changes nothing. *)
Theorem update_status_touches_one_id (doc_id : nat) (status : string)
    (stage result : option string) (l : Ledger.t) :
  let l' := Ledger.update_status doc_id status stage result l in
  map Ledger.row_id (Ledger.documents l') = map Ledger.row_id (Ledger.documents l) ∧
  map Ledger.row_path (Ledger.documents l')
  = map Ledger.row_path (Ledger.documents l) ∧
  Ledger.knowledge_points l' = Ledger.knowledge_points l ∧
  (∀ i r, Ledger.documents l !! i = Some r → Ledger.row_id r ≠ doc_id →
          Ledger.documents l' !! i = Some r) ∧
  (∀ i r, Ledger.documents l !! i = Some r → Ledger.row_id r = doc_id →
          Ledger.documents l' !! i
          = Some (Ledger.mkDocumentRow doc_id (Ledger.row_path r) status
                    stage result)) ∧
  (doc_id ∉ map Ledger.row_id (Ledger.documents l) → l' = l).
Proof.
  intros l'. split; [apply update_status_ids|].
  split; [apply update_status_paths|]. split; [done|].
  subst l'. unfold Ledger.update_status. simpl.
  split; [|split].
  - intros i r Hi Hne. rewrite list_lookup_fmap, Hi. simpl.
    apply Nat.eqb_neq in Hne. by rewrite Hne.
  - intros i r Hi He. rewrite list_lookup_fmap, Hi. simpl.
    rewrite <- He, Nat.eqb_refl. done.
  - intros Hnot. destruct l as [docs points]. simpl in *. f_equal.
    induction docs as [|x docs IH]; simpl; [done|].
    simpl in Hnot. rewrite not_elem_of_cons in Hnot. destruct Hnot as [Hx Hrest].
    rewrite IH by done.
    destruct (Nat.eqb (Ledger.row_id x) doc_id) eqn:E; [|done].
    apply Nat.eqb_eq in E. congruence.
Qed.

(** ** Further properties of the pipeline *)

Lemma mark_point_marked point w :
  mark_point point w
  = (Ok (marked w 0 point),
     mkWorld (ledger w) (S (llm_calls w)) (service w) (files w) (listing w)).
Proof.
  unfold mark_point, marked, try_except, bind, generate, ret.
  rewrite Nat.add_0_r.
  by destruct (service w (llm_calls w) _ _).
Qed.

Lemma map_m_mark_point points : ∀ w,
  map_m mark_point points w
  = (Ok (imap (marked w) points),
     mkWorld (ledger w) (llm_calls w + length points) (service w) (files w)
       (listing w)).
Proof.
  induction points as [|p points IH]; intros w; simpl.
  - unfold ret. rewrite Nat.add_0_r. by destruct w.
  - unfold bind at 1. rewrite mark_point_marked.
    unfold bind at 1. rewrite IH. unfold ret.
    cbn [ledger llm_calls service files listing].
    f_equal; [|f_equal; lia]. do 2 f_equal.
    apply imap_ext. intros i x _. unfold marked.
    cbn [ledger llm_calls service files listing].
    by replace (S (llm_calls w) + i) with (llm_calls w + S i) by lia.
Qed.

Lemma stage_video_mark_run doc w :
  _stage_video_mark doc w
  = (Ok (set_knowledge_points doc (imap (marked w) (knowledge_points doc))),
     mkWorld (ledger w) (llm_calls w + length (knowledge_points doc))
       (service w) (files w) (listing w)).
Proof. unfold _stage_video_mark, bind. by rewrite map_m_mark_point. Qed.

(** X4.  Stage 4 makes one call for each fragment, in order; a reply
    becomes the content of its fragment and a failed call leaves its
    fragment as it was.  The stage never raises, touches no ledger row and
    keeps the number, the order, the titles and the sources of the
    fragments. *)
Theorem stage_video_mark_pointwise (doc : Document) (w : World) :
  _stage_video_mark doc w
  = (Ok (set_knowledge_points doc (imap (marked w) (knowledge_points doc))),
     mkWorld (ledger w) (llm_calls w + length (knowledge_points doc))
       (service w) (files w) (listing w)) ∧
  map title (imap (marked w) (knowledge_points doc))
  = map title (knowledge_points doc) ∧
  map source_file (imap (marked w) (knowledge_points doc))
  = map source_file (knowledge_points doc).
Proof.
  split.
  - apply stage_video_mark_run.
  - assert (H : ∀ (f : KnowledgePoint → string),
               (∀ i p, f (marked w i p) = f p) →
               map f (imap (marked w) (knowledge_points doc))
               = map f (knowledge_points doc)).
    { intros f Hf. apply list_eq. intros i.
      rewrite !list_lookup_fmap, list_lookup_imap.
      destruct (knowledge_points doc !! i); simpl; [|done]. by rewrite Hf. }
    split; apply H; intros i p; unfold marked;
      by destruct (service w _ _ _).
Qed.






(** X6.  When the file cannot be read, [process_document] raises the
    error of the read: the document has been added to the ledger, no
    status has been written and the service has not been called, so a
    document that was new is left with status "pending" and no stage. *)
Theorem process_document_unreadable (w : World) (doc_path : string)
    (e : Exception) :
  files w doc_path = Raise e →
  process_document doc_path w
  = (Raise e,
     mkWorld (Ledger.add_document doc_path (ledger w)).2 (llm_calls w)
       (service w) (files w) (listing w)) ∧
  (Ledger.has_path doc_path (Ledger.documents (ledger w)) = false →
   status_of doc_path (process_document doc_path w).2
   = Some ("pending", None)).
Proof.
  intros Hfile.
  assert (Hrun : process_document doc_path w
                 = (Raise e,
                    mkWorld (Ledger.add_document doc_path (ledger w)).2
                      (llm_calls w) (service w) (files w) (listing w))).
  { unfold process_document.
    destruct (Ledger.add_document doc_path (ledger w)) as [doc_id l1] eqn:Eadd.
    erewrite bind_ok;
      [|unfold tracker_add_document, with_ledger; rewrite Eadd; reflexivity].
    erewrite bind_raise; [reflexivity|].
    unfold read_text. cbn. by rewrite Hfile. }
  split; [exact Hrun|]. intros Hnew. rewrite Hrun.
  unfold status_of. cbn [snd ledger].
  unfold Ledger.add_document, Ledger.insert_or_ignore. rewrite Hnew.
  cbn [snd Ledger.documents].
  rewrite (find_path_app_new doc_path _
             (Ledger.mkDocumentRow _ doc_path "pending" None None) Hnew);
    done.
Qed.

Lemma process_document_unreadable_witness :
  let w := mkWorld Ledger.empty 0
             (fun _ _ _ => Ok "Approaching values.")
             (fun _ => Raise (OSError "unreadable"))
             (fun _ _ => []) in
  process_document "lecture1.srt" w
  = (Raise (OSError "unreadable"),
     mkWorld (Ledger.add_document "lecture1.srt" (ledger w)).2 (llm_calls w)
       (service w) (files w) (listing w)) ∧
  (Ledger.has_path "lecture1.srt" (Ledger.documents (ledger w)) = false →
   status_of "lecture1.srt" (process_document "lecture1.srt" w).2
   = Some ("pending", None)).
Proof.
  intros w.
  apply (process_document_unreadable w "lecture1.srt" (OSError "unreadable")).
  reflexivity.
Defined.

(** ** Further properties of the cleaner *)

Lemma count_while_zero_head p c s :
  count_while p (c :: s) = 0 → p c = false.
Proof. simpl. by destruct (p c). Qed.

(** Pattern 2 consumes every white space character and every comma: what
    the substitution lets through is solid, whatever the interjections
    are. *)
Lemma match_interjection_empty prev c s :
  TextCleaner.match_interjection prev (c :: s) = Some 0 → solid c.
Proof.
  unfold TextCleaner.match_interjection. cbn [count_while].
  destruct (is_space c) eqn:Hc; [intros [= E]; lia|].
  cbn [drop TextCleaner.optional].
  destruct (TextCleaner.is_interjection c); [intros [= E]; lia|].
  cbn [drop TextCleaner.optional].
  destruct (TextCleaner.is_comma c) eqn:Hcomma; [intros [= E]; lia|].
  intros _. split; [done|]. intros ->. done.
Qed.

Lemma re_sub_interjection_solid s : ∀ prev skip,
  Forall solid (re_sub TextCleaner.match_interjection [] s prev skip).
Proof.
  induction s as [|c s IH]; intros prev skip.
  - simpl. destruct skip; simpl; done.
  - cbn [re_sub]. destruct skip as [|k]; [|apply IH].
    destruct (TextCleaner.match_interjection prev (c :: s)) as [[|n]|] eqn:E.
    + simpl. apply Forall_cons. split; [|apply IH].
      by apply match_interjection_empty with prev s.
    + simpl. apply IH.
    + done.
Qed.

(** A substitution that deletes its matches lets through characters of the
    text alone, whatever its pattern is. *)
Lemma re_sub_deleting (P : ascii → Prop)
    (match_at : option ascii → list ascii → option nat) s :
  Forall P s → ∀ prev skip, Forall P (re_sub match_at [] s prev skip).
Proof.
  induction 1 as [|c s Hc Hs IH]; intros prev skip.
  - simpl. destruct skip; [destruct (match_at prev [])|]; done.
  - cbn [re_sub]. destruct skip as [|k]; [|apply IH].
    destruct (match_at prev (c :: s)) as [[|n]|]; simpl.
    + apply Forall_cons. split; [done|apply IH].
    + apply IH.
    + apply Forall_cons. split; [done|apply IH].
Qed.

Lemma sub_deleting_solid match_at s :
  Forall solid s → Forall solid (sub match_at "" s).
Proof. intros Hs. by apply re_sub_deleting. Qed.

(** A pattern that needs a white space character to start finds nothing
    in a solid text. *)
Lemma re_sub_solid_id (match_at : option ascii → list ascii → option nat)
    repl s :
  (∀ prev, match_at prev [] = None) →
  (∀ prev c s', is_space c = false → match_at prev (c :: s') = None) →
  Forall solid s →
  ∀ prev, re_sub match_at repl s prev 0 = s.
Proof.
  intros Hnil Hcons. induction 1 as [|c s [Hc _] Hs IH]; intros prev.
  - simpl. by rewrite Hnil.
  - cbn [re_sub]. rewrite (Hcons prev c s Hc). by rewrite IH.
Qed.

Lemma is_newline_space c : TextCleaner.is_newline c = true → is_space c = true.
Proof.
  unfold TextCleaner.is_newline. intros H. apply Ascii.eqb_eq in H as ->.
  reflexivity.
Qed.

Lemma is_blank_space c : TextCleaner.is_blank c = true → is_space c = true.
Proof.
  unfold TextCleaner.is_blank. intros H. apply orb_true_iff in H as [H|H];
    apply Ascii.eqb_eq in H as ->; reflexivity.
Qed.

Lemma is_space_char_space c :
  TextCleaner.is_space_char c = true → is_space c = true.
Proof.
  unfold TextCleaner.is_space_char. intros H. apply Ascii.eqb_eq in H as ->.
  reflexivity.
Qed.

Lemma not_space_false (p : ascii → bool) c :
  (p c = true → is_space c = true) → is_space c = false → p c = false.
Proof. destruct (p c); [|done]. intros H Hc. rewrite H in Hc; done. Qed.

Lemma sub_solid_blank_lines repl s :
  Forall solid s → sub TextCleaner.match_blank_lines repl s = s.
Proof.
  intros Hs. apply re_sub_solid_id; [done| |done].
  intros prev c s' Hc. unfold TextCleaner.match_blank_lines.
  by rewrite (not_space_false _ c (is_newline_space c) Hc).
Qed.

Lemma sub_solid_blanks repl s :
  Forall solid s → sub TextCleaner.match_blanks repl s = s.
Proof.
  intros Hs. apply re_sub_solid_id; [done| |done].
  intros prev c s' Hc. unfold TextCleaner.match_blanks. simpl.
  by rewrite (not_space_false _ c (is_blank_space c) Hc).
Qed.

Lemma sub_solid_trailing repl s :
  Forall solid s → sub TextCleaner.match_trailing_spaces repl s = s.
Proof.
  intros Hs. apply re_sub_solid_id; [done| |done].
  intros prev c s' Hc. unfold TextCleaner.match_trailing_spaces. simpl.
  by rewrite (not_space_false _ c (is_space_char_space c) Hc).
Qed.

Lemma sub_solid_leading repl s :
  Forall solid s → sub TextCleaner.match_leading_spaces repl s = s.
Proof.
  intros Hs. apply re_sub_solid_id; [done| |done].
  intros prev c s' Hc. unfold TextCleaner.match_leading_spaces.
  by rewrite (not_space_false _ c (is_newline_space c) Hc).
Qed.

Lemma sub_solid_spaces repl s :
  Forall solid s → sub TextCleaner.match_spaces repl s = s.
Proof.
  intros Hs. apply re_sub_solid_id; [done| |done].
  intros prev c s' Hc. unfold TextCleaner.match_spaces. simpl. by rewrite Hc.
Qed.

Lemma lstrip_solid s : Forall solid s → lstrip s = s.
Proof. destruct 1 as [|c s [Hc _] Hs]; simpl; [done|]. by rewrite Hc. Qed.

Lemma strip_chars_solid s : Forall solid s → strip_chars s = s.
Proof.
  intros Hs. unfold strip_chars. rewrite (lstrip_solid s Hs).
  rewrite lstrip_solid; [apply rev_involutive|].
  apply Forall_forall. intros c Hc. rewrite Forall_forall in Hs.
  apply Hs. apply list_elem_of_In. apply in_rev. by apply list_elem_of_In.
Qed.

(** The loop over the first four noise patterns, which delete what they
    match. *)
Lemma deleting_patterns s :
  foldl (fun s '(pattern, replacement) => sub pattern replacement s) s
    (take 4 TextCleaner.NOISE_PATTERNS)
  = sub TextCleaner.match_phrase ""
      (sub TextCleaner.match_phrase ""
         (sub TextCleaner.match_interjection ""
            (sub TextCleaner.match_filler "" s))).
Proof. reflexivity. Qed.

(** The text after the first four noise patterns is solid, and the rest of
    the normalization finds nothing to replace in it. *)
Lemma normalize_deleting_patterns s :
  TextCleaner.normalize s
  = foldl (fun s '(pattern, replacement) => sub pattern replacement s) s
      (take 4 TextCleaner.NOISE_PATTERNS)
  ∧ Forall solid (TextCleaner.normalize s).
Proof.
  assert (Hsolid : Forall solid
            (foldl (fun s '(pattern, replacement) => sub pattern replacement s)
               s (take 4 TextCleaner.NOISE_PATTERNS))).
  { rewrite deleting_patterns. do 2 apply sub_deleting_solid.
    apply re_sub_interjection_solid. }
  assert (E : TextCleaner.normalize s
              = foldl (fun s '(pattern, replacement) =>
                         sub pattern replacement s)
                  s (take 4 TextCleaner.NOISE_PATTERNS)).
  { unfold TextCleaner.normalize.
    change TextCleaner.NOISE_PATTERNS
      with (take 4 TextCleaner.NOISE_PATTERNS
            ++ [(TextCleaner.match_blank_lines,
                 String newline (String newline ""))]).
    rewrite foldl_app. cbn [foldl].
    rewrite (sub_solid_blank_lines _ _ Hsolid).
    rewrite (sub_solid_blanks _ _ Hsolid).
    rewrite (sub_solid_trailing _ _ Hsolid).
    by rewrite (sub_solid_leading _ _ Hsolid). }
  split; [done|]. by rewrite E.
Qed.

Lemma re_sub_empty_length match_at s : ∀ prev skip,
  length (re_sub match_at [] s prev skip) ≤ length s.
Proof.
  induction s as [|c s IH]; intros prev skip.
  - simpl. destruct skip; [destruct (match_at prev [])|]; simpl; lia.
  - cbn [re_sub]. destruct skip as [|k].
    + destruct (match_at prev (c :: s)) as [[|n]|]; simpl.
      * specialize (IH (Some c) 0). lia.
      * specialize (IH (Some c) n). lia.
      * specialize (IH (Some c) 0). lia.
    + specialize (IH (Some c) k). simpl. lia.
Qed.

Lemma string_length_chars (s : string) :
  String.length s = length (list_ascii_of_string s).
Proof. induction s as [|c s IH]; simpl; [done|]. by rewrite IH. Qed.

Lemma sub_deleting_length match_at s :
  length (sub match_at "" s) ≤ length s.
Proof. apply re_sub_empty_length. Qed.

(** X7.  The text [clean] returns holds no white space character and no
    comma: the second noise pattern matches at every position and consumes
    them all, between the words as well, and nothing that follows it brings
    one back. *)
Theorem clean_leaves_no_white_space (text : string) :
  Forall solid (list_ascii_of_string (TextCleaner.clean text)).
Proof.
  unfold TextCleaner.clean.
  destruct (normalize_deleting_patterns (list_ascii_of_string text))
    as [_ Hs].
  rewrite list_ascii_of_string_of_list_ascii.
  destruct (TextCleaner.over_cleaned _ _).
  - rewrite (sub_solid_spaces _ _ Hs). by rewrite (strip_chars_solid _ Hs).
  - by rewrite (strip_chars_solid _ Hs).
Qed.

(** X8.  The result of [clean] is the text after the first four noise
    patterns, those that delete what they match: the blank line pattern,
    the three white space substitutions, the guard against over-cleaning and
    the final [strip] change nothing, whatever the input.  The result is
    never longer than the input. *)
Theorem clean_is_the_deleting_patterns (text : string) :
  let deleted :=
    foldl (fun s '(pattern, replacement) => sub pattern replacement s)
      (list_ascii_of_string text) (take 4 TextCleaner.NOISE_PATTERNS) in
  TextCleaner.clean text = string_of_list_ascii deleted ∧
  TextCleaner.normalize (list_ascii_of_string text) = deleted ∧
  sub TextCleaner.match_spaces " " deleted = deleted ∧
  strip_chars deleted = deleted ∧
  String.length (TextCleaner.clean text) ≤ String.length text.
Proof.
  intros deleted.
  destruct (normalize_deleting_patterns (list_ascii_of_string text))
    as [E Hs].
  fold deleted in E. rewrite E in Hs.
  assert (Hclean : TextCleaner.clean text = string_of_list_ascii deleted).
  { unfold TextCleaner.clean. rewrite E.
    destruct (TextCleaner.over_cleaned _ _).
    - rewrite (sub_solid_spaces _ _ Hs). by rewrite (strip_chars_solid _ Hs).
    - by rewrite (strip_chars_solid _ Hs). }
  split; [done|]. split; [done|].
  split; [by apply sub_solid_spaces|].
  split; [by apply strip_chars_solid|].
  rewrite Hclean, !string_length_chars.
  rewrite list_ascii_of_string_of_list_ascii.
  subst deleted. rewrite deleting_patterns.
  etrans; [apply sub_deleting_length|].
  etrans; [apply sub_deleting_length|].
  etrans; [apply sub_deleting_length|].
  apply sub_deleting_length.
Qed.

(** ** Further properties of the schedulers *)

Lemma without_exceptions_successful {A} (results : list (Result A)) :
  without_exceptions results = successful results.
Proof.
  unfold successful. induction results as [|[a|e] results IH]; simpl;
    [done| |done]. by rewrite IH.
Qed.

(** X9.  [process_with_progress] returns what [process_directory] returns
    and leaves the same world: the documents whose processing did not raise,
    in discovery order, and the empty list for a directory without matching
    files. *)
Theorem process_with_progress_as_process_directory (dir_path pattern : string)
    (w : World) :
  process_with_progress dir_path pattern w
  = process_directory dir_path pattern w ∧
  process_with_progress dir_path pattern w
  = (Ok (successful (run_each (discover dir_path pattern w) w).1),
     (run_each (discover dir_path pattern w) w).2).
Proof.
  assert (H : process_with_progress dir_path pattern w
              = (Ok (successful (run_each (discover dir_path pattern w) w).1),
                 (run_each (discover dir_path pattern w) w).2)).
  { unfold process_with_progress, bind.
    change (map _process_and_track) with (map _process_with_limit).
    rewrite gather_run_each. unfold ret.
    by rewrite without_exceptions_successful. }
  split; [|exact H]. rewrite H.
  unfold process_directory, process_files.
  destruct (discover dir_path pattern w) as [|file files] eqn:E; [done|].
  unfold bind. rewrite gather_run_each. unfold ret.
  by rewrite keep_documents_successful.
Qed.

Lemma elem_of_failures {A} (outcomes : list (Result A)) e :
  e ∈ failures outcomes ↔ Raise e ∈ outcomes.
Proof.
  unfold failures. rewrite list_elem_of_omap. split.
  - intros ([a|e'] & Hin & Heq); [done|]. by injection Heq as ->.
  - intros Hin. by exists (Raise e).
Qed.

Lemma no_failures {A} (outcomes : list (Result A)) :
  failures outcomes = [] →
  length (successful outcomes) = length outcomes.
Proof.
  unfold failures, successful.
  induction outcomes as [|[a|e] outcomes IH]; simpl; [done| |done].
  intros H. f_equal. by apply IH.
Qed.

Lemma gather_outcome first files w :
  (gather first (map BatchProcessor._process_one files) w).1
  = match failures (run_each files w).1 with
    | [] => Ok (successful (run_each files w).1)
    | e :: es => Raise (nth (first mod length (e :: es)) (e :: es) e)
    end.
Proof.
  unfold gather.
  change (map BatchProcessor._process_one) with (map _process_with_limit).
  rewrite gather_run_each. by destruct (failures _).
Qed.

(** X10.  [BatchProcessor.process_directory] gathers without
    [return_exceptions]: it returns the documents only when every document
    of the directory is processed without an exception, and then they are all
    there in discovery order; when a document fails, the call raises the
    exception of one of the documents that fail and returns no document at
    all. *)
Theorem batch_processor_all_or_nothing (first : nat) (dir_path : string)
    (w : World) :
  let files := listing w dir_path "*.srt" ++ listing w dir_path "*.txt" in
  let outcomes := (run_each files w).1 in
  let result := (BatchProcessor.process_directory first dir_path w).1 in
  (failures outcomes = [] → result = Ok (successful outcomes)) ∧
  (∀ docs, result = Ok docs →
           docs = successful outcomes ∧ length docs = length files ∧
           failures outcomes = []) ∧
  (∀ e, Raise e ∈ outcomes →
        ∃ e', result = Raise e' ∧ Raise e' ∈ outcomes).
Proof.
  intros files outcomes result.
  assert (H : result
              = match failures outcomes with
                | [] => Ok (successful outcomes)
                | e :: es => Raise (nth (first mod length (e :: es)) (e :: es) e)
                end)
    by apply gather_outcome.
  rewrite H. split; [|split].
  - by intros ->.
  - intros docs. destruct (failures outcomes) eqn:E; [|done].
    intros [= <-]. split; [done|]. split; [|done].
    rewrite no_failures by done. apply run_each_length.
  - intros e He. apply elem_of_failures in He.
    destruct (failures outcomes) as [|e0 es] eqn:E;
      [by apply elem_of_nil in He|].
    eexists. split; [done|]. apply elem_of_failures. rewrite E.
    apply list_elem_of_In, nth_In, Nat.mod_upper_bound. done.
Qed.

(** ** Further properties of the fusion *)

Lemma calculate_similarity_bounds p q :
  (0 <= _calculate_similarity p q <= 1)%Q.
Proof.
  pose proof (ratio_bounds (lower (title p)) (lower (title q))) as [Ht0 Ht1].
  pose proof (ratio_bounds (lower (prefix 200 (content p)))
                (lower (prefix 200 (content q)))) as [Hc0 Hc1].
  unfold _calculate_similarity.
  change 0.6%Q with (6 # 10)%Q. change 0.4%Q with (4 # 10)%Q. split.
  - apply Qle_trans with (0 * (6 # 10) + 0 * (4 # 10))%Q; [discriminate|].
    apply Qplus_le_compat; apply Qmult_le_compat_r; done.
  - apply Qle_trans with (1 * (6 # 10) + 1 * (4 # 10))%Q; [|discriminate].
    apply Qplus_le_compat; apply Qmult_le_compat_r; done.
Qed.

Lemma pair_similarity_bounds points i j :
  (0 <= pair_similarity points i j <= 1)%Q.
Proof.
  unfold pair_similarity.
  destruct (points !! i) as [p|]; [|split; discriminate].
  destruct (points !! j) as [q|]; [|split; discriminate].
  apply calculate_similarity_bounds.
Qed.

Lemma filter_none {A} (P : A → Prop) `{!∀ x, Decision (P x)} (l : list A) :
  (∀ x, x ∈ l → ¬ P x) → filter P l = [].
Proof.
  induction l as [|x l IH]; intros Hall; [done|].
  rewrite filter_cons. destruct (decide (P x)) as [Hx|_].
  - exfalso. apply (Hall x); [left|done].
  - apply IH. intros y Hy. apply Hall. by right.
Qed.

Lemma filter_all {A} (P : A → Prop) `{!∀ x, Decision (P x)} (l : list A) :
  (∀ x, x ∈ l → P x) → filter P l = l.
Proof.
  induction l as [|x l IH]; intros Hall; [done|].
  rewrite filter_cons. destruct (decide (P x)) as [_|Hx].
  - f_equal. apply IH. intros y Hy. apply Hall. by right.
  - exfalso. apply Hx, Hall. left.
Qed.

Lemma greedy_sweep_nothing_similar threshold sim n rows : ∀ V,
  (∀ i j, Qle_bool threshold (sim i j) = false) →
  greedy_sweep threshold sim n rows V = [].
Proof.
  induction rows as [|i rows IH]; intros V Hsim; simpl; [done|].
  destruct (decide (i ∈ V)); [by apply IH|].
  rewrite (filter_none _ (seq (i + 1) (n - (i + 1)))).
  - simpl. by apply IH.
  - intros j _ [_ Hj]. by rewrite Hsim in Hj.
Qed.

Lemma greedy_sweep_all_visited threshold sim n rows : ∀ V,
  (∀ i, i ∈ rows → i ∈ V) →
  greedy_sweep threshold sim n rows V = [].
Proof.
  induction rows as [|i rows IH]; intros V Hin; simpl; [done|].
  destruct (decide (i ∈ V)) as [_|Hi].
  - apply IH. intros j Hj. apply Hin. by right.
  - exfalso. apply Hi, Hin. left.
Qed.

Lemma ungrouped_nothing_used points :
  ungrouped points ∅ = map _to_merged points.
Proof.
  unfold ungrouped. rewrite filter_all.
  - apply list_eq. intros i.
    change (map ?f ?l) with (f <$> l).
    rewrite !list_lookup_fmap, list_lookup_imap.
    by destruct (points !! i).
  - intros ip _. set_solver.
Qed.

(** X11.  With a similarity threshold above 1 no pair of fragments is
    similar enough: the prefilter finds no candidate group and
    [merge_duplicates] returns every fragment as an entry of its own, in
    order, without a call of the service. *)
Theorem threshold_above_one_merges_nothing (threshold : Q)
    (points : list KnowledgePoint) (w : World) :
  (1 < threshold)%Q →
  _find_similar_candidates threshold points = [] ∧
  merge_duplicates threshold points w = (Ok (map _to_merged points), w).
Proof.
  intros Hthreshold.
  assert (Hnone : _find_similar_candidates threshold points = []).
  { rewrite find_similar_candidates_spec. unfold greedy_groups.
    apply greedy_sweep_nothing_similar. intros i j.
    destruct (Qle_bool threshold (pair_similarity points i j)) eqn:E; [|done].
    apply Qle_bool_iff in E.
    destruct (pair_similarity_bounds points i j) as [_ H1].
    exfalso. apply (Qlt_irrefl 1).
    apply Qlt_le_trans with threshold; [done|].
    by apply Qle_trans with (pair_similarity points i j). }
  split; [done|].
  unfold merge_duplicates. destruct points as [|p [|q rest]]; [done..|].
  rewrite Hnone.
  unfold _confirm_duplicates, _merge_all_groups, bind. simpl.
  unfold ret. simpl. by rewrite ungrouped_nothing_used.
Qed.

Lemma threshold_above_one_merges_nothing_witness :
  _find_similar_candidates 2%Q bdd_points = [] ∧
  merge_duplicates 2%Q bdd_points bdd_world
  = (Ok (map _to_merged bdd_points), bdd_world).
Proof.
  apply (threshold_above_one_merges_nothing 2%Q bdd_points bdd_world).
  reflexivity.
Defined.

(** X12.  With a similarity threshold of 0 or less every pair of fragments
    is similar enough: the prefilter puts all the fragments of a list of two
    or more into one candidate group. *)
Theorem threshold_at_most_zero_groups_everything (threshold : Q)
    (points : list KnowledgePoint) :
  (threshold <= 0)%Q → 2 ≤ length points →
  _find_similar_candidates threshold points = [seq 0 (length points)].
Proof.
  intros Hthreshold Hlen.
  rewrite find_similar_candidates_spec. unfold greedy_groups.
  destruct (length points) as [|[|n]] eqn:En; [lia..|].
  change (seq 0 (S (S n))) with (0 :: seq 1 (S n)).
  assert (Hrows : seq (0 + 1) (S (S n) - (0 + 1)) = seq 1 (S n))
    by (f_equal; lia).
  remember (seq 1 (S n)) as rows eqn:Erows.
  cbn [greedy_sweep]. rewrite Hrows.
  destruct (decide (0 ∈ (∅ : gset nat))) as [H0|_]; [set_solver|].
  rewrite filter_all.
  - destruct (decide (rows = [])) as [E|_]; [by subst rows|].
    by rewrite greedy_sweep_all_visited by set_solver.
  - intros j _. split; [set_solver|].
    apply Qle_bool_iff.
    apply Qle_trans with 0%Q; [done|].
    apply pair_similarity_bounds.
Qed.

Lemma threshold_at_most_zero_groups_everything_witness :
  _find_similar_candidates 0%Q bdd_points = [seq 0 (length bdd_points)].
Proof.
  apply (threshold_at_most_zero_groups_everything 0%Q bdd_points).
  - unfold Qle. simpl. lia.
  - simpl. lia.
Defined.





Lemma confirmation_scores data first g d :
  confirmation data first g = Ok (Some d) →
  indices d = g ∧ similarity_scores d = replicate (length g) 1%Q.
Proof.
  unfold confirmation.
  destruct (get data "is_duplicate" _) as [dup|]; simpl; [|done].
  destruct (truthy dup); [|done].
  destruct (get data "confidence" _) as [conf|]; simpl; [|done].
  destruct (above_confidence conf) as [[|]|]; simpl; [|done..].
  destruct (get data "best_title" _) as [t|]; simpl; [|done].
  destruct (as_string t); simpl; [|done].
  destruct (get data "reason" _) as [r|]; simpl; [|done].
  destruct (as_string r); simpl; [|done].
  by intros [= <-].
Qed.

Lemma confirm_group_world points g w :
  2 ≤ length g → Forall (fun i => i < length points) g →
  ∃ d,
    confirm_group points g w
    = (Ok d,
       mkWorld (ledger w) (S (llm_calls w)) (service w) (files w) (listing w))
    ∧ (∀ dg, d = Some dg →
         indices dg = g ∧ similarity_scores dg = replicate (length g) 1%Q).
Proof.
  intros Hlen Hrange.
  destruct (select_in_range points g Hrange) as [group_points Hsel].
  assert (Hshort : (length g <? 2) = false) by (apply Nat.ltb_ge; lia).
  unfold confirm_group. rewrite Hshort, Hsel.
  unfold try_except, bind, generate, lift_result, ret.
  destruct (service w (llm_calls w) _ _) as [reply|e].
  - destruct (_parse_json_response reply) as [data|e]; simpl;
      [|eexists; split; [done|]; by intros dg [= <-]].
    destruct (confirmation _ _ g) as [d|e] eqn:E.
    + eexists. split; [done|]. intros dg ->. by eapply confirmation_scores.
    + eexists. split; [done|]. by intros dg [= <-].
  - eexists. split; [done|]. by intros dg [= <-].
Qed.

Lemma confirm_groups_world points candidates : ∀ w,
  Forall (fun g : list nat => 2 ≤ length g) candidates →
  Forall (fun i => i < length points) (concat candidates) →
  ∃ decisions,
    map_m (confirm_group points) candidates w
    = (Ok decisions,
       mkWorld (ledger w) (llm_calls w + length candidates) (service w)
         (files w) (listing w))
    ∧ map indices (omap id decisions) `sublist_of` candidates
    ∧ Forall (fun d => similarity_scores d
                       = replicate (length (indices d)) 1%Q)
        (omap id decisions).
Proof.
  induction candidates as [|g candidates IH]; intros w Hsizes Hrange.
  - exists []. simpl. unfold ret. rewrite Nat.add_0_r.
    split; [by destruct w|]. split; [done|]. constructor.
  - simpl in Hrange. apply Forall_app in Hrange as [Hg Hrest].
    apply Forall_cons in Hsizes as [Hsize Hsizes].
    destruct (confirm_group_world points g w Hsize Hg) as (d & Hd & Hfields).
    destruct (IH (mkWorld (ledger w) (S (llm_calls w)) (service w) (files w)
                    (listing w)) Hsizes Hrest)
      as (decisions & Hdec & Hsub & Hscores).
    exists (d :: decisions). cbn [map_m]. unfold bind at 1. rewrite Hd.
    unfold bind at 1. rewrite Hdec. unfold ret.
    cbn [ledger llm_calls service files listing length].
    split; [do 2 f_equal; lia|].
    destruct d as [dg|]; simpl.
    + destruct (Hfields dg eq_refl) as [Hi Hs]. split; [|constructor].
      * rewrite Hi. by constructor.
      * by rewrite Hi.
      * done.
    + split; [by constructor|done].
Qed.

(** X14.  On the candidate groups of the prefilter [_confirm_duplicates]
    never raises and writes nothing to the ledger: it calls the service
    exactly once for each candidate group, and the groups it confirms are
    candidate groups with their indices unchanged, in the order of the
    candidates, each with a score of 1.0 for each of its members. *)
Theorem confirm_duplicates_asks_once_per_group (threshold : Q)
    (points : list KnowledgePoint) (w : World) :
  let candidates := _find_similar_candidates threshold points in
  ∃ confirmed,
    _confirm_duplicates points candidates w
    = (Ok confirmed,
       mkWorld (ledger w) (llm_calls w + length candidates) (service w)
         (files w) (listing w)) ∧
    map indices confirmed `sublist_of` candidates ∧
    Forall (fun d => similarity_scores d
                     = replicate (length (indices d)) 1%Q) confirmed.
Proof.
  intros candidates.
  assert (Hsizes : Forall (fun g : list nat => 2 ≤ length g) candidates).
  { subst candidates. rewrite find_similar_candidates_spec.
    apply greedy_sweep_sizes. }
  destruct (find_similar_candidates_valid threshold points) as [_ Hrange].
  destruct (confirm_groups_world points candidates w Hsizes Hrange)
    as (decisions & Hdec & Hsub & Hscores).
  exists (omap id decisions). split; [|done].
  unfold _confirm_duplicates, bind. by rewrite Hdec.
Qed.

Lemma unique_markers_spec (markers : list VideoMarker) : ∀ seen,
  NoDup (map marker_key (unique_markers markers seen)) ∧
  (∀ m, m ∈ unique_markers markers seen → marker_key m ∉ seen) ∧
  unique_markers markers seen `sublist_of` markers.
Proof.
  induction markers as [|m markers IH]; intros seen; simpl.
  - split; [apply NoDup_nil_2|]. split; [by intros ? ?%elem_of_nil|done].
  - destruct (decide (marker_key m ∈ seen)) as [Hm|Hm].
    + destruct (IH seen) as (Hnd & Hout & Hsub).
      split; [done|]. split; [done|]. by apply sublist_cons.
    + destruct (IH ({[marker_key m]} ∪ seen)) as (Hnd & Hout & Hsub).
      split; [|split].
      * simpl. apply NoDup_cons. split; [|done].
        intros Hin. change (map ?f ?l) with (f <$> l) in Hin.
        apply list_elem_of_fmap in Hin as (m' & Hkey & Hm').
        specialize (Hout m' Hm'). set_solver.
      * intros m' Hm'. apply elem_of_cons in Hm' as [->|Hm']; [done|].
        specialize (Hout m' Hm'). set_solver.
      * by apply sublist_skip.
Qed.


(** X15.  [_deduplicate_markers] keeps at most five markers, in the order
    of the input and each the first with its key (the time and the first 30
    characters of the description): no two markers it returns share a key,
    and the first marker of the input is always kept. *)
Theorem deduplicate_markers_first_occurrences (markers : list VideoMarker) :
  length (_deduplicate_markers markers) ≤ 5 ∧
  NoDup (map marker_key (_deduplicate_markers markers)) ∧
  _deduplicate_markers markers `sublist_of` markers ∧
  head (_deduplicate_markers markers) = head markers.
Proof.
  unfold _deduplicate_markers.
  destruct (unique_markers_spec markers ∅) as (Hnd & _ & Hsub).
  split; [rewrite length_take; lia|]. split; [|split].
  - change (map ?f ?l) with (f <$> l) in *. rewrite fmap_take.
    eapply sublist_NoDup; [exact Hnd|apply sublist_take].
  - etransitivity; [apply sublist_take|done].
  - destruct markers as [|m markers]; [done|]. simpl.
    destruct (decide (marker_key m ∈ (∅ : gset string))) as [H|_];
      [set_solver|done].
Qed.





Lemma merge_groups_positive points groups : ∀ merged used w r w',
  Forall (fun m => 1 ≤ merged_from m) merged →
  merge_groups points groups merged used w = (Ok r, w') →
  Forall (fun m => 1 ≤ merged_from m) r.1.
Proof.
  induction groups as [|group groups IH]; intros merged used w r w' Hpos;
    cbn [merge_groups].
  - unfold ret. by intros [= <- <-].
  - set (gp := omap (fun i => points !! i)
                 (filter (fun i => i < length points) (indices group))).
    destruct (1 <? length gp) eqn:Hmany.
    + unfold bind.
      destruct (merge_group_returns gp (best_title group) w)
        as (m & w1 & Hm & Hfrom).
      rewrite Hm. apply IH. apply Forall_app. split; [done|].
      apply Forall_singleton. apply Nat.ltb_lt in Hmany. lia.
    + destruct (length gp =? 1); apply IH; [|done].
      apply Forall_app. split; [done|]. apply Forall_forall. intros m Hm.
      change (map ?f ?l) with (f <$> l) in Hm.
      apply list_elem_of_fmap in Hm as (p & -> & _). simpl. lia.
Qed.

Lemma length_le_total_merged_from merged :
  Forall (fun m => 1 ≤ merged_from m) merged →
  length merged ≤ total_merged_from merged.
Proof.
  unfold total_merged_from. induction 1 as [|m merged Hm _ IH]; simpl; lia.
Qed.

(** X17.  [merge_duplicates] never raises and never returns more entries
    than it was given fragments: every entry stands for at least one
    fragment, and an entry that stands for several takes the place of
    them all. *)
Theorem merge_duplicates_never_grows (threshold : Q)
    (points : list KnowledgePoint) (w : World) :
  ∃ merged w',
    merge_duplicates threshold points w = (Ok merged, w') ∧
    Forall (fun m => 1 ≤ merged_from m) merged ∧
    length merged ≤ length points ∧
    (length merged = length points →
     Forall (fun m => merged_from m = 1) merged).
Proof.
  destruct (merge_duplicates_conserves threshold points w)
    as (merged & w' & Hrun & Htotal).
  exists merged, w'. split; [done|].
  assert (Hpos : Forall (fun m => 1 ≤ merged_from m) merged).
  { unfold merge_duplicates in Hrun.
    destruct points as [|p [|q rest]].
    - injection Hrun as <- _. done.
    - injection Hrun as <- _. by repeat constructor.
    - unfold bind in Hrun.
      destruct (_confirm_duplicates _ _ w) as [[confirmed|e] w1]; [|done].
      unfold _merge_all_groups, bind in Hrun.
      destruct (merge_groups _ confirmed [] ∅ w1) as [[r|e] w2] eqn:Hmg;
        [|done].
      unfold ret in Hrun. injection Hrun as <- _.
      apply Forall_app. split.
      + by eapply merge_groups_positive.
      + unfold ungrouped. apply Forall_forall. intros m Hm.
        change (map ?f ?l) with (f <$> l) in Hm.
        apply list_elem_of_fmap in Hm as (ip & -> & _). simpl. lia. }
  split; [done|].
  pose proof (length_le_total_merged_from merged Hpos) as Hle.
  split; [lia|]. intros Hsame.
  assert (Hsum : total_merged_from merged = length merged) by lia.
  clear -Hpos Hsum. unfold total_merged_from in Hsum.
  induction Hpos as [|m merged Hm Hpos IH]; [done|].
  pose proof (length_le_total_merged_from merged Hpos) as Hle.
  unfold total_merged_from in Hle. simpl in Hsum.
  constructor; [lia|]. apply IH. lia.
Qed.

(** ** Further properties of the clustering *)

Lemma concat_chunks {A} (size : nat) (l : list A) : ∀ k,
  concat (map (fun b => take size (drop (b * size) l)) (seq 0 k))
  = take (k * size) l.
Proof.
  induction k as [|k IH].
  - by rewrite take_0.
  - rewrite seq_S, map_app, concat_app, IH. simpl. rewrite app_nil_r.
    rewrite take_take_drop. f_equal. lia.
Qed.

Lemma chunks_cover (n size : nat) :
  0 < size → n ≤ (n + size - 1) / size * size.
Proof.
  intros Hsize.
  pose proof (Nat.div_mod_eq (n + size - 1) size) as Hdiv.
  pose proof (Nat.mod_upper_bound (n + size - 1) size) as Hmod.
  nia.
Qed.

(** X18.  [_create_batches] cuts the list into consecutive batches: put
    one after the other the batches give the list back, every batch holds at
    least one and at most [max_points_per_batch] fragments, and there are as
    many batches as the size requires; a batch size of 0 raises
    [ValueError]. *)
Theorem create_batches_partition (size : nat)
    (all_points : list KnowledgePoint) :
  (size = 0 → _create_batches size all_points = Raise ValueError) ∧
  (0 < size →
   ∃ batches,
     _create_batches size all_points = Ok batches ∧
     concat batches = all_points ∧
     Forall (fun batch : list KnowledgePoint =>
               0 < length batch ∧ length batch ≤ size) batches ∧
     length batches = (length all_points + size - 1) / size).
Proof.
  split; [by intros ->|]. intros Hsize.
  assert (E : (size =? 0) = false) by (apply Nat.eqb_neq; lia).
  assert (Hrun : _create_batches size all_points
                 = Ok (map (fun b => take size (drop (b * size) all_points))
                         (seq 0 ((length all_points + size - 1) / size))))
    by (unfold _create_batches; by rewrite E).
  eexists. split; [exact Hrun|]. split; [|split].
  - rewrite concat_chunks. apply take_ge. by apply chunks_cover.
  - apply Forall_forall. intros batch Hin.
    apply list_elem_of_lookup in Hin as [b Hb].
    destruct (create_batches_lookup size b all_points _ batch Hrun Hb)
      as (-> & _ & Hstart & _).
    rewrite length_take, length_drop. lia.
  - by rewrite length_map, length_seq.
Qed.

Lemma singleton_topics_chunk size b (l : list KnowledgePoint) :
  singleton_topics b size (take size (drop (b * size) l))
  = take size (drop (b * size) (imap fragment_topic l)).
Proof.
  unfold singleton_topics. apply list_eq. intros i.
  rewrite list_lookup_imap.
  destruct (decide (i < size)) as [Hi|Hi].
  - rewrite !lookup_take_lt by done. rewrite !lookup_drop, list_lookup_imap.
    by destruct (l !! (b * size + i)).
  - rewrite !lookup_take_ge by lia. done.
Qed.

Lemma identify_batch_fails size b batch all_topics w :
  (∀ prompt t, ∃ e, service w (llm_calls w) prompt t = Raise e) →
  identify_batch size b batch all_topics w
  = (Ok (all_topics ++ singleton_topics b size batch),
     mkWorld (ledger w) (S (llm_calls w)) (service w) (files w) (listing w)).
Proof.
  intros Hfail. unfold identify_batch, generate.
  destruct (Hfail (IdentifyTopicsPrompt
                     (map (fun p => (title p, prefix 150 (content p))) batch))
              0.3%Q) as [e He].
  by rewrite He.
Qed.

Lemma identify_batches_fail size (g : nat → list KnowledgePoint) k :
  ∀ b all_topics w,
  (∀ n prompt t, ∃ e, service w n prompt t = Raise e) →
  (identify_batches size b (map g (seq b k)) all_topics w).1
  = Ok (all_topics
        ++ concat (map (fun b => singleton_topics b size (g b)) (seq b k))).
Proof.
  induction k as [|k IH]; intros b all_topics w Hfail; simpl.
  - by rewrite app_nil_r.
  - unfold bind. rewrite identify_batch_fails by (intros; apply Hfail).
    rewrite IH by (intros; apply Hfail). by rewrite <- app_assoc.
Qed.

Lemma identify_topics_degraded (size : nat)
    (all_points : list KnowledgePoint) (w : World) :
  0 < size →
  (∀ n prompt t, ∃ e, service w n prompt t = Raise e) →
  (_identify_topics size all_points w).1
  = Ok (imap fragment_topic all_points).
Proof.
  intros Hsize Hfail.
  assert (E : (size =? 0) = false) by (apply Nat.eqb_neq; lia).
  unfold _identify_topics, _create_batches. rewrite E.
  unfold bind, lift_result.
  rewrite (identify_batches_fail size
             (fun b => take size (drop (b * size) all_points))) by done.
  simpl. f_equal.
  erewrite map_ext; [|intros b; apply singleton_topics_chunk].
  rewrite concat_chunks. apply take_ge. rewrite length_imap.
  by apply chunks_cover.
Qed.

(** X19.  When every call of the service fails, [_identify_topics] still
    returns, and what it returns is one topic for each fragment, in order:
    the topic of the fragment at global index [i] is named "topic_i" and
    lists the index [i] alone, in the first batch as in the later ones. *)
Theorem identify_topics_all_calls_fail (size : nat)
    (all_points : list KnowledgePoint) (w : World) :
  0 < size →
  (∀ n prompt t, ∃ e, service w n prompt t = Raise e) →
  (_identify_topics size all_points w).1
  = Ok (imap fragment_topic all_points) ∧
  map point_indices (imap fragment_topic all_points)
  = map (fun i => [Z.of_nat i]) (seq 0 (length all_points)).
Proof.
  intros Hsize Hfail. split; [by apply identify_topics_degraded|].
  apply list_eq. intros i.
  change (map ?f ?l) with (f <$> l).
  rewrite !list_lookup_fmap, list_lookup_imap.
  destruct (all_points !! i) as [p|] eqn:Hi; simpl.
  - apply lookup_lt_Some in Hi. by rewrite lookup_seq_lt.
  - apply lookup_ge_None in Hi. by rewrite lookup_seq_ge.
Qed.

Lemma identify_topics_all_calls_fail_witness :
  let w := mkWorld Ledger.empty 0
             (fun _ _ _ => Raise (ServiceError "timeout"))
             (fun _ => Raise (OSError ""))
             (fun _ _ => []) in
  (_identify_topics 2 bdd_points w).1 = Ok (imap fragment_topic bdd_points) ∧
  map point_indices (imap fragment_topic bdd_points)
  = map (fun i => [Z.of_nat i]) (seq 0 (length bdd_points)).
Proof.
  intros w. apply (identify_topics_all_calls_fail 2 bdd_points w).
  - lia.
  - intros n prompt t. by eexists.
Defined.













Lemma StronglySorted_filter {A} (R : relation A) (P : A → Prop)
    `{!∀ x, Decision (P x)} (l : list A) :
  StronglySorted R l → StronglySorted R (filter P l).
Proof.
  induction 1 as [|x l Hs IH Hall]; [constructor|].
  rewrite filter_cons. destruct (decide (P x)); [|done].
  constructor; [done|]. apply Forall_forall. intros y Hy.
  apply list_elem_of_filter in Hy as [_ Hy].
  rewrite Forall_forall in Hall. by apply Hall.
Qed.

Lemma StronglySorted_seq n : ∀ k, StronglySorted le (seq k n).
Proof.
  induction n as [|n IH]; intros k; simpl; constructor; [apply IH|].
  apply Forall_forall. intros y Hy. apply elem_of_seq in Hy. lia.
Qed.

Lemma omap_ext_elem {A B} (f g : A → option B) (l : list A) :
  (∀ x, x ∈ l → f x = g x) → omap f l = omap g l.
Proof.
  intros Hfg. apply list_omap_ext, Forall_Forall2_diag, Forall_forall.
  exact Hfg.
Qed.

Lemma omap_of_nat {A} (xs : list A) (l : list nat) :
  omap (fun z => xs !! Z.to_nat z) (Z.of_nat <$> l)
  = omap (fun i => xs !! i) l.
Proof.
  induction l as [|i l IH]; [done|].
  rewrite fmap_cons. cbn [omap list_omap]. rewrite Nat2Z.id.
  destruct (xs !! i); by rewrite IH.
Qed.

(** The fragments at the sorted indices of a set are the fragments whose
    index is in the set, in the order of the list. *)
Lemma points_at_closed_form {A} (all_points : list A) (found : gset Z) :
  points_at all_points found
  = omap (fun i => all_points !! i)
      (filter (fun i => Z.of_nat i ∈ found) (seq 0 (length all_points))).
Proof.
  unfold points_at. set (n := length all_points).
  assert (E : filter (fun i => (0 ≤ i)%Z ∧ (i < Z.of_nat n)%Z)
                (merge_sort Z.le (elements found))
              = Z.of_nat <$> filter (fun i => Z.of_nat i ∈ found) (seq 0 n)).
  { apply (StronglySorted_unique Z.le).
    - apply StronglySorted_filter, StronglySorted_merge_sort; apply _.
    - apply StronglySorted_fmap with le; [intros x y; lia|].
      apply StronglySorted_filter, StronglySorted_seq.
    - apply NoDup_Permutation.
      + apply NoDup_filter. rewrite merge_sort_Permutation.
        apply NoDup_elements.
      + apply NoDup_fmap; [intros x y; lia|].
        apply NoDup_filter, NoDup_seq.
      + intros z.
        rewrite list_elem_of_filter, merge_sort_Permutation, elem_of_elements,
          list_elem_of_fmap.
        split.
        * intros [[H0 Hn] Hz]. exists (Z.to_nat z). split; [lia|].
          apply list_elem_of_filter. split; [by rewrite Z2Nat.id|].
          apply elem_of_seq. lia.
        * intros (i & -> & Hi). apply list_elem_of_filter in Hi as [Hf Hs].
          apply elem_of_seq in Hs. split; [lia|done]. }
  rewrite E. apply omap_of_nat.
Qed.

Lemma omap_lookup_sublist {A} (P : nat → Prop) `{!∀ i, Decision (P i)}
    (xs : list A) : ∀ k,
  omap (fun i => xs !! (i - k)) (filter P (seq k (length xs)))
    `sublist_of` xs.
Proof.
  induction xs as [|x xs IH]; intros k; [done|].
  cbn [length seq].
  assert (Hshift : omap (fun i => (x :: xs) !! (i - k))
                     (filter P (seq (S k) (length xs)))
                   = omap (fun i => xs !! (i - S k))
                       (filter P (seq (S k) (length xs)))).
  { apply omap_ext_elem. intros i Hi. apply list_elem_of_filter in Hi as [_ Hi].
    apply elem_of_seq in Hi.
    by replace (i - k) with (S (i - S k)) by lia. }
  rewrite filter_cons. destruct (decide (P k)).
  - cbn [omap list_omap]. rewrite Nat.sub_diag. cbn [lookup list_lookup].
    change (list_omap ?f ?l) with (omap f l). rewrite Hshift.
    by apply sublist_skip.
  - rewrite Hshift. by apply sublist_cons.
Qed.

Lemma selected_sublist {A} (P : nat → Prop) `{!∀ i, Decision (P i)}
    (xs : list A) :
  omap (fun i => xs !! i) (filter P (seq 0 (length xs))) `sublist_of` xs.
Proof.
  erewrite omap_ext_elem; [apply (omap_lookup_sublist P xs 0)|].
  intros i _. simpl. by rewrite Nat.sub_0_r.
Qed.

Lemma chapter_point_indices_spec topics topic_ids : ∀ acc found,
  chapter_point_indices topics topic_ids acc = Ok found →
  ∀ z, z ∈ found
       ↔ z ∈ acc ∨ ∃ topic, topic ∈ topics ∧
                            id_in (topic_id topic) topic_ids = Ok true ∧
                            z ∈ point_indices topic.
Proof.
  induction topics as [|topic topics IH]; intros acc found; simpl.
  - intros [= <-] z. split; [by left|].
    intros [?|(t & ?%elem_of_nil & _)]; done.
  - destruct (id_in (topic_id topic) topic_ids) as [listed|] eqn:Hid; simpl;
      [|done].
    intros Hrun z. rewrite (IH _ _ Hrun z). split.
    + intros [Hz|(t & Ht & Hin & Hz)].
      * destruct listed; [|by left].
        apply elem_of_union in Hz as [Hz|Hz]; [|by left].
        right. exists topic. rewrite elem_of_list_to_set in Hz.
        split; [left|done].
      * right. exists t. split; [by right|done].
    + intros [Hz|(t & Ht & Hin & Hz)].
      * left. destruct listed; [|done]. apply elem_of_union. by right.
      * apply elem_of_cons in Ht as [->|Ht].
        -- left. rewrite Hin in Hid. injection Hid as <-.
           apply elem_of_union. left. by apply elem_of_list_to_set.
        -- right. by eauto.
Qed.

Lemma selects_spec topics topic_ids i :
  selects topics topic_ids i = true
  ↔ ∃ topic, topic ∈ topics ∧ id_in (topic_id topic) topic_ids = Ok true ∧
             Z.of_nat i ∈ point_indices topic.
Proof.
  unfold selects. rewrite existsb_exists. split.
  - intros (t & Ht & Hsel). exists t. split; [by apply list_elem_of_In|].
    destruct (id_in _ _) as [[|]|]; [|done..].
    split; [done|]. by apply bool_decide_eq_true in Hsel.
  - intros (t & Ht & Hid & Hz). exists t. split; [by apply list_elem_of_In|].
    rewrite Hid. by apply bool_decide_eq_true.
Qed.

Lemma assign_chapters_spec {A} topics (all_points : list A) chapters :
  ∀ assigned,
  assign_chapters topics all_points chapters = Ok assigned →
  map chapter_data assigned = chapters ∧
  Forall (fun ch =>
            Json.is_object (chapter_data ch) = true ∧
            point_count ch = length (chapter_points ch) ∧
            ∃ topic_ids,
              get (chapter_data ch) "topic_ids" (Json.Arr []) = Ok topic_ids ∧
              chapter_points ch
              = omap (fun i => all_points !! i)
                  (filter (fun i => selects topics topic_ids i = true)
                     (seq 0 (length all_points)))) assigned.
Proof.
  induction chapters as [|chapter chapters IH]; intros assigned; simpl.
  - by intros [= <-].
  - destruct (get chapter "topic_ids" _) as [topic_ids|] eqn:Hget; simpl;
      [|done].
    destruct (chapter_point_indices topics topic_ids ∅) as [found|] eqn:Hfound;
      simpl; [|done].
    destruct (assign_chapters topics all_points chapters) as [rest|]; simpl;
      [|done].
    intros [= <-]. destruct (IH rest eq_refl) as [Hdata Hall].
    split; [simpl; by rewrite Hdata|]. constructor; [|done]. simpl.
    split; [by destruct chapter|]. split; [done|].
    exists topic_ids. split; [done|]. rewrite points_at_closed_form.
    f_equal. apply filter_ext_elem. intros i _.
    rewrite selects_spec, (chapter_point_indices_spec _ _ _ _ Hfound).
    set_solver.
Qed.

(** X21.  When [_assign_points_to_chapters] returns, every chapter is a
    dictionary, and the fragments it is given are exactly the fragments whose
    index is listed by a topic that the chapter names, each once and in the
    order of the fragment list; indices that are negative or beyond the list
    are passed over without an error. *)
Theorem assign_points_to_chapters_in_order {A : Type}
    (structure : CourseStructure) (all_points : list A)
    (assigned : list (AssignedChapter A)) :
  _assign_points_to_chapters structure all_points = Ok assigned →
  iterate (structure_chapters structure) = Ok (map chapter_data assigned) ∧
  Forall (fun ch =>
            Json.is_object (chapter_data ch) = true ∧
            point_count ch = length (chapter_points ch) ∧
            chapter_points ch `sublist_of` all_points ∧
            ∃ topic_ids,
              get (chapter_data ch) "topic_ids" (Json.Arr []) = Ok topic_ids ∧
              chapter_points ch
              = omap (fun i => all_points !! i)
                  (filter (fun i => selects (structure_topics structure)
                                      topic_ids i = true)
                     (seq 0 (length all_points)))) assigned.
Proof.
  unfold _assign_points_to_chapters.
  destruct (iterate (structure_chapters structure)) as [chapters|]; simpl;
    [|done].
  intros Hrun. destruct (assign_chapters_spec _ _ _ _ Hrun) as [Hdata Hall].
  split; [by rewrite Hdata|].
  eapply Forall_impl; [exact Hall|]. simpl.
  intros ch (Hobj & Hcount & topic_ids & Hget & Hpoints).
  split; [done|]. split; [done|]. split; [|by eauto].
  rewrite Hpoints. apply selected_sublist.
Qed.

Lemma assign_points_to_chapters_in_order_witness :
  let chapter := Json.Obj [("topic_ids", Json.Arr [Json.Str "t"])] in
  let structure :=
    mkCourseStructure "Calculus" (Json.Arr [chapter])
      [mkTopicCluster "t" "Derivatives" "" [1; 7; 0; -1]%Z []] (Json.Obj []) in
  let assigned := [mkAssignedChapter chapter (take 2 bdd_points) 2] in
  iterate (structure_chapters structure) = Ok (map chapter_data assigned) ∧
  Forall (fun ch =>
            Json.is_object (chapter_data ch) = true ∧
            point_count ch = length (chapter_points ch) ∧
            chapter_points ch `sublist_of` bdd_points ∧
            ∃ topic_ids,
              get (chapter_data ch) "topic_ids" (Json.Arr []) = Ok topic_ids ∧
              chapter_points ch
              = omap (fun i => bdd_points !! i)
                  (filter (fun i => selects (structure_topics structure)
                                      topic_ids i = true)
                     (seq 0 (length bdd_points)))) assigned.
Proof.
  intros chapter structure assigned.
  apply (assign_points_to_chapters_in_order structure bdd_points assigned).
  vm_compute. reflexivity.
Defined.

Lemma string_of_nat_inj n m : string_of_nat n = string_of_nat m → n = m.
Proof.
  unfold string_of_nat. intros H.
  assert (Hnonnil : ∀ k, Nat.to_uint k ≠ Decimal.Nil).
  { intros k. rewrite <- (Unsigned.of_to k) at 1. rewrite Unsigned.to_of.
    apply DecimalFacts.unorm_nonnil. }
  apply Unsigned.to_uint_inj.
  apply (f_equal NilZero.uint_of_string) in H.
  rewrite !NilZero.usu in H by apply Hnonnil. by injection H.
Qed.

Lemma merge_similar_topics_degraded (llm : Client) topics w :
  (∀ prompt t w0, ∃ e w1, llm prompt t w0 = (Raise e, w1)) →
  ∃ w1, _merge_similar_topics llm topics w = (Ok topics, w1).
Proof.
  intros Hfail. unfold _merge_similar_topics.
  destruct (length topics <=? 5); [by exists w|].
  unfold try_except, bind.
  destruct (Hfail (MergeTopicsPrompt
                     (map (fun t => (topic_title t, keywords t,
                                     prefix 100 (topic_description t)))
                        topics)) 0.2%Q w) as (e & w1 & ->).
  by exists w1.
Qed.

Lemma build_course_structure_degraded (llm : Client) all_points topics w :
  (∀ prompt t w0, ∃ e w1, llm prompt t w0 = (Raise e, w1)) →
  ∃ w1, _build_course_structure llm all_points topics w
        = (Ok (fallback_structure topics), w1).
Proof.
  intros Hfail. unfold _build_course_structure, try_except, bind.
  destruct (Hfail (CourseStructurePrompt
                     (map (fun t => (topic_title t,
                                     prefix 80 (topic_description t),
                                     length (point_indices t)))
                        topics)) 0.3%Q w) as (e & w1 & ->).
  by exists w1.
Qed.

Lemma chapter_point_indices_listed topics items : ∀ acc,
  ∃ found, chapter_point_indices topics (Json.Arr items) acc = Ok found.
Proof.
  induction topics as [|topic topics IH]; intros acc; simpl; [by eauto|].
  apply IH.
Qed.

Lemma filter_seq_single (P : nat → Prop) `{!∀ i, Decision (P i)} n j :
  j < n → (∀ i, P i ↔ i = j) → filter P (seq 0 n) = [j].
Proof.
  intros Hj HP.
  assert (E : seq 0 n = seq 0 j ++ j :: seq (S j) (n - S j)).
  { replace n with (j + S (n - S j)) at 1 by lia. by rewrite seq_app. }
  rewrite E, filter_app, filter_cons.
  rewrite (filter_none P (seq 0 j)), (filter_none P (seq (S j) _)).
  - destruct (decide (P j)) as [_|Hn]; [done|].
    exfalso. by apply Hn, HP.
  - intros i Hi. apply elem_of_seq in Hi. rewrite HP. lia.
  - intros i Hi. apply elem_of_seq in Hi. rewrite HP. lia.
Qed.

(** The chapter of a fragment topic holds the fragment of the topic. *)
Lemma fragment_chapter_points (all_points : list KnowledgePoint) j p found :
  all_points !! j = Some p →
  chapter_point_indices (imap fragment_topic all_points)
    (Json.Arr [Json.Str (topic_id (fragment_topic j p))]) ∅ = Ok found →
  points_at all_points found = [p].
Proof.
  intros Hj Hfound. rewrite points_at_closed_form.
  rewrite (filter_seq_single _ _ j).
  - simpl. by rewrite Hj.
  - by eapply lookup_lt_Some.
  - intros i. rewrite (chapter_point_indices_spec _ _ _ _ Hfound). split.
    + intros [Hi|(t & Ht & Hid & Hi)]; [set_solver|].
      apply list_elem_of_lookup in Ht as [m Hm].
      rewrite list_lookup_imap in Hm.
      destruct (all_points !! m) as [q|]; [|done]. injection Hm as <-.
      simpl in Hid, Hi. injection Hid as Hid.
      rewrite orb_false_r in Hid. apply String.eqb_eq in Hid.
      simpl in Hid. apply string_of_nat_inj in Hid.
      apply list_elem_of_singleton in Hi. lia.
    + intros ->. right. exists (fragment_topic j p). split; [|split].
      * apply list_elem_of_lookup. exists j.
        by rewrite list_lookup_imap, Hj.
      * simpl. by rewrite String.eqb_refl.
      * simpl. by apply list_elem_of_singleton.
Qed.

Lemma assign_fragment_chapters (all_points : list KnowledgePoint) l : ∀ k,
  (∀ i p, l !! i = Some p → all_points !! (k + i) = Some p) →
  assign_chapters (imap fragment_topic all_points) all_points
    (imap (fun i p => fallback_chapter (k + i) (fragment_topic (k + i) p)) l)
  = Ok (imap (fun i p =>
                mkAssignedChapter
                  (fallback_chapter (k + i) (fragment_topic (k + i) p))
                  [p] 1) l).
Proof.
  induction l as [|p l IH]; intros k Hl; [done|].
  cbn [imap]. cbn [assign_chapters].
  change (get (fallback_chapter (k + 0) (fragment_topic (k + 0) p))
            "topic_ids" (Json.Arr []))
    with (Ok (Json.Arr [Json.Str (topic_id (fragment_topic (k + 0) p))])).
  cbn [result_bind].
  destruct (chapter_point_indices_listed (imap fragment_topic all_points)
              [Json.Str (topic_id (fragment_topic (k + 0) p))] ∅)
    as [found Hfound].
  rewrite Hfound. cbn [result_bind].
  rewrite (fragment_chapter_points all_points (k + 0) p found);
    [|by apply (Hl 0)|done].
  assert (Hrest : assign_chapters (imap fragment_topic all_points) all_points
                    (imap ((fun i p => fallback_chapter (k + i)
                                         (fragment_topic (k + i) p)) ∘ S) l)
                  = Ok (imap ((fun i p =>
                                 mkAssignedChapter
                                   (fallback_chapter (k + i)
                                      (fragment_topic (k + i) p))
                                   [p] 1) ∘ S) l)).
  { rewrite (imap_ext _ (fun i q => fallback_chapter (S k + i)
                                       (fragment_topic (S k + i) q)) l),
            (imap_ext _ (fun i q =>
                           mkAssignedChapter
                             (fallback_chapter (S k + i)
                                (fragment_topic (S k + i) q))
                             [q] 1) l).
    - apply (IH (S k)). intros i q Hq.
      replace (S k + i) with (k + S i) by lia. by apply (Hl (S i)).
    - intros i q _. simpl. by replace (k + S i) with (S (k + i)) by lia.
    - intros i q _. simpl. by replace (k + S i) with (S (k + i)) by lia. }
  rewrite Hrest. done.
Qed.

Lemma assign_fallback_structure (all_points : list KnowledgePoint) :
  _assign_points_to_chapters
    (fallback_structure (imap fragment_topic all_points)) all_points
  = Ok (imap (fun i p =>
                mkAssignedChapter (fallback_chapter i (fragment_topic i p))
                  [p] 1) (take 8 all_points)).
Proof.
  unfold _assign_points_to_chapters, fallback_structure.
  cbn [structure_chapters structure_topics iterate result_bind].
  assert (E : imap fallback_chapter (take 8 (imap fragment_topic all_points))
              = imap (fun i p => fallback_chapter (0 + i)
                                   (fragment_topic (0 + i) p))
                  (take 8 all_points)).
  { apply list_eq. intros i. rewrite !list_lookup_imap.
    destruct (decide (i < 8)) as [Hi|Hi].
    - rewrite !lookup_take_lt by done. rewrite list_lookup_imap.
      by destruct (all_points !! i).
    - by rewrite !lookup_take_ge by lia. }
  rewrite E. rewrite (assign_fragment_chapters all_points _ 0).
  - done.
  - intros i p Hi. simpl. apply lookup_take_Some in Hi. tauto.
Qed.

(** X22.  When every call fails, [cluster] still returns a course, by its
    degrade paths alone: one topic for each fragment, and one chapter for
    each of the first eight fragments, which holds that fragment and no
    other.  The fragments from the ninth on are in no chapter. *)
Theorem cluster_without_service (llm : Client) (size : nat)
    (all_points : list KnowledgePoint) (w : World) :
  0 < size →
  (∀ n prompt t, ∃ e, service w n prompt t = Raise e) →
  (∀ prompt t w0, ∃ e w1, llm prompt t w0 = (Raise e, w1)) →
  (cluster llm size all_points w).1
  = Ok (fallback_structure (imap fragment_topic all_points),
        imap (fun i p =>
                mkAssignedChapter (fallback_chapter i (fragment_topic i p))
                  [p] 1) (take 8 all_points)).
Proof.
  intros Hsize Hservice Hllm. unfold cluster.
  destruct all_points as [|p0 rest] eqn:Epoints; [done|]. rewrite <- Epoints.
  pose proof (identify_topics_degraded size all_points w Hsize Hservice)
    as Hidentify.
  destruct (_identify_topics size all_points w) as [r w1] eqn:Hrun.
  simpl in Hidentify. subst r.
  erewrite bind_ok by exact Hrun.
  destruct (merge_similar_topics_degraded llm
              (imap fragment_topic all_points) w1 Hllm) as [w2 Hmerge].
  erewrite bind_ok by exact Hmerge.
  destruct (build_course_structure_degraded llm all_points
              (imap fragment_topic all_points) w2 Hllm) as [w3 Hbuild].
  erewrite bind_ok by exact Hbuild.
  unfold bind, lift_result, ret. by rewrite assign_fallback_structure.
Qed.

Lemma cluster_without_service_witness :
  let w := mkWorld Ledger.empty 0
             (fun _ _ _ => Raise (ServiceError "timeout"))
             (fun _ => Raise (OSError ""))
             (fun _ _ => []) in
  let llm : Client := fun _ _ w0 => (Raise (ServiceError "timeout"), w0) in
  (cluster llm 2 bdd_points w).1
  = Ok (fallback_structure (imap fragment_topic bdd_points),
        imap (fun i p =>
                mkAssignedChapter (fallback_chapter i (fragment_topic i p))
                  [p] 1) (take 8 bdd_points)).
Proof.
  intros w llm. apply (cluster_without_service llm 2 bdd_points w).
  - lia.
  - intros n prompt t. by eexists.
  - intros prompt t w0. by eexists _, _.
Defined.

(** ** Further properties of the transitions *)

Lemma dict_set_fresh {V} (d : list (nat * V)) k v :
  k ∉ map fst d → dict_set d k v = d ++ [(k, v)].
Proof.
  induction d as [|[k' v'] d IH]; intros Hk; simpl; [done|].
  simpl in Hk. apply not_elem_of_cons in Hk as [Hne Hk].
  destruct (k' =? k) eqn:E; [apply Nat.eqb_eq in E; congruence|].
  by rewrite IH.
Qed.

Lemma transition_between_ok (llm : Client) prev_ch curr_ch w :
  describable prev_ch = true → describable curr_ch = true →
  ∃ t w',
    transition_between llm prev_ch curr_ch w = (Ok t, w') ∧
    ((∃ reply, t = Written (_clean_transition reply)) ∨
     announcement curr_ch = Ok t) ∧
    ((∀ prompt temperature w0,
        ∃ e w1, llm prompt temperature w0 = (Raise e, w1)) →
     announcement curr_ch = Ok t).
Proof.
  unfold describable, shown_description, transition_between.
  destruct prev_ch as [| | | | | | | |pairs]; try done.
  destruct curr_ch as [| | | | | | | |pairs']; try done.
  cbn [get result_bind]. intros Hprev Hcurr.
  unfold bind at 1. cbn [lift_result]. unfold bind at 1.
  cbn [lift_result]. unfold bind at 1. cbn [lift_result].
  unfold bind at 1. cbn [lift_result].
  destruct (slice_200 (from_option id _ (Json.lookup "description" pairs)))
    as [prev_shown|]; [|done].
  destruct (slice_200 (from_option id _ (Json.lookup "description" pairs')))
    as [curr_shown|]; [|done].
  unfold bind at 1. cbn [lift_result]. unfold bind at 1. cbn [lift_result].
  unfold try_except, bind, ret.
  destruct (llm _ _ w) as [[reply|e] w1] eqn:Hcall.
  - eexists _, _. split; [done|]. split; [by eauto|].
    intros Hfail. destruct (Hfail (TransitionPrompt
      (from_option id (Json.Str "") (Json.lookup "title" pairs)) prev_shown
      (from_option id (Json.Str "") (Json.lookup "title" pairs')) curr_shown)
      0.4%Q w) as (e & w2 & Hfails).
    rewrite Hfails in Hcall. discriminate.
  - eexists _, _. split; [done|]. by split; [right|].
Qed.

Lemma transition_between_raises (llm : Client) prev_ch curr_ch w :
  describable prev_ch = false ∨ describable curr_ch = false →
  ∃ e w', transition_between llm prev_ch curr_ch w = (Raise e, w').
Proof.
  unfold describable, shown_description, transition_between.
  intros Hbad.
  destruct prev_ch as [| | | | | | | |pairs];
    try (by eexists _, _).
  cbn [get result_bind] in *.
  unfold bind at 1. cbn [lift_result]. unfold bind at 1. cbn [lift_result].
  destruct curr_ch as [| | | | | | | |pairs'];
    try (by eexists _, _).
  cbn [get result_bind] in *.
  unfold bind at 1. cbn [lift_result]. unfold bind at 1. cbn [lift_result].
  destruct (slice_200 (from_option id _ (Json.lookup "description" pairs)))
    as [prev_shown|]; [|by eexists _, _].
  destruct (slice_200 (from_option id _ (Json.lookup "description" pairs')))
    as [curr_shown|]; [|by eexists _, _].
  by destruct Hbad.
Qed.

Lemma transitions_loop_raises (llm : Client) (chapters : list Json.t) m :
  ∀ k acc w j ch,
    1 ≤ k → k + m = length chapters →
    k - 1 ≤ j → 0 < m → chapters !! j = Some ch → describable ch = false →
    ∃ e, (transitions_loop llm chapters (seq k m) acc w).1 = Raise e.
Proof.
  induction m as [|m IH]; intros k acc w j ch Hk Hlen Hj Hm Hch Hbad; [lia|].
  cbn [seq transitions_loop].
  destruct (chapters !! (k - 1)) as [prev_ch|] eqn:Hprev;
    [|apply lookup_ge_None in Hprev; lia].
  destruct (chapters !! k) as [curr_ch|] eqn:Hcurr;
    [|apply lookup_ge_None in Hcurr; lia].
  destruct (describable prev_ch) eqn:Eprev;
    [destruct (describable curr_ch) eqn:Ecurr|].
  - destruct (transition_between_ok llm prev_ch curr_ch w Eprev Ecurr)
      as (t & w1 & Hrun & _).
    erewrite bind_ok by exact Hrun.
    assert (Hrange : j < length chapters) by by eapply lookup_lt_Some.
    apply (IH (S k) _ w1 j ch); try done; try lia.
    + destruct (decide (j = k - 1)) as [->|]; [congruence|].
      destruct (decide (j = k)) as [->|]; [congruence|]. lia.
    + destruct (decide (j = k - 1)) as [->|]; [congruence|].
      destruct (decide (j = k)) as [->|]; [congruence|]. lia.
  - destruct (transition_between_raises llm prev_ch curr_ch w) as (e & w1 & Hrun);
      [by right|].
    erewrite bind_raise by exact Hrun. by eauto.
  - destruct (transition_between_raises llm prev_ch curr_ch w) as (e & w1 & Hrun);
      [by left|].
    erewrite bind_raise by exact Hrun. by eauto.
Qed.

Lemma transition_between_run (llm : Client) prev_ch curr_ch w :
  describable prev_ch = true → describable curr_ch = true →
  transition_between llm prev_ch curr_ch w
  = (Ok (boundary_entry curr_ch
           (llm (boundary_prompt prev_ch curr_ch) 0.4%Q w).1),
     (llm (boundary_prompt prev_ch curr_ch) 0.4%Q w).2).
Proof.
  unfold describable, boundary_prompt, boundary_entry, shown_description,
    transition_between, announcement.
  destruct prev_ch as [| | | | | | | |pairs]; try done.
  destruct curr_ch as [| | | | | | | |pairs']; try done.
  cbn [get result_bind value_or]. intros Hprev Hcurr.
  unfold bind at 1. cbn [lift_result]. unfold bind at 1.
  cbn [lift_result]. unfold bind at 1. cbn [lift_result].
  unfold bind at 1. cbn [lift_result].
  destruct (slice_200 (from_option id _ (Json.lookup "description" pairs)))
    as [prev_shown|]; [|done].
  destruct (slice_200 (from_option id _ (Json.lookup "description" pairs')))
    as [curr_shown|]; [|done].
  unfold bind at 1. cbn [lift_result]. unfold bind at 1. cbn [lift_result].
  unfold try_except, bind, ret, lift_result. cbn [value_or].
  by destruct (llm _ _ w) as [[reply|e] w1].
Qed.

Lemma boundary_transitions_keys (llm : Client) rest : ∀ i prev_ch w,
  map fst (boundary_transitions llm i prev_ch rest w).1
  = seq i (length rest).
Proof.
  induction rest as [|curr_ch rest IH]; intros i prev_ch w; [done|].
  cbn [boundary_transitions].
  destruct (llm _ _ w) as [outcome w1].
  specialize (IH (S i) curr_ch w1).
  destruct (boundary_transitions llm (S i) curr_ch rest w1) as [entries w2].
  simpl in *. by rewrite IH.
Qed.

(** The loop from index [k] on, started with a dictionary without the keys
    it is going to write. *)
Lemma transitions_loop_run (llm : Client) (chapters : list Json.t) rest :
  ∀ k prev_ch acc w,
    1 ≤ k → chapters !! (k - 1) = Some prev_ch → drop k chapters = rest →
    Forall (fun ch => describable ch = true) chapters →
    (∀ j, j ∈ map fst acc → j < k) →
    transitions_loop llm chapters (seq k (length rest)) acc w
    = (Ok (acc ++ (boundary_transitions llm k prev_ch rest w).1),
       (boundary_transitions llm k prev_ch rest w).2).
Proof.
  induction rest as [|curr_ch rest IH];
    intros k prev_ch acc w Hk Hprev Hrest Hall Hkeys.
  - simpl. unfold ret. by rewrite app_nil_r.
  - cbn [length seq transitions_loop boundary_transitions].
    assert (Hcurr : chapters !! k = Some curr_ch).
    { rewrite <- (Nat.add_0_r k), <- lookup_drop. by rewrite Hrest. }
    rewrite Hprev, Hcurr.
    erewrite bind_ok; cycle 1.
    { apply transition_between_run.
      - eapply (proj1 (Forall_forall _ _) Hall), list_elem_of_lookup_2, Hprev.
      - eapply (proj1 (Forall_forall _ _) Hall), list_elem_of_lookup_2, Hcurr. }
    destruct (llm (boundary_prompt prev_ch curr_ch) 0.4%Q w)
      as [outcome w1].
    cbn [fst snd].
    rewrite dict_set_fresh by (intros Hin; apply Hkeys in Hin; lia).
    rewrite (IH (S k) curr_ch).
    + destruct (boundary_transitions llm (S k) curr_ch rest w1)
        as [entries w2].
      cbn [fst snd]. by rewrite <- app_assoc.
    + lia.
    + by replace (S k - 1) with k by lia.
    + replace (S k) with (k + 1) by lia.
      by rewrite <- drop_drop, Hrest.
    + done.
    + intros j Hj. rewrite map_app in Hj. simpl in Hj.
      apply elem_of_app in Hj as [Hj|Hj]; [apply Hkeys in Hj; lia|].
      apply list_elem_of_singleton in Hj. lia.
Qed.

(** X23.  For chapters that are dictionaries with a description (or, without
    one, a title) that can be cut, [generate_transitions] does not raise and
    makes one call for each boundary between two chapters, in the order of
    the chapters, with the titles and the cut descriptions of the two
    chapters.  Under the keys 1 to n-1, in order, the entry of a boundary is
    the cleaned reply of its own call or, when that call fails, the sentence
    that announces the chapter the boundary leads to. *)
Theorem generate_transitions_one_per_boundary (llm : Client)
    (chapters : list Json.t) (w : World) :
  Forall (fun ch => describable ch = true) chapters →
  generate_transitions llm chapters w
  = match chapters with
    | [] => (Ok [], w)
    | first :: rest =>
        (Ok (boundary_transitions llm 1 first rest w).1,
         (boundary_transitions llm 1 first rest w).2)
    end ∧
  ∀ transitions w',
    generate_transitions llm chapters w = (Ok transitions, w') →
    map fst transitions = seq 1 (length chapters - 1).
Proof.
  intros Hall.
  assert (Hrun : generate_transitions llm chapters w
                 = match chapters with
                   | [] => (Ok [], w)
                   | first :: rest =>
                       (Ok (boundary_transitions llm 1 first rest w).1,
                        (boundary_transitions llm 1 first rest w).2)
                   end).
  { unfold generate_transitions.
    destruct chapters as [|first [|second rest]]; [done..|].
    change (length (first :: second :: rest) <? 2) with false. cbv iota.
    replace (length (first :: second :: rest) - 1)
      with (length (second :: rest)) by (simpl; lia).
    by rewrite (transitions_loop_run llm _ (second :: rest) 1 first [] w)
      by (done || lia || set_solver). }
  split; [exact Hrun|]. rewrite Hrun. intros transitions w'.
  destruct chapters as [|first rest]; [by intros [= <- _]|].
  intros [= <- _]. rewrite boundary_transitions_keys. simpl.
  by rewrite Nat.sub_0_r.
Qed.

Lemma generate_transitions_one_per_boundary_witness :
  let chapters :=
    [ Json.Obj [("title", Json.Str "Limits")];
      Json.Obj [("title", Json.Str "Derivatives");
                ("description", Json.Arr [Json.Int 1])];
      Json.Obj [] ] in
  let llm : Client :=
    fun prompt _ w0 =>
      match prompt with
      | TransitionPrompt (Json.Str "Limits") _ _ _ =>
          (Ok "'From limits we pass to derivatives.' ", w0)
      | _ => (Raise (ServiceError "timeout"), w0)
      end in
  generate_transitions llm chapters bdd_world
  = (Ok [ (1, Written "From limits we pass to derivatives.");
          (2, Announced (Json.Str next_chapter)) ], bdd_world) ∧
  ∀ transitions w',
    generate_transitions llm chapters bdd_world = (Ok transitions, w') →
    map fst transitions = seq 1 (length chapters - 1).
Proof.
  intros chapters llm.
  apply (generate_transitions_one_per_boundary llm chapters bdd_world).
  repeat constructor.
Defined.

(** X24.  The descriptions are cut outside the [try]: with two chapters or
    more, one chapter that is no dictionary, or whose description is a value
    that cannot be cut (a number, [null], a dictionary), makes
    [generate_transitions] raise, and the transitions written before it are
    lost.  With fewer than two chapters nothing is looked at and the result
    is the empty dictionary. *)
Theorem generate_transitions_bad_chapter (llm : Client)
    (chapters : list Json.t) (w : World) :
  (length chapters < 2 → generate_transitions llm chapters w = (Ok [], w)) ∧
  (2 ≤ length chapters →
   ∀ ch, ch ∈ chapters → describable ch = false →
         ∃ e, (generate_transitions llm chapters w).1 = Raise e).
Proof.
  unfold generate_transitions. split.
  - intros Hfew. apply Nat.ltb_lt in Hfew. by rewrite Hfew.
  - intros Hlen ch Hin Hbad.
    assert (Hfew : (length chapters <? 2) = false) by (apply Nat.ltb_ge; lia).
    rewrite Hfew. apply list_elem_of_lookup in Hin as [j Hj].
    apply (transitions_loop_raises llm chapters _ 1 [] w j ch); try done; lia.
Qed.
